(** * leakguard::CircularBuffer: a shallow embedding and its properties

    Source: [include/leakguard/circularbuffer.hpp].

    The class template [CircularBuffer<T, size, MutexImpl_t>] is embedded as a
    record of its data members; every member function is a state
    transformer over that record, written in a small state monad so that the
    definitions follow the statements of the C++ bodies.  The semantics is
    that of one thread of calls; the mutex is part of the state, so which
    calls enter the critical section is visible.

    - [size_t] values are integers, and every [size_t] addition and
      subtraction of the source is reduced modulo [2 ^ SIZE_WIDTH].
    - [m_buffer], a [std::array<T, size + 1>], is a list; [m_buffer[i]] is
      the total lookup [!!!] and an assignment to it is the list update
      [<[i:=v]>].  Out of range the C++ behaviour is undefined, where the
      lookup gives [inhabitant] and the update does nothing: results about
      the slots are stated for states whose cursors are within the array
      ([bounded]), which all reachable states are ([reachable_bounded]).
    - [inhabitant] stands for the value-initialised [T{}].
    - The template parameters [size] and [MutexImpl_t], and the iterator
      type of [PushMany], are explicit arguments, a type class each for the
      mutex and the iterator concept.
    - [static_assert(size > 0)] and the fact that an array of [size + 1]
      elements exists are the hypotheses [0 < size] and
      [2 * size < SIZE_MODULUS] of the results that need them. *)

From stdpp Require Import base numbers list.
From Stdlib Require Import Ascii.

Local Open Scope Z_scope.

(** ** [std::size_t] *)

(** Width of [std::size_t] (an LP64 target). *)
Definition SIZE_WIDTH : Z := 64.

(** One past [SIZE_MAX]. *)
Definition SIZE_MODULUS : Z := 2 ^ SIZE_WIDTH.

(** Reduction of an integer result to [std::size_t]: unsigned arithmetic
    is arithmetic modulo [2 ^ SIZE_WIDTH]. *)
Definition size_t (x : Z) : Z := x mod SIZE_MODULUS.

(** ** The [MutexImpl] concept: [Lock()] and [Unlock()] *)

Class MutexImpl (M : Type) := {
  Lock : M → M;
  Unlock : M → M
}.

(** [struct NopMutexImpl]: both members have empty bodies. *)
Inductive NopMutexImpl : Type := NopMutex.

#[export] Instance NopMutexImpl_impl : MutexImpl NopMutexImpl :=
  {| Lock m := m; Unlock m := m |}.

(** A mutex that counts its acquisitions and releases; used to observe
    which member functions enter the critical section. *)
Record CountingMutex : Type := mkCountingMutex {
  locks : nat;
  unlocks : nat
}.

#[export] Instance CountingMutex_impl : MutexImpl CountingMutex :=
  {| Lock m := mkCountingMutex (S (locks m)) (unlocks m);
     Unlock m := mkCountingMutex (locks m) (S (unlocks m)) |}.

(** ** The iterator concept [PushMany] is generic over:
    dereferencing, pre-incrementation and [operator==]. *)

Class InputIt (It T : Type) := {
  deref : It → T;
  incr : It → It;
  it_eq : It → It → bool
}.

(** A [const T*] into an array of [T]: the array it points into and the
    element offset. *)
Record Ptr (T : Type) : Type := mkPtr {
  ptr_array : list T;
  ptr_offset : Z
}.
Arguments mkPtr {T} _ _.
Arguments ptr_array {T} _.
Arguments ptr_offset {T} _.

#[export] Instance Ptr_InputIt {T} `{!Inhabited T} : InputIt (Ptr T) T :=
  {| deref p := ptr_array p !!! Z.to_nat (ptr_offset p);
     incr p := mkPtr (ptr_array p) (ptr_offset p + 1);
     it_eq p q := ptr_offset p =? ptr_offset q |}.

(** [&value] for an object [value], and [p + n]. *)
Definition address_of {T} (value : T) : Ptr T := mkPtr [value] 0.
Definition ptr_add {T} (p : Ptr T) (n : Z) : Ptr T :=
  mkPtr (ptr_array p) (ptr_offset p + n).

(** Iterators of a sequence container holding [xs]: an iterator is the
    suffix still ahead of it, [end()] is the empty suffix. *)
Record SeqIt (T : Type) : Type := mkSeqIt { seq_rest : list T }.
Arguments mkSeqIt {T} _.
Arguments seq_rest {T} _.

#[export] Instance SeqIt_InputIt {T} `{!Inhabited T} : InputIt (SeqIt T) T :=
  {| deref i := default inhabitant (head (seq_rest i));
     incr i := mkSeqIt (tail (seq_rest i));
     it_eq i j := Nat.eqb (length (seq_rest i)) (length (seq_rest j)) |}.

Definition seq_begin {T} (xs : list T) : SeqIt T := mkSeqIt xs.
Definition seq_end {T} (xs : list T) : SeqIt T := mkSeqIt [].

(** [CircularBuffer::ConstIterator].  The three [const T*] members point
    into the owning instance's [m_buffer]; they are offsets from
    [m_buffer.data()], and [it_store] is the array they point into. *)
Record ConstIterator (T : Type) : Type := mkConstIterator {
  it_store : list T;
  m_current : Z;
  m_begin : Z;
  m_end : Z
}.
Arguments mkConstIterator {T} _ _ _ _.
Arguments it_store {T} _.
Arguments m_current {T} _.
Arguments m_begin {T} _.
Arguments m_end {T} _.

(** [operator++]: [++m_current; if (m_current >= m_end) m_current = m_begin;] *)
Definition ConstIterator_incr {T} (it : ConstIterator T) : ConstIterator T :=
  let current := m_current it + 1 in
  let current := if current >=? m_end it then m_begin it else current in
  mkConstIterator (it_store it) current (m_begin it) (m_end it).

#[export] Instance ConstIterator_InputIt {T} `{!Inhabited T} :
  InputIt (ConstIterator T) T :=
  {| deref it := it_store it !!! Z.to_nat (m_current it);
     incr := ConstIterator_incr;
     it_eq a b := m_current a =? m_current b |}.

(** ** Member functions as state transformers *)

(** A member function returning [R], called on an object of type [S]. *)
Definition method (S R : Type) : Type := S → R * S.

(** [return r;] *)
Definition ret {S R} (r : R) : method S R := λ this, (r, this).

(** Sequencing of two statements, the first one's result bound to a name. *)
Definition bind {S A B} (m : method S A) (f : A → method S B) : method S B :=
  λ this, let '(a, this') := m this in f a this'.

Declare Scope method_scope.
Delimit Scope method_scope with method.
Notation "x ← y ; z" := (bind y (λ x, z))
  (at level 20, y at level 100, z at level 200, only parsing) : method_scope.
Notation "x ;; z" := (bind x (λ _, z))
  (at level 100, z at level 200, only parsing, right associativity) : method_scope.
Local Open Scope method_scope.

(** Read a member; update the object. *)
Definition gets {S R} (f : S → R) : method S R := λ this, (f this, this).
Definition modify {S} (f : S → S) : method S unit := λ this, (tt, f this).

(** ** The data members of [CircularBuffer<T, size, MutexImpl_t>]

    [m_buffer] is the [std::array<T, size + 1>]; the template parameter
    [size] is an explicit argument of every member function below. *)
Record CircularBuffer (T MutexImpl_t : Type) : Type := mkCircularBuffer {
  m_buffer : list T;
  m_readPtr : Z;
  m_writePtr : Z;
  m_currentSize : Z;
  m_mutexImpl : MutexImpl_t
}.
Arguments mkCircularBuffer {T MutexImpl_t} _ _ _ _ _.
Arguments m_buffer {T MutexImpl_t} _.
Arguments m_readPtr {T MutexImpl_t} _.
Arguments m_writePtr {T MutexImpl_t} _.
Arguments m_currentSize {T MutexImpl_t} _.
Arguments m_mutexImpl {T MutexImpl_t} _.

Section Members.
Context {T : Type} `{!Inhabited T} {MutexImpl_t : Type} `{!MutexImpl MutexImpl_t}.

(** Template parameter [size] (the capacity) and [sizeof(T)]. *)
Variable size : Z.
Variable sizeof_T : Z.

Local Abbreviation Buffer := (CircularBuffer T MutexImpl_t).

(** Assignments to single data members. *)
Definition set_buffer (f : list T → list T) (this : Buffer) : Buffer :=
  mkCircularBuffer (f (m_buffer this)) (m_readPtr this) (m_writePtr this)
    (m_currentSize this) (m_mutexImpl this).
Definition set_readPtr (v : Z) (this : Buffer) : Buffer :=
  mkCircularBuffer (m_buffer this) v (m_writePtr this)
    (m_currentSize this) (m_mutexImpl this).
Definition set_writePtr (v : Z) (this : Buffer) : Buffer :=
  mkCircularBuffer (m_buffer this) (m_readPtr this) v
    (m_currentSize this) (m_mutexImpl this).
Definition set_currentSize (v : Z) (this : Buffer) : Buffer :=
  mkCircularBuffer (m_buffer this) (m_readPtr this) (m_writePtr this)
    v (m_mutexImpl this).
Definition set_mutexImpl (f : MutexImpl_t → MutexImpl_t) (this : Buffer) : Buffer :=
  mkCircularBuffer (m_buffer this) (m_readPtr this) (m_writePtr this)
    (m_currentSize this) (f (m_mutexImpl this)).

(** The constructor: [m_buffer {}] value-initialises the [size + 1] slots,
    the cursors and the count start at 0. *)
Definition construct (mutexImpl : MutexImpl_t) : Buffer :=
  mkCircularBuffer (replicate (Z.to_nat (size + 1)) inhabitant) 0 0 0 mutexImpl.

(** [AcquireMutex()] builds a [MutexHolder], whose constructor calls
    [Lock()]; [ReleaseMutex] is the holder's destructor, run when the
    enclosing scope is left. *)
Definition AcquireMutex : method Buffer unit := modify (set_mutexImpl Lock).
Definition ReleaseMutex : method Buffer unit := modify (set_mutexImpl Unlock).

(** *** Size getters *)

Definition GetCapacity : method Buffer Z := ret size.

Definition GetCapacityBytes : method Buffer Z := ret (size_t (size * sizeof_T)).

Definition GetCurrentSize : method Buffer Z := gets m_currentSize.

Definition IsEmpty : method Buffer bool :=
  gets (λ this, m_currentSize this =? 0).

(** *** [PushMany] *)

(** The [while] loop of [PushMany].  [currentSize] goes up by one in each
    round and the guard needs [currentSize < size], so [size - currentSize]
    rounds are all the loop can make: that is the [fuel] [PushMany] passes
    (more fuel changes nothing, see [PushMany_loop_fuel_enough]). *)
Fixpoint PushMany_loop {It} `{!InputIt It T} (fuel : nat) (begin end_ : It)
    (currentSize pushed : Z) : method Buffer Z :=
  match fuel with
  | O => ret pushed
  | S fuel =>
      if negb (it_eq begin end_) && (currentSize <? size) then
        w ← gets m_writePtr;
        modify (set_buffer (<[Z.to_nat w := deref begin]>));;
        modify (set_writePtr (size_t (w + 1)));;
        let begin := incr begin in
        let currentSize := size_t (currentSize + 1) in
        let pushed := size_t (pushed + 1) in
        w ← gets m_writePtr;
        (if w >? size then modify (set_writePtr 0) else ret tt);;
        PushMany_loop fuel begin end_ currentSize pushed
      else ret pushed
  end.

Definition PushMany {It} `{!InputIt It T} (begin end_ : It) : method Buffer Z :=
  currentSize ← gets m_currentSize;
  pushed ← PushMany_loop (Z.to_nat (size - currentSize)) begin end_ currentSize 0;
  (if pushed >? 0 then
     AcquireMutex;;
     c ← gets m_currentSize;
     modify (set_currentSize (size_t (c + pushed)));;
     ReleaseMutex
   else ret tt);;
  ret pushed.

(** *** [PushOne] *)

Definition PushOne (value : T) : method Buffer bool :=
  let iterator := address_of value in
  pushed ← PushMany iterator (ptr_add iterator 1);
  ret (pushed >? 0).

(** *** [Peek] *)

Definition Peek : method Buffer T :=
  gets (λ this, m_buffer this !!! Z.to_nat (m_readPtr this)).

(** *** [Pop] *)

Definition Pop : method Buffer bool :=
  is_empty ← IsEmpty;
  if is_empty then ret false
  else
    r ← gets m_readPtr;
    let newReadPtr := size_t (r + 1) in
    let newReadPtr := if newReadPtr >? size then 0 else newReadPtr in
    modify (set_readPtr newReadPtr);;
    AcquireMutex;;
    c ← gets m_currentSize;
    modify (set_currentSize (size_t (c - 1)));;
    ReleaseMutex;;
    ret true.

(** *** [PopMany] *)

Definition PopMany (count : Z) : method Buffer Z :=
  cur ← GetCurrentSize;
  count ← (if count >? cur then GetCurrentSize else ret count);
  r ← gets m_readPtr;
  let newReadPtr := size_t (r + count) in
  let newReadPtr :=
    if newReadPtr >? size then size_t (newReadPtr - size) else newReadPtr in
  modify (set_readPtr newReadPtr);;
  AcquireMutex;;
  c ← gets m_currentSize;
  modify (set_currentSize (size_t (c - count)));;
  ReleaseMutex;;
  ret count.

(** *** [PeekAndPop]: the reference parameter [out] is passed in and
    handed back next to the result. *)

Definition PeekAndPop (out : T) : method Buffer (bool * T) :=
  is_empty ← IsEmpty;
  if negb is_empty then
    out ← gets (λ this, m_buffer this !!! Z.to_nat (m_readPtr this));
    ok ← Pop;
    ret (ok, out)
  else ret (false, out).

(** *** [operator<<] and [operator>>]: [PushOne] and [PeekAndPop] with
    the result dropped; the reference to self they return is the object
    itself. *)

Definition operator_shl (value : T) : method Buffer unit :=
  _ ← PushOne value; ret tt.

Definition operator_shr (value : T) : method Buffer T :=
  r ← PeekAndPop value; ret r.2.

(** *** [Clear] *)

Definition Clear : method Buffer unit :=
  AcquireMutex;;
  modify (set_currentSize 0);;
  w ← gets m_writePtr;
  modify (set_readPtr w);;
  ReleaseMutex.

(** *** [begin] and [end]: a [ConstIterator] built from the instance and
    the address of the slot under the cursor, with
    [m_begin = m_buffer.begin()] and [m_end = m_buffer.end()]. *)

Definition make_ConstIterator (instance : Buffer) (current : Z) : ConstIterator T :=
  mkConstIterator (m_buffer instance) current 0 (size + 1).

Definition begin : method Buffer (ConstIterator T) :=
  gets (λ this, make_ConstIterator this (m_readPtr this)).

Definition end_ : method Buffer (ConstIterator T) :=
  gets (λ this, make_ConstIterator this (m_writePtr this)).

End Members.

(** *** [MoveTo]: the target is another instantiation of the template
    ([size2], [MutexImpl_t2]), taken by reference; its new value is handed
    back next to the result. *)

Section MoveTo.
Context {T : Type} `{!Inhabited T}.
Context {MutexImpl_t : Type} `{!MutexImpl MutexImpl_t}.
Context {MutexImpl_t2 : Type} `{!MutexImpl MutexImpl_t2}.

Definition MoveTo (size size2 : Z) (target : CircularBuffer T MutexImpl_t2) :
    method (CircularBuffer T MutexImpl_t) (Z * CircularBuffer T MutexImpl_t2) :=
  beginIt ← begin size;
  endIt ← end_ size;
  let '(count, target) := PushMany size2 beginIt endIt target in
  moved ← PopMany size count;
  ret (moved, target).

End MoveTo.

(** ** Calls in sequence *)

Section Calls.
Context {T : Type} `{!Inhabited T} {MutexImpl_t : Type} `{!MutexImpl MutexImpl_t}.
Variable size : Z.

Local Abbreviation Buffer := (CircularBuffer T MutexImpl_t).

(** One call of a public member function with its arguments; [PushMany] is
    called on the iterators of a sequence [xs], and the [size_t] argument of
    [PopMany] is a natural number. *)
Inductive call : Type :=
  | CallPushMany (xs : list T)
  | CallPushOne (value : T)
  | CallPop
  | CallPopMany (count : N)
  | CallPeekAndPop (out : T)
  | CallClear
  | CallGetCurrentSize
  | CallIsEmpty.

(** What the caller sees of a call: the value returned and, for
    [PeekAndPop], the output location afterwards. *)
Inductive result : Type :=
  | RetCount (n : Z)
  | RetBool (b : bool)
  | RetOut (b : bool) (out : T)
  | RetVoid.

Definition exec (c : call) : method Buffer result :=
  match c with
  | CallPushMany xs =>
      n ← PushMany size (seq_begin xs) (seq_end xs); ret (RetCount n)
  | CallPushOne value => b ← PushOne size value; ret (RetBool b)
  | CallPop => b ← Pop size; ret (RetBool b)
  | CallPopMany count => n ← PopMany size (Z.of_N count); ret (RetCount n)
  | CallPeekAndPop out => r ← PeekAndPop size out; ret (RetOut r.1 r.2)
  | CallClear => Clear;; ret RetVoid
  | CallGetCurrentSize => n ← GetCurrentSize; ret (RetCount n)
  | CallIsEmpty => b ← IsEmpty; ret (RetBool b)
  end.

Fixpoint run (cs : list call) : method Buffer (list result) :=
  match cs with
  | [] => ret []
  | c :: cs => r ← exec c; rs ← run cs; ret (r :: rs)
  end.

(** Every call but [PopMany]. *)
Definition no_PopMany (c : call) : bool :=
  match c with CallPopMany _ => false | _ => true end.

(** Popping in full: [PeekAndPop] is called until it reports failure (at
    most [n] times); the values it handed out, in order. *)
Fixpoint drain (n : nat) (out : T) : method Buffer (list T) :=
  match n with
  | O => ret []
  | S n =>
      r ← PeekAndPop size out;
      if r.1 then xs ← drain n r.2; ret (r.2 :: xs) else ret []
  end.

(** *** Elements going in and coming out *)

(** The calls that push. *)
Definition is_push (c : call) : bool :=
  match c with CallPushMany _ | CallPushOne _ => true | _ => false end.

(** The calls that push or pop elements one by one or push ranges:
    [PushMany], [PushOne], [Pop], [PeekAndPop] (and the size getters). *)
Definition is_push_or_pop (c : call) : bool :=
  match c with CallPopMany _ | CallClear => false | _ => true end.

(** The values a call offers to the buffer. *)
Definition offered (c : call) : list T :=
  match c with
  | CallPushMany xs => xs
  | CallPushOne value => [value]
  | _ => []
  end.

(** The values a call made on [this] gets accepted: the first [n] of a
    range when [PushMany] returns [n], the value when [PushOne] returns
    [true]. *)
Definition accepted_by (c : call) (this : Buffer) : list T :=
  match c with
  | CallPushMany xs =>
      take (Z.to_nat (PushMany size (seq_begin xs) (seq_end xs) this).1) xs
  | CallPushOne value => if (PushOne size value this).1 then [value] else []
  | _ => []
  end.

(** The value a call made on [this] pops: what [PeekAndPop] stores in its
    output when it returns [true]; for [Pop], what [Peek] returns just
    before a [Pop] that returns [true]. *)
Definition popped_by (c : call) (this : Buffer) : list T :=
  match c with
  | CallPop => if (Pop size this).1 then [(Peek this).1] else []
  | CallPeekAndPop out =>
      let r := (PeekAndPop size out this).1 in if r.1 then [r.2] else []
  | _ => []
  end.

(** All values accepted, and all values popped, over a sequence of calls. *)
Fixpoint accepted (cs : list call) (this : Buffer) : list T :=
  match cs with
  | [] => []
  | c :: cs => accepted_by c this ++ accepted cs (exec c this).2
  end.

Fixpoint popped (cs : list call) (this : Buffer) : list T :=
  match cs with
  | [] => []
  | c :: cs => popped_by c this ++ popped cs (exec c this).2
  end.

(** The calls that change the count: [PushMany] and [PushOne] when they
    accept something, [Pop] and [PeekAndPop] on a non-empty buffer,
    [PopMany] and [Clear] always. *)
Definition enters_critical_section (c : call) (this : Buffer) : bool :=
  match c with
  | CallPushMany xs => (PushMany size (seq_begin xs) (seq_end xs) this).1 >? 0
  | CallPushOne value => (PushOne size value this).1
  | CallPop | CallPeekAndPop _ => negb (IsEmpty this).1
  | CallPopMany _ | CallClear => true
  | CallGetCurrentSize | CallIsEmpty => false
  end.

(** *** The state invariant *)

(** The members are within the bounds of their roles: the array has its
    [size + 1] slots, the cursors index it, the count is at most [size]. *)
Record bounded (this : Buffer) : Prop := mkBounded {
  bounded_buffer : length (m_buffer this) = Z.to_nat (size + 1);
  bounded_readPtr : 0 ≤ m_readPtr this ≤ size;
  bounded_writePtr : 0 ≤ m_writePtr this ≤ size;
  bounded_currentSize : 0 ≤ m_currentSize this ≤ size
}.

(** The write cursor is [count] slots ahead of the read cursor, wrapping
    over the [size + 1] slots. *)
Definition cursors_agree (this : Buffer) : Prop :=
  m_writePtr this = (m_readPtr this + m_currentSize this) mod (size + 1).

Definition invariant (this : Buffer) : Prop :=
  bounded this ∧ cursors_agree this.

Definition bounded_b (this : Buffer) : bool :=
  Nat.eqb (length (m_buffer this)) (Z.to_nat (size + 1))
  && (0 <=? m_readPtr this) && (m_readPtr this <=? size)
  && (0 <=? m_writePtr this) && (m_writePtr this <=? size)
  && (0 <=? m_currentSize this) && (m_currentSize this <=? size).

Definition invariant_b (this : Buffer) : bool :=
  bounded_b this
  && (m_writePtr this =? (m_readPtr this + m_currentSize this) mod (size + 1)).

(** *** The logical contents *)

(** The slot after slot [i], as [Pop] and [PushMany] step a cursor. *)
Definition next_slot (i : Z) : Z := if i + 1 >? size then 0 else i + 1.

(** The [n] slots read from cursor [r] on. *)
Fixpoint slots_from (buffer : list T) (r : Z) (n : nat) : list T :=
  match n with
  | O => []
  | S n => buffer !!! Z.to_nat r :: slots_from buffer (next_slot r) n
  end.

(** The elements of the buffer, oldest first: the [m_currentSize] slots
    from [m_readPtr] on. *)
Definition contents (this : Buffer) : list T :=
  slots_from (m_buffer this) (m_readPtr this) (Z.to_nat (m_currentSize this)).

(** *** The effect of [PushMany], one round at a time *)

(** One round of the loop of [PushMany] for the element [value]: the store
    at [m_writePtr], the increment, the reset past the last slot. *)
Definition push_slot (value : T) (this : Buffer) : Buffer :=
  let w := size_t (m_writePtr this + 1) in
  mkCircularBuffer (<[Z.to_nat (m_writePtr this) := value]> (m_buffer this))
    (m_readPtr this) (if w >? size then 0 else w)
    (m_currentSize this) (m_mutexImpl this).

Fixpoint push_slots (xs : list T) (this : Buffer) : Buffer :=
  match xs with
  | [] => this
  | x :: xs => push_slots xs (push_slot x this)
  end.

(** The statements after the loop: the count goes up by [pushed] inside
    the critical section, which is entered only when [pushed > 0]. *)
Definition commit_pushed (pushed : Z) (this : Buffer) : Buffer :=
  if pushed >? 0 then
    set_mutexImpl Unlock
      (set_currentSize (size_t (m_currentSize this + pushed))
         (set_mutexImpl Lock this))
  else this.

(** The number of elements [PushMany] takes from a range yielding [xs]
    when the count is [cs] on entry. *)
Definition taken (xs : list T) (cs : Z) : nat :=
  Nat.min (length xs) (Z.to_nat (size - cs)).

(** The iterator range [begin, end_) yields [xs]: [begin] reaches [end_]
    after [length xs] increments, dereferencing to the elements of [xs]
    on the way. *)
Inductive it_range {It} `{!InputIt It T} (end_ : It) : It → list T → Prop :=
  | it_range_nil begin :
      it_eq begin end_ = true → it_range end_ begin []
  | it_range_cons begin xs :
      it_eq begin end_ = false →
      it_range end_ (incr begin) xs →
      it_range end_ begin (deref begin :: xs).

End Calls.

(** ** A bounded queue, in the words of the specification

    "fixed-capacity FIFO": a list of at most [capacity] elements, oldest
    first.  Pushing appends what fits and drops the rest, popping removes
    from the front. *)

Module Queue.
Section Queue.
Context {T : Type}.
Variable capacity : Z.

Definition accepted (q xs : list T) : list T :=
  take (Z.to_nat (capacity - Z.of_nat (length q))) xs.

Definition step (c : call (T:=T)) (q : list T) : result (T:=T) * list T :=
  match c with
  | CallPushMany xs =>
      (RetCount (Z.of_nat (length (accepted q xs))), q ++ accepted q xs)
  | CallPushOne value =>
      (RetBool (bool_decide (accepted q [value] ≠ [])), q ++ accepted q [value])
  | CallPop => (RetBool (bool_decide (q ≠ [])), tail q)
  | CallPopMany count =>
      (RetCount (Z.min (Z.of_N count) (Z.of_nat (length q))),
       drop (N.to_nat count) q)
  | CallPeekAndPop out =>
      (RetOut (bool_decide (q ≠ [])) (default out (head q)), tail q)
  | CallClear => (RetVoid, [])
  | CallGetCurrentSize => (RetCount (Z.of_nat (length q)), q)
  | CallIsEmpty => (RetBool (bool_decide (q = [])), q)
  end.

Fixpoint steps (cs : list (call (T:=T))) (q : list T) : list (result (T:=T)) * list T :=
  match cs with
  | [] => ([], q)
  | c :: cs =>
      let '(r, q) := step c q in
      let '(rs, q) := steps cs q in (r :: rs, q)
  end.

End Queue.
End Queue.

(** ** Concrete buffers: [CircularBuffer<unsigned, size>] with the default
    mutex, elements value-initialised to 0. *)

Module Example.

Definition fresh (size : Z) : CircularBuffer nat NopMutexImpl :=
  construct size NopMutex.

(** Capacity 4, after [1; 2; 3; 4] went in, three came out and [5; 6; 7]
    went in: full, the write cursor has wrapped. *)
Definition wrapped4 : CircularBuffer nat NopMutexImpl :=
  (run 4 [CallPushMany [1; 2; 3; 4]; CallPop; CallPop; CallPop;
          CallPushMany [5; 6; 7]] (fresh 4)).2%nat.

(** Capacity 1, cursors at the last slot: empty after [Clear]. *)
Definition cleared1 : CircularBuffer nat NopMutexImpl :=
  (run 1 [CallPushOne 7; CallClear] (fresh 1)).2%nat.

(** Capacity 1: one element went in and out, a second one went in, was
    moved to another buffer, and a third one went in. *)
Definition moved1 : CircularBuffer nat NopMutexImpl :=
  let a := (run 1 [CallPushOne 10; CallPop; CallPushOne 20] (fresh 1)).2%nat in
  let a := (MoveTo 1 1 (fresh 1) a).2 in
  (exec 1 (CallPushOne 30%nat) a).2.

(** A fresh buffer whose mutex counts. *)
Definition counted (size : Z) : CircularBuffer nat CountingMutex :=
  construct size (mkCountingMutex O O).

End Example.

(** ** The states a program can reach

    Buffers of any capacity start from the constructor and change through
    calls of their public member functions, [MoveTo] being a call on two
    of them. *)
Inductive reachable {T} `{!Inhabited T} {MutexImpl_t} `{!MutexImpl MutexImpl_t} :
    Z → CircularBuffer T MutexImpl_t → Prop :=
  | reachable_construct size mutexImpl :
      0 < size → 2 * size < SIZE_MODULUS →
      reachable size (construct size mutexImpl)
  | reachable_exec size c this :
      reachable size this → reachable size (exec size c this).2
  | reachable_MoveTo_source size size2 this target :
      reachable size this → reachable size2 target →
      reachable size (MoveTo size size2 target this).2
  | reachable_MoveTo_target size size2 this target :
      reachable size this → reachable size2 target →
      reachable size2 (MoveTo size size2 target this).1.2.

(** * leakguard::StaticVector

    Source: [include/leakguard/staticvector.hpp].

    [StaticVector<T, maxSize>] as a record of its two data members, its
    member functions in the same style as above.  [T{}] is [inhabitant],
    [operator==] on [T] decides equality, and
    [std::is_trivially_destructible<T>] is a parameter.  The default
    constructor leaves [m_buffer] default-initialised: its initial elements
    are whatever the array holds, an argument of [construct]. *)

Module StaticVector.

Record StaticVector (T : Type) : Type := mkStaticVector {
  m_currentSize : Z;
  m_buffer : list T
}.
Arguments mkStaticVector {T} _ _.
Arguments m_currentSize {T} _.
Arguments m_buffer {T} _.

(** [std::swap(a[i], a[j])]. *)
Definition std_swap {T} `{!Inhabited T} (i j : Z) (a : list T) : list T :=
  <[Z.to_nat j := a !!! Z.to_nat i]> (<[Z.to_nat i := a !!! Z.to_nat j]> a).

(** [std::copy(src + first, src + last, dst + d_first)], element by
    element from the front. *)
Definition std_copy {T} `{!Inhabited T} (src : list T) (first last d_first : Z)
    (dst : list T) : list T :=
  foldl (λ d k, <[Z.to_nat (d_first + k) := src !!! Z.to_nat (first + k)]> d)
    dst (seqZ 0 (last - first)).

Section Members.
Context {T : Type} `{!Inhabited T} `{!EqDecision T}.

(** Template parameter [maxSize], [sizeof(T)] and
    [std::is_trivially_destructible<T>::value]. *)
Variable maxSize : Z.
Variable sizeof_T : Z.
Variable trivially_destructible : bool.

Local Abbreviation Vector := (StaticVector T).

Definition set_currentSize (v : Z) (this : Vector) : Vector :=
  mkStaticVector v (m_buffer this).
Definition set_buffer (f : list T → list T) (this : Vector) : Vector :=
  mkStaticVector (m_currentSize this) (f (m_buffer this)).

(** The default constructor: [m_currentSize { 0 }], [m_buffer] as it is. *)
Definition construct (initial : list T) : Vector := mkStaticVector 0 initial.

(** [operator=(const StaticVector&)] (the move assignment and the copy and
    move constructors of the same type forward to it). *)
Definition assign (other : Vector) : method Vector unit :=
  modify (set_buffer (std_copy (m_buffer other) 0 (m_currentSize other) 0));;
  modify (set_currentSize (m_currentSize other)).

(** The [operator=] template, for a vector of another capacity (elements
    of the same type). *)
Definition assign_from (other : Vector) : method Vector unit :=
  modify (set_currentSize (Z.min maxSize (m_currentSize other)));;
  c ← gets m_currentSize;
  modify (set_buffer (std_copy (m_buffer other) 0 c 0)).

(** [operator[]]: the bound check is compiled in when [NDEBUG] is defined;
    [None] is [std::abort()]. *)
Definition index (NDEBUG : bool) (n : Z) : method Vector (option T) :=
  c ← gets m_currentSize;
  if NDEBUG && (n >=? c) then ret None
  else b ← gets m_buffer; ret (Some (b !!! Z.to_nat n)).

Definition GetCapacity : method Vector Z := ret maxSize.
Definition GetCapacityBytes : method Vector Z := ret (size_t (maxSize * sizeof_T)).
Definition GetSize : method Vector Z := gets m_currentSize.
Definition IsEmpty : method Vector bool := gets (λ this, m_currentSize this =? 0).

(** [Append] (both overloads). *)
Definition Append (element : T) : method Vector bool :=
  c ← gets m_currentSize;
  if c <? maxSize then
    modify (set_currentSize (size_t (c + 1)));;
    modify (set_buffer (<[Z.to_nat c := element]>));;
    ret true
  else ret false.

(** [ClearInternal(std::false_type)]: [for (i = 0; i < m_currentSize; ++i)]. *)
Fixpoint ClearInternal_loop (fuel : nat) (i : Z) : method Vector unit :=
  match fuel with
  | O => ret tt
  | S fuel =>
      c ← gets m_currentSize;
      if i <? c then
        modify (set_buffer (<[Z.to_nat i := inhabitant]>));;
        ClearInternal_loop fuel (size_t (i + 1))
      else ret tt
  end.

Definition ClearInternal (trivial : bool) : method Vector unit :=
  if trivial then ret tt
  else c ← gets m_currentSize; ClearInternal_loop (Z.to_nat c) 0.

Definition Clear : method Vector unit :=
  ClearInternal trivially_destructible;;
  modify (set_currentSize 0).

(** The loop of [RemoveIndex]:
    [for (i = index; i < m_currentSize; ++i) swap(m_buffer[i], m_buffer[i + 1])]. *)
Fixpoint RemoveIndex_loop (fuel : nat) (i : Z) : method Vector unit :=
  match fuel with
  | O => ret tt
  | S fuel =>
      c ← gets m_currentSize;
      if i <? c then
        modify (set_buffer (std_swap i (size_t (i + 1))));;
        RemoveIndex_loop fuel (size_t (i + 1))
      else ret tt
  end.

Definition RemoveIndex (index : Z) : method Vector bool :=
  c ← gets m_currentSize;
  if index >=? c then ret false
  else
    modify (set_buffer (<[Z.to_nat index := inhabitant]>));;
    modify (set_currentSize (size_t (c - 1)));;
    c ← gets m_currentSize;
    RemoveIndex_loop (Z.to_nat (c - index)) index;;
    ret true.



(** [InsertRotateLeft]: [element1] and [element2] are offsets into
    [m_buffer]; [while (times--)] tests [times] and then decrements it. *)
Fixpoint InsertRotateLeft_loop (fuel : nat) (times element1 element2 : Z) :
    method Vector unit :=
  match fuel with
  | O => ret tt
  | S fuel =>
      if negb (times =? 0) then
        modify (set_buffer (std_swap element1 element2));;
        InsertRotateLeft_loop fuel (size_t (times - 1)) (element1 - 1) (element2 - 1)
      else ret tt
  end.

Definition InsertRotateLeft (times : Z) : method Vector unit :=
  c ← gets m_currentSize;
  InsertRotateLeft_loop (Z.to_nat times) times (c - 1) (c - 2).

(** [Insert] (both overloads). *)
Definition Insert (index : Z) (value : T) : method Vector bool :=
  c ← gets m_currentSize;
  let rotateCount := size_t (c - index) in
  let rotateCount := if rotateCount >? maxSize then 0 else rotateCount in
  appended ← Append value;
  if appended then InsertRotateLeft rotateCount;; ret true
  else ret false.

(** [begin()] and [end()]: pointers into [m_buffer]. *)
Definition begin : method Vector (Ptr T) := gets (λ this, mkPtr (m_buffer this) 0).
Definition end_ : method Vector (Ptr T) :=
  gets (λ this, mkPtr (m_buffer this) (m_currentSize this)).

(** The array has its [maxSize] slots and the size is within it. *)
Record wf (this : Vector) : Prop := mkWf {
  wf_buffer : length (m_buffer this) = Z.to_nat maxSize;
  wf_currentSize : 0 ≤ m_currentSize this ≤ maxSize
}.

(** The elements of the vector: the first [m_currentSize] slots. *)
Definition elements (this : Vector) : list T :=
  take (Z.to_nat (m_currentSize this)) (m_buffer this).

End Members.
End StaticVector.

(** * leakguard::StaticString

    Source: [include/leakguard/staticstring.hpp].

    [StaticString<maxSize>] as a record of its two data members; [m_buffer]
    is the [std::array<char, maxSize + 1>].  A [char] is an [ascii]; the
    value-initialised [char] and the terminator of a C string is [zero].  A
    [const char*] argument is the list of characters from the pointer on;
    the results about it are stated for lists that hold the terminator.
    The default constructor leaves [m_buffer] default-initialised: its
    initial characters are an argument of [construct]. *)

#[export] Instance ascii_inhabited : Inhabited ascii := populate zero.
#[export] Instance ascii_eq_dec : EqDecision ascii := ascii_dec.

(** The value of a [char] as an integer. *)
Definition code (c : ascii) : Z := Z.of_N (N_of_ascii c).

(** [std::isdigit] in the C locale. *)
Definition isdigit (c : ascii) : bool := (code "0" <=? code c) && (code c <=? code "9").

(** An integer type [T] of the [Of] and [ToInteger] templates: its width
    and whether it is signed. *)
Record int_type : Type := mkIntType {
  int_bits : Z;
  int_signed : bool
}.

(** Conversion of an integer result to [T] and to
    [std::make_unsigned_t<T>]: reduction modulo [2 ^ int_bits], into the
    range of the type.  Where C++ leaves the overflow of a signed [T]
    undefined the results below are for values that do not overflow. *)
Definition to_unsigned (T : int_type) (x : Z) : Z := x mod 2 ^ int_bits T.
Definition to_T (T : int_type) (x : Z) : Z :=
  if int_signed T then
    (x + 2 ^ (int_bits T - 1)) mod 2 ^ int_bits T - 2 ^ (int_bits T - 1)
  else x mod 2 ^ int_bits T.

(** The least and the greatest value of [T]. *)
Definition T_min (T : int_type) : Z :=
  if int_signed T then - 2 ^ (int_bits T - 1) else 0.
Definition T_max (T : int_type) : Z :=
  if int_signed T then 2 ^ (int_bits T - 1) - 1 else 2 ^ int_bits T - 1.

(** Width of [int], and the conversion of an integer value to [int]. *)
Definition INT_WIDTH : Z := 32.
Definition to_int (x : Z) : Z := to_T (mkIntType INT_WIDTH true) x.

(** The characters a [const char*] points to, up to the terminator. *)
Fixpoint c_str (p : list ascii) : list ascii :=
  match p with
  | [] => []
  | c :: p => if bool_decide (c = zero) then [] else c :: c_str p
  end.

(** The decimal digit [d] as a character, and the decimal digits of a
    natural number, most significant first. *)
Definition digit (d : Z) : ascii := ascii_of_N (Z.to_N (code "0" + d)).

Fixpoint decimal_digits (fuel : nat) (n : Z) : list ascii :=
  match fuel with
  | O => []
  | S fuel =>
      if n <? 10 then [digit n]
      else decimal_digits fuel (n / 10) ++ [digit (n mod 10)]
  end.

(** The decimal numeral of an integer: a minus sign for a negative one,
    then the digits of its magnitude. *)
Definition decimal (value : Z) : list ascii :=
  (if value <? 0 then ["-"%char] else [])
  ++ decimal_digits (S (Z.to_nat (Z.log2 (Z.abs value)))) (Z.abs value).

Module StaticString.

Record StaticString : Type := mkStaticString {
  m_currentSize : Z;
  m_buffer : list ascii
}.

(** The table of [Of]: the two digits of every number below 100. *)
Definition DIGITS : list ascii :=
  ["0";"0";"0";"1";"0";"2";"0";"3";"0";"4";"0";"5";"0";"6";"0";"7";"0";"8";"0";"9";
   "1";"0";"1";"1";"1";"2";"1";"3";"1";"4";"1";"5";"1";"6";"1";"7";"1";"8";"1";"9";
   "2";"0";"2";"1";"2";"2";"2";"3";"2";"4";"2";"5";"2";"6";"2";"7";"2";"8";"2";"9";
   "3";"0";"3";"1";"3";"2";"3";"3";"3";"4";"3";"5";"3";"6";"3";"7";"3";"8";"3";"9";
   "4";"0";"4";"1";"4";"2";"4";"3";"4";"4";"4";"5";"4";"6";"4";"7";"4";"8";"4";"9";
   "5";"0";"5";"1";"5";"2";"5";"3";"5";"4";"5";"5";"5";"6";"5";"7";"5";"8";"5";"9";
   "6";"0";"6";"1";"6";"2";"6";"3";"6";"4";"6";"5";"6";"6";"6";"7";"6";"8";"6";"9";
   "7";"0";"7";"1";"7";"2";"7";"3";"7";"4";"7";"5";"7";"6";"7";"7";"7";"8";"7";"9";
   "8";"0";"8";"1";"8";"2";"8";"3";"8";"4";"8";"5";"8";"6";"8";"7";"8";"8";"8";"9";
   "9";"0";"9";"1";"9";"2";"9";"3";"9";"4";"9";"5";"9";"6";"9";"7";"9";"8";"9";"9";
   zero]%char.

Definition BASE : Z := 10.
Definition BASE_2 : Z := 100.
Definition BASE_3 : Z := 1000.
Definition BASE_4 : Z := 10000.

Section Members.

(** Template parameter [maxSize]. *)
Variable maxSize : Z.

Definition set_currentSize (v : Z) (this : StaticString) : StaticString :=
  mkStaticString v (m_buffer this).
Definition set_buffer (f : list ascii → list ascii) (this : StaticString) :
    StaticString :=
  mkStaticString (m_currentSize this) (f (m_buffer this)).

(** The default constructor: [m_currentSize { 0 }], [m_buffer] as it is. *)
Definition construct (initial : list ascii) : StaticString :=
  mkStaticString 0 initial.

(** [operator=(const StaticString&)]. *)
Definition assign (other : StaticString) : method StaticString unit :=
  modify (set_buffer
            (StaticVector.std_copy (m_buffer other) 0 (m_currentSize other) 0));;
  modify (set_currentSize (m_currentSize other)).

(** The [operator=] template, for a string of another capacity. *)
Definition assign_from (other : StaticString) : method StaticString unit :=
  modify (set_currentSize (Z.min maxSize (m_currentSize other)));;
  c ← gets m_currentSize;
  modify (set_buffer (StaticVector.std_copy (m_buffer other) 0 c 0)).



(** The constructors from a string, from a C string, and from a character
    array and its length. *)
Definition construct_copy (initial : list ascii) (other : StaticString) :
    StaticString :=
  (assign other (construct initial)).2.
Definition construct_copy_from (initial : list ascii) (other : StaticString) :
    StaticString :=
  (assign_from other (construct initial)).2.

(** [operator[]]: the bound check is compiled in when [NDEBUG] is defined;
    [None] is [std::abort()]. *)
Definition index (NDEBUG : bool) (n : Z) : method StaticString (option ascii) :=
  c ← gets m_currentSize;
  if NDEBUG && (n >=? c) then ret None
  else b ← gets m_buffer; ret (Some (b !!! Z.to_nat n)).

(** [operator==] and [operator!=]. *)
Fixpoint operator_eq_loop (fuel : nat) (i : Z) (other : StaticString) :
    method StaticString bool :=
  match fuel with
  | O => ret true
  | S fuel =>
      c ← gets m_currentSize;
      if i <? c then
        b ← gets m_buffer;
        if negb (bool_decide (b !!! Z.to_nat i = m_buffer other !!! Z.to_nat i))
        then ret false
        else operator_eq_loop fuel (size_t (i + 1)) other
      else ret true
  end.

Definition operator_eq (other : StaticString) : method StaticString bool :=
  c ← gets m_currentSize;
  if negb (c =? m_currentSize other) then ret false
  else operator_eq_loop (Z.to_nat c) 0 other.

Definition operator_ne (other : StaticString) : method StaticString bool :=
  b ← operator_eq other; ret (negb b).





Definition GetCapacity : method StaticString Z := ret maxSize.
Definition GetSize : method StaticString Z := gets m_currentSize.
Definition GetLength : method StaticString Z := gets m_currentSize.
Definition IsEmpty : method StaticString bool :=
  gets (λ this, m_currentSize this =? 0).

(** [ToCStr]: [m_buffer] is [mutable]; the terminator is stored behind the
    last character and the address of the array is returned. *)
Definition ToCStr : method StaticString (list ascii) :=
  c ← gets m_currentSize;
  modify (set_buffer (<[Z.to_nat c := zero]>));;
  gets m_buffer.

(** [operator const char*]: the address of the array, nothing stored. *)
Definition operator_const_char_ptr : method StaticString (list ascii) :=
  gets m_buffer.

(** [begin()] and [end()]: pointers into [m_buffer]. *)
Definition begin : method StaticString (Ptr ascii) :=
  gets (λ this, mkPtr (m_buffer this) 0).
Definition end_ : method StaticString (Ptr ascii) :=
  gets (λ this, mkPtr (m_buffer this) (m_currentSize this)).

(** [ToInteger<T>]: the loop over the characters from [begin()] to
    [end()]; [first] is true at the first character only. *)
Fixpoint ToInteger_loop (T : int_type) (fuel : nat) (it e : Ptr ascii)
    (value : Z) (negative first : bool) : Z :=
  match fuel with
  | O => to_T T (value * (if negative then -1 else 1))
  | S fuel =>
      if negb (it_eq it e) then
        let c := deref it in
        if isdigit c then
          let value := to_T T (value * 10) in
          let value := to_T T (value + (code c - code "0")) in
          ToInteger_loop T fuel (incr it) e value negative false
        else if first && bool_decide (c = "-"%char) then
          ToInteger_loop T fuel (incr it) e value true false
        else 0
      else to_T T (value * (if negative then -1 else 1))
  end.

Definition ToInteger (T : int_type) : method StaticString Z :=
  b ← begin;
  e ← end_;
  c ← gets m_currentSize;
  ret (ToInteger_loop T (Z.to_nat c) b e 0 false true).

(** [Clear]. *)
Definition Clear : method StaticString unit := modify (set_currentSize 0).

(** [StartsWith]. *)
Fixpoint StartsWith_loop (fuel : nat) (i : Z) (other : StaticString) :
    method StaticString bool :=
  match fuel with
  | O => ret true
  | S fuel =>
      if i <? m_currentSize other then
        b ← gets m_buffer;
        if negb (bool_decide (b !!! Z.to_nat i = m_buffer other !!! Z.to_nat i))
        then ret false
        else StartsWith_loop fuel (size_t (i + 1)) other
      else ret true
  end.

Definition StartsWith (other : StaticString) : method StaticString bool :=
  c ← gets m_currentSize;
  if m_currentSize other >? c then ret false
  else StartsWith_loop (Z.to_nat (m_currentSize other)) 0 other.

(** [EndsWith]: the two counters are [int]s, initialised from [size_t]
    values, and index the arrays. *)
Fixpoint EndsWith_loop (fuel : nat) (i j : Z) (other : StaticString) :
    method StaticString bool :=
  match fuel with
  | O => ret true
  | S fuel =>
      if j >=? 0 then
        b ← gets m_buffer;
        if negb (bool_decide (b !!! Z.to_nat (size_t i)
                              = m_buffer other !!! Z.to_nat (size_t j)))
        then ret false
        else EndsWith_loop fuel (to_int (i - 1)) (to_int (j - 1)) other
      else ret true
  end.

Definition EndsWith (other : StaticString) : method StaticString bool :=
  c ← gets m_currentSize;
  if m_currentSize other >? c then ret false
  else
    let i := to_int (size_t (c - 1)) in
    let j := to_int (size_t (m_currentSize other - 1)) in
    EndsWith_loop (Z.to_nat (j + 1)) i j other.

(** [Skip]. *)
Fixpoint Skip_loop (fuel : nat) (i characters : Z) : method StaticString unit :=
  match fuel with
  | O => ret tt
  | S fuel =>
      c ← gets m_currentSize;
      if i <=? size_t (c - characters) then
        modify (set_buffer
                  (λ b, <[Z.to_nat i := b !!! Z.to_nat (size_t (i + characters))]> b));;
        Skip_loop fuel (size_t (i + 1)) characters
      else ret tt
  end.

Definition Skip (characters : Z) : method StaticString bool :=
  c ← gets m_currentSize;
  if characters >? c then ret false
  else if characters =? c then Clear;; ret true
  else
    Skip_loop (Z.to_nat (c - characters + 1)) 0 characters;;
    modify (set_currentSize (size_t (c - characters)));;
    ret true.

(** [Skip] with every access to [m_buffer] checked against the array:
    [None] where the loop reads or writes a slot the array does not have. *)
Fixpoint Skip_loop_checked (fuel : nat) (i characters : Z) (this : StaticString) :
    option StaticString :=
  match fuel with
  | O => Some this
  | S fuel =>
      if i <=? size_t (m_currentSize this - characters) then
        match m_buffer this !! Z.to_nat (size_t (i + characters)),
              m_buffer this !! Z.to_nat i with
        | Some x, Some _ =>
            Skip_loop_checked fuel (size_t (i + 1)) characters
              (set_buffer (<[Z.to_nat i := x]>) this)
        | _, _ => None
        end
      else Some this
  end.

Definition Skip_checked (characters : Z) (this : StaticString) :
    option (bool * StaticString) :=
  let c := m_currentSize this in
  if characters >? c then Some (false, this)
  else if characters =? c then Some (true, (Clear this).2)
  else
    match Skip_loop_checked (Z.to_nat (c - characters + 1)) 0 characters this with
    | Some this' => Some (true, set_currentSize (size_t (c - characters)) this')
    | None => None
    end.

(** [Truncate]. *)
Definition Truncate (length : Z) : method StaticString bool :=
  c ← gets m_currentSize;
  if length >=? c then ret false
  else modify (set_currentSize length);; ret true.

(** [Of<T>]: the first loop counts the digits of the magnitude, four at a
    time. *)
Fixpoint Of_length_loop (T : int_type) (fuel : nat) (absoluteCopy outputLength : Z) :
    Z :=
  match fuel with
  | O => outputLength
  | S fuel =>
      if absoluteCopy <? BASE then size_t (outputLength + 1)
      else if absoluteCopy <? BASE_2 then size_t (outputLength + 2)
      else if absoluteCopy <? BASE_3 then size_t (outputLength + 3)
      else if absoluteCopy <? BASE_4 then size_t (outputLength + 4)
      else
        Of_length_loop T fuel (to_unsigned T (absoluteCopy / BASE_4))
          (size_t (outputLength + 4))
  end.

(** The second loop stores the digits from the back, two at a time; it
    hands on [absolute], [bufferPosition] and the array. *)
Fixpoint Of_digits_loop (T : int_type) (fuel : nat) (absolute bufferPosition : Z)
    (buffer : list ascii) : Z * Z * list ascii :=
  match fuel with
  | O => (absolute, bufferPosition, buffer)
  | S fuel =>
      if absolute >=? BASE_2 then
        let part := to_unsigned T (absolute mod BASE_2) in
        let buffer :=
          <[Z.to_nat bufferPosition := DIGITS !!! Z.to_nat (part * 2 + 1)]> buffer in
        let bufferPosition := size_t (bufferPosition - 1) in
        let buffer :=
          <[Z.to_nat bufferPosition := DIGITS !!! Z.to_nat (part * 2)]> buffer in
        let bufferPosition := size_t (bufferPosition - 1) in
        Of_digits_loop T fuel (to_unsigned T (absolute / BASE_2)) bufferPosition buffer
      else (absolute, bufferPosition, buffer)
  end.

(** [Of<T>(value)]; [initial] is what the array of the local [result]
    holds.  [-value] for the least value of a signed [T] at least as wide
    as [int] overflows: the results below are for the other values. *)
Definition Of (T : int_type) (value : Z) (initial : list ascii) : StaticString :=
  let negative := value <? 0 in
  let absolute := to_unsigned T (if negative then - value else value) in
  let outputLength := if negative then 1 else 0 in
  let outputLength :=
    Of_length_loop T (S (Z.to_nat (int_bits T))) absolute outputLength in
  let result := construct initial in
  if outputLength <=? maxSize then
    let result := set_currentSize outputLength result in
    let bufferPosition := size_t (outputLength - 1) in
    let result :=
      if negative then set_buffer (<[0%nat := "-"%char]>) result else result in
    let '(absolute, bufferPosition, buffer) :=
      Of_digits_loop T (Z.to_nat (int_bits T)) absolute bufferPosition
        (m_buffer result) in
    if absolute >=? BASE then
      let buffer :=
        <[Z.to_nat bufferPosition := DIGITS !!! Z.to_nat (absolute * 2 + 1)]> buffer in
      let bufferPosition := size_t (bufferPosition - 1) in
      let buffer :=
        <[Z.to_nat bufferPosition := DIGITS !!! Z.to_nat (absolute * 2)]> buffer in
      mkStaticString (m_currentSize result) buffer
    else
      let buffer :=
        <[Z.to_nat bufferPosition := DIGITS !!! Z.to_nat (absolute * 2 + 1)]> buffer in
      mkStaticString (m_currentSize result) buffer
  else result.

(** The array has its [maxSize + 1] slots and the size is within
    [maxSize]. *)
Record wf (this : StaticString) : Prop := mkWf {
  wf_buffer : length (m_buffer this) = Z.to_nat (maxSize + 1);
  wf_currentSize : 0 ≤ m_currentSize this ≤ maxSize
}.

(** The characters of the string: the first [m_currentSize] slots. *)
Definition contents (this : StaticString) : list ascii :=
  take (Z.to_nat (m_currentSize this)) (m_buffer this).

End Members.


End StaticString.

(** * Properties *)

Section SizeT.

Lemma SIZE_MODULUS_pos : 0 < SIZE_MODULUS.
Proof. reflexivity. Qed.

Lemma size_t_small x : 0 ≤ x < SIZE_MODULUS → size_t x = x.
Proof. intros ?. unfold size_t. by apply Z.mod_small. Qed.

(** Reduction modulo [m] of a value below [2 * m] needs one subtraction. *)
Lemma mod_once x m :
  0 ≤ x < 2 * m → x mod m = if x <? m then x else x - m.
Proof.
  intros Hx. destruct (Z.ltb_spec x m) as [Hlt|Hge].
  - apply Z.mod_small. lia.
  - replace x with ((x - m) + 1 * m) at 1 by lia.
    rewrite Z.mod_add by lia. apply Z.mod_small. lia.
Qed.

Lemma mod_shift_ne r k m : 0 ≤ r < m → 0 < k < m → (r + k) mod m ≠ r.
Proof.
  intros Hr Hk. rewrite mod_once by lia.
  destruct (Z.ltb_spec (r + k) m); lia.
Qed.

End SizeT.

(** ** The member functions, statement by statement

    Closed forms of the state each member function leaves behind; they hold
    in every state, whatever the members contain. *)

Section Unfold.
Context {T : Type} `{!Inhabited T} {MutexImpl_t : Type} `{!MutexImpl MutexImpl_t}.
Variable size : Z.

Local Abbreviation Buffer := (CircularBuffer T MutexImpl_t).
Implicit Types (this : Buffer) (xs : list T).

Lemma Pop_empty this :
  m_currentSize this = 0 → Pop size this = (false, this).
Proof.
  intros Hc. unfold Pop, bind, IsEmpty, gets. by rewrite Hc.
Qed.

Lemma Pop_nonempty this :
  m_currentSize this ≠ 0 →
  Pop size this =
    (true,
     mkCircularBuffer (m_buffer this)
       (if size_t (m_readPtr this + 1) >? size then 0
        else size_t (m_readPtr this + 1))
       (m_writePtr this) (size_t (m_currentSize this - 1))
       (Unlock (Lock (m_mutexImpl this)))).
Proof.
  intros Hc. unfold Pop, bind, IsEmpty, gets.
  destruct (Z.eqb_spec (m_currentSize this) 0) as [|_]; [done|].
  reflexivity.
Qed.

Lemma PeekAndPop_empty this out :
  m_currentSize this = 0 → PeekAndPop size out this = (false, out, this).
Proof.
  intros Hc. unfold PeekAndPop, bind, IsEmpty, gets. by rewrite Hc.
Qed.

Lemma PeekAndPop_nonempty this out :
  m_currentSize this ≠ 0 →
  PeekAndPop size out this =
    (true, (Peek this).1, (Pop size this).2).
Proof.
  intros Hc. rewrite Pop_nonempty by done.
  unfold PeekAndPop, Pop, bind, IsEmpty, Peek, gets.
  destruct (Z.eqb_spec (m_currentSize this) 0) as [|_]; [done|]. cbn.
  destruct (Z.eqb_spec (m_currentSize this) 0) as [|_]; [done|].
  reflexivity.
Qed.

Lemma PopMany_unfold this count :
  PopMany size count this =
    let count := if count >? m_currentSize this then m_currentSize this else count in
    let newReadPtr := size_t (m_readPtr this + count) in
    (count,
     mkCircularBuffer (m_buffer this)
       (if newReadPtr >? size then size_t (newReadPtr - size) else newReadPtr)
       (m_writePtr this) (size_t (m_currentSize this - count))
       (Unlock (Lock (m_mutexImpl this)))).
Proof.
  unfold PopMany, bind, GetCurrentSize, gets. cbn.
  by destruct (count >? m_currentSize this).
Qed.

Lemma Clear_unfold this :
  Clear this =
    (tt, mkCircularBuffer (m_buffer this) (m_writePtr this) (m_writePtr this) 0
           (Unlock (Lock (m_mutexImpl this)))).
Proof. reflexivity. Qed.

Lemma PushMany_loop_S {It} `{!InputIt It T} fuel (b e : It) cs p this :
  PushMany_loop size (S fuel) b e cs p this =
    if negb (it_eq b e) && (cs <? size) then
      PushMany_loop size fuel (incr b) e (size_t (cs + 1)) (size_t (p + 1))
        (push_slot size (deref b) this)
    else (p, this).
Proof.
  cbn [PushMany_loop]. destruct (negb (it_eq b e) && (cs <? size)); [|done].
  unfold bind, gets, modify, push_slot. cbn.
  by destruct (size_t (m_writePtr this + 1) >? size).
Qed.

Lemma PushMany_unfold {It} `{!InputIt It T} (b e : It) this :
  PushMany size b e this =
    let r := PushMany_loop size (Z.to_nat (size - m_currentSize this)) b e
               (m_currentSize this) 0 this in
    (r.1, commit_pushed r.1 r.2).
Proof.
  unfold PushMany, bind, gets, commit_pushed. cbn.
  destruct (PushMany_loop _ _ _ _ _ _ _) as [pushed this']. cbn.
  by destruct (pushed >? 0).
Qed.

Lemma bounded_b_spec this : bounded_b size this = true ↔ bounded size this.
Proof.
  unfold bounded_b. rewrite !andb_true_iff, Nat.eqb_eq, !Z.leb_le.
  split; [intros; constructor; lia|intros []; lia].
Qed.

Lemma invariant_b_spec this : invariant_b size this = true ↔ invariant size this.
Proof.
  unfold invariant_b, invariant, cursors_agree.
  by rewrite andb_true_iff, bounded_b_spec, Z.eqb_eq.
Qed.

End Unfold.

(** ** The loop of [PushMany] *)

Section Loop.
Context {T : Type} `{!Inhabited T} {MutexImpl_t : Type} `{!MutexImpl MutexImpl_t}.
Variable size : Z.

Local Abbreviation Buffer := (CircularBuffer T MutexImpl_t).
Implicit Types (this : Buffer) (xs : list T).

Lemma it_range_nil_inv {It} `{!InputIt It T} (b e : It) :
  it_range e b [] → it_eq b e = true.
Proof. by inversion 1. Qed.

Lemma it_range_cons_inv {It} `{!InputIt It T} (b e : It) x xs :
  it_range e b (x :: xs) →
  it_eq b e = false ∧ deref b = x ∧ it_range e (incr b) xs.
Proof. by inversion 1. Qed.

(** The loop sees its iterators only through the elements they yield. *)
Lemma PushMany_loop_range {It1 It2} `{!InputIt It1 T} `{!InputIt It2 T}
    (b1 e1 : It1) (b2 e2 : It2) xs fuel cs p this :
  it_range e1 b1 xs → it_range e2 b2 xs →
  PushMany_loop size fuel b1 e1 cs p this = PushMany_loop size fuel b2 e2 cs p this.
Proof.
  revert b1 b2 xs cs p this.
  induction fuel as [|fuel IH]; intros b1 b2 xs cs p this H1 H2; [done|].
  rewrite !PushMany_loop_S. destruct xs as [|x xs].
  - apply it_range_nil_inv in H1, H2. by rewrite H1, H2.
  - apply it_range_cons_inv in H1 as (-> & -> & H1).
    apply it_range_cons_inv in H2 as (-> & -> & H2).
    destruct (cs <? size); cbn; [|done]. by apply (IH _ _ xs).
Qed.

Lemma it_range_cons_eq {It} `{!InputIt It T} (b e : It) x xs :
  it_eq b e = false → deref b = x → it_range e (incr b) xs →
  it_range e b (x :: xs).
Proof. intros ? <- ?. by constructor. Qed.

Lemma seq_range xs : it_range (seq_end xs) (seq_begin xs) xs.
Proof.
  unfold seq_begin, seq_end. induction xs as [|x xs IH].
  - by constructor.
  - by apply it_range_cons_eq.
Qed.

Lemma address_range (value : T) :
  it_range (ptr_add (address_of value) 1) (address_of value) [value].
Proof. apply it_range_cons_eq; [done..|]. by apply it_range_nil. Qed.

Hypothesis size_fits : size < SIZE_MODULUS.

(** The fuel [PushMany] passes never cuts the loop short: with any larger
    amount the loop returns the same count and state, whatever the
    iterators are. *)
Lemma PushMany_loop_fuel_enough {It} `{!InputIt It T} (b e : It) fuel cs p this :
  0 ≤ cs → (Z.to_nat (size - cs) ≤ fuel)%nat →
  PushMany_loop size fuel b e cs p this
  = PushMany_loop size (Z.to_nat (size - cs)) b e cs p this.
Proof.
  revert b cs p this. induction fuel as [|fuel IH]; intros b cs p this Hcs Hfuel.
  - by replace (Z.to_nat (size - cs)) with O by lia.
  - rewrite PushMany_loop_S. destruct (Z.ltb_spec cs size) as [Hlt|Hge].
    + replace (Z.to_nat (size - cs)) with (S (Z.to_nat (size - (cs + 1)))) by lia.
      rewrite PushMany_loop_S.
      replace (cs <? size) with true by (symmetry; by apply Z.ltb_lt).
      destruct (negb (it_eq b e)); cbn [andb]; [|done].
      rewrite !size_t_small by lia. apply IH; lia.
    + replace (Z.to_nat (size - cs)) with O by lia.
      by rewrite andb_false_r.
Qed.

(** With at least [size - currentSize] rounds of fuel the loop stops on
    its own guard, after storing the first [taken size xs cs] elements. *)
Lemma PushMany_loop_fuel {It} `{!InputIt It T} (b e : It) xs fuel cs p this :
  it_range e b xs → 0 ≤ p ≤ cs →
  (Z.to_nat (size - cs) ≤ fuel)%nat →
  PushMany_loop size fuel b e cs p this =
    (p + Z.of_nat (taken size xs cs), push_slots size (take (taken size xs cs) xs) this).
Proof.
  unfold taken. intros Hr. revert b xs cs p this Hr.
  induction fuel as [|fuel IH]; intros b xs cs p this Hr Hp Hfuel.
  - replace (Z.to_nat (size - cs)) with O by lia.
    rewrite Nat.min_0_r, Z.add_0_r. done.
  - rewrite PushMany_loop_S. destruct Hr as [b Hb|b xs Hb Hr].
    + rewrite Hb. cbn. by rewrite Z.add_0_r.
    + rewrite Hb. cbn [negb andb]. destruct (Z.ltb_spec cs size) as [Hlt|Hge].
      * rewrite !size_t_small by lia.
        rewrite (IH _ xs) by (done || lia).
        replace (Z.to_nat (size - cs)) with (S (Z.to_nat (size - (cs + 1)))) by lia.
        cbn [length Nat.min take push_slots]. f_equal. lia.
      * replace (Z.to_nat (size - cs)) with O by lia.
        rewrite Nat.min_0_r, Z.add_0_r. done.
Qed.

Lemma PushMany_range {It} `{!InputIt It T} (b e : It) xs this :
  it_range e b xs → 0 ≤ m_currentSize this →
  PushMany size b e this =
    (Z.of_nat (taken size xs (m_currentSize this)),
     commit_pushed (Z.of_nat (taken size xs (m_currentSize this)))
       (push_slots size (take (taken size xs (m_currentSize this)) xs) this)).
Proof.
  intros Hr Hc. rewrite PushMany_unfold.
  rewrite (PushMany_loop_fuel b e xs) by (done || lia). done.
Qed.

End Loop.

(** ** Cursors and slots *)

Section Slots.
Context {T : Type} `{!Inhabited T} {MutexImpl_t : Type} `{!MutexImpl MutexImpl_t}.
Variable size : Z.
Hypothesis size_pos : 0 < size.
Hypothesis size_fits : 2 * size < SIZE_MODULUS.

Local Abbreviation Buffer := (CircularBuffer T MutexImpl_t).
Implicit Types (this : Buffer) (xs : list T) (buffer : list T).

Lemma next_slot_range r : 0 ≤ r ≤ size → 0 ≤ next_slot size r ≤ size.
Proof. intros ?. unfold next_slot. destruct (Z.gtb_spec (r + 1) size); lia. Qed.

Lemma next_slot_mod r :
  0 ≤ r ≤ size → next_slot size r = (r + 1) mod (size + 1).
Proof.
  intros ?. unfold next_slot. rewrite mod_once by lia.
  destruct (Z.gtb_spec (r + 1) size), (Z.ltb_spec (r + 1) (size + 1)); lia.
Qed.

(** Stepping a cursor that is [n] slots ahead of [r] leaves it [n + 1]
    slots ahead. *)
Lemma next_slot_ahead r n :
  0 ≤ r ≤ size → 0 ≤ n →
  next_slot size ((r + n) mod (size + 1)) = (r + (n + 1)) mod (size + 1).
Proof.
  intros Hr Hn. rewrite next_slot_mod by (pose proof (Z.mod_pos_bound (r + n) (size + 1)); lia).
  rewrite Zplus_mod_idemp_l. f_equal. lia.
Qed.

Lemma slots_from_length buffer r n : length (slots_from size buffer r n) = n.
Proof. revert r. induction n as [|n IH]; intros r; cbn; [done|]. by rewrite IH. Qed.

(** A store into the slot [n] ahead of [r] appends to the [n] slots read
    from [r] on, and changes none of them. *)
Lemma slots_from_insert_end buffer r (n : nat) x :
  length buffer = Z.to_nat (size + 1) → 0 ≤ r ≤ size → Z.of_nat n ≤ size →
  slots_from size (<[Z.to_nat ((r + Z.of_nat n) mod (size + 1)) := x]> buffer) r (S n)
  = slots_from size buffer r n ++ [x].
Proof.
  intros Hlen. revert r. induction n as [|n IH]; intros r Hr Hn.
  - cbn. rewrite Z.add_0_r, Z.mod_small by lia.
    rewrite list_lookup_total_insert_eq by lia. done.
  - cbn [slots_from app]. f_equal.
    + apply list_lookup_total_insert_ne.
      pose proof (mod_shift_ne r (Z.of_nat (S n)) (size + 1)).
      pose proof (Z.mod_pos_bound (r + Z.of_nat (S n)) (size + 1)). lia.
    + replace ((r + Z.of_nat (S n)) mod (size + 1))
        with ((next_slot size r + Z.of_nat n) mod (size + 1)).
      * apply IH; [by apply next_slot_range|lia].
      * rewrite next_slot_mod, Zplus_mod_idemp_l by done. f_equal. lia.
Qed.

Lemma push_slot_buffer this x :
  m_buffer (push_slot size x this) = <[Z.to_nat (m_writePtr this) := x]> (m_buffer this).
Proof. done. Qed.

Lemma push_slot_writePtr this x :
  0 ≤ m_writePtr this ≤ size →
  m_writePtr (push_slot size x this) = next_slot size (m_writePtr this).
Proof. intros ?. unfold push_slot, next_slot. cbn. by rewrite size_t_small by lia. Qed.

Lemma push_slots_frame this xs :
  m_readPtr (push_slots size xs this) = m_readPtr this
  ∧ m_currentSize (push_slots size xs this) = m_currentSize this
  ∧ m_mutexImpl (push_slots size xs this) = m_mutexImpl this
  ∧ length (m_buffer (push_slots size xs this)) = length (m_buffer this).
Proof.
  revert this. induction xs as [|x xs IH]; intros this; [done|].
  cbn [push_slots]. destruct (IH (push_slot size x this)) as (-> & -> & -> & ->).
  rewrite push_slot_buffer, length_insert. done.
Qed.

(** Storing [xs] through a write cursor [n] slots ahead of [r]: the cursor
    ends [n + length xs] slots ahead, and the slots read from [r] on are
    the [n] from before followed by [xs]. *)
Lemma push_slots_ahead this xs r (n : nat) :
  length (m_buffer this) = Z.to_nat (size + 1) → 0 ≤ r ≤ size →
  Z.of_nat (n + length xs) ≤ size →
  m_writePtr this = (r + Z.of_nat n) mod (size + 1) →
  m_writePtr (push_slots size xs this) = (r + Z.of_nat (n + length xs)) mod (size + 1)
  ∧ slots_from size (m_buffer (push_slots size xs this)) r (n + length xs)
    = slots_from size (m_buffer this) r n ++ xs.
Proof.
  revert this n. induction xs as [|x xs IH]; intros this n Hlen Hr Hn Hw.
  - cbn. rewrite Nat.add_0_r, app_nil_r. done.
  - cbn [push_slots length] in *.
    assert (0 ≤ m_writePtr this ≤ size) as Hwr.
    { rewrite Hw. pose proof (Z.mod_pos_bound (r + Z.of_nat n) (size + 1)). lia. }
    destruct (IH (push_slot size x this) (S n)) as [IHw IHs].
    + rewrite push_slot_buffer, length_insert. done.
    + done.
    + lia.
    + rewrite push_slot_writePtr, Hw, next_slot_ahead by (done || lia).
      f_equal. lia.
    + replace (n + S (length xs))%nat with (S n + length xs)%nat by lia.
      split; [done|]. rewrite IHs, push_slot_buffer, Hw.
      rewrite slots_from_insert_end by (done || lia).
      by rewrite <- app_assoc.
Qed.

End Slots.

(** ** Each member function against the invariant and the contents *)

Section Invariant.
Context {T : Type} `{!Inhabited T} {MutexImpl_t : Type} `{!MutexImpl MutexImpl_t}.
Variable size : Z.
Hypothesis size_pos : 0 < size.
Hypothesis size_fits : 2 * size < SIZE_MODULUS.

Local Abbreviation Buffer := (CircularBuffer T MutexImpl_t).
Implicit Types (this : Buffer) (xs : list T).

Lemma contents_length this :
  length (contents size this) = Z.to_nat (m_currentSize this).
Proof. apply slots_from_length. Qed.

(** *** The constructor *)

Lemma construct_invariant (mutexImpl : MutexImpl_t) :
  invariant size (construct size mutexImpl : Buffer).
Proof.
  split; [constructor; cbn; rewrite ?length_replicate; lia|].
  unfold cursors_agree. cbn. by rewrite Z.mod_0_l by lia.
Qed.

Lemma construct_contents (mutexImpl : MutexImpl_t) :
  contents size (construct size mutexImpl : Buffer) = [].
Proof. done. Qed.

(** *** [PushMany] *)

Lemma push_slots_writePtr_range this xs :
  0 ≤ m_writePtr this ≤ size → 0 ≤ m_writePtr (push_slots size xs this) ≤ size.
Proof.
  revert this. induction xs as [|x xs IH]; intros this Hw; [done|].
  cbn [push_slots]. apply IH. rewrite push_slot_writePtr by done.
  by apply next_slot_range.
Qed.

Lemma taken_le xs c : 0 ≤ c ≤ size → c + Z.of_nat (taken size xs c) ≤ size.
Proof. unfold taken. lia. Qed.

Lemma take_taken xs c :
  take (taken size xs c) xs = take (Z.to_nat (size - c)) xs.
Proof.
  unfold taken. destruct (Nat.min_spec (length xs) (Z.to_nat (size - c))) as [[? ->]|[? ->]].
  - by rewrite !take_ge by lia.
  - done.
Qed.

Lemma commit_pushed_currentSize this k :
  0 ≤ k → 0 ≤ m_currentSize this → m_currentSize this + k < SIZE_MODULUS →
  m_currentSize (commit_pushed k this) = m_currentSize this + k.
Proof.
  intros. unfold commit_pushed. destruct (Z.gtb_spec k 0); cbn.
  - apply size_t_small. lia.
  - lia.
Qed.

Lemma commit_pushed_frame this k :
  m_buffer (commit_pushed k this) = m_buffer this
  ∧ m_readPtr (commit_pushed k this) = m_readPtr this
  ∧ m_writePtr (commit_pushed k this) = m_writePtr this.
Proof. unfold commit_pushed. by destruct (k >? 0). Qed.

(** The state after storing [ys] and committing the count, when [ys]
    fits. *)
Lemma push_commit this ys :
  bounded size this → m_currentSize this + Z.of_nat (length ys) ≤ size →
  let this' := commit_pushed (Z.of_nat (length ys)) (push_slots size ys this) in
  bounded size this'
  ∧ m_readPtr this' = m_readPtr this
  ∧ m_currentSize this' = m_currentSize this + Z.of_nat (length ys)
  ∧ (cursors_agree size this →
     cursors_agree size this' ∧ contents size this' = contents size this ++ ys).
Proof.
  intros [Hlen Hrd Hwr Hc] Hfit this'.
  destruct (push_slots_frame size this ys) as (Hr' & Hc' & _ & Hl').
  destruct (commit_pushed_frame (push_slots size ys this) (Z.of_nat (length ys)))
    as (Hb'' & Hr'' & Hw'').
  assert (m_currentSize this' = m_currentSize this + Z.of_nat (length ys)) as Hc''.
  { unfold this'. rewrite commit_pushed_currentSize; rewrite ?Hc'; lia. }
  split; [|split; [|split]].
  - constructor.
    + unfold this'. by rewrite Hb'', Hl'.
    + unfold this'. by rewrite Hr'', Hr'.
    + unfold this'. rewrite Hw''. by apply push_slots_writePtr_range.
    + lia.
  - unfold this'. by rewrite Hr'', Hr'.
  - done.
  - unfold cursors_agree, contents. intros Hagree.
    destruct (push_slots_ahead size size_pos size_fits this ys (m_readPtr this)
                (Z.to_nat (m_currentSize this))) as [Hw Hs].
    { done. } { done. } { lia. } { by rewrite Z2Nat.id by lia. }
    rewrite Hc''. unfold this'. rewrite Hw'', Hr'', Hb'', Hr', Hw.
    split; [f_equal; lia|]. rewrite <- Hs. f_equal. lia.
Qed.

Lemma taken_fits this xs :
  bounded size this →
  m_currentSize this
  + Z.of_nat (length (take (taken size xs (m_currentSize this)) xs)) ≤ size
  ∧ length (take (taken size xs (m_currentSize this)) xs)
    = taken size xs (m_currentSize this).
Proof.
  intros [_ _ _ Hc]. pose proof (taken_le xs _ Hc).
  rewrite length_take. unfold taken in *. lia.
Qed.

Lemma PushMany_bounded {It} `{!InputIt It T} (b e : It) xs this :
  it_range e b xs → bounded size this → bounded size (PushMany size b e this).2.
Proof.
  intros Hr Hb. destruct (taken_fits this xs Hb) as [Hfit Hlen].
  rewrite (PushMany_range size) with (xs := xs); [|lia|done|apply Hb].
  cbn [snd]. rewrite <- Hlen at 1. by apply push_commit.
Qed.

(** [PushMany] on a range yielding [xs] reports the number of elements
    that fit, keeps the invariant, and appends exactly that prefix of [xs]
    to the contents. *)
Lemma PushMany_contents {It} `{!InputIt It T} (b e : It) xs this :
  it_range e b xs → invariant size this →
  (PushMany size b e this).1 = Z.of_nat (taken size xs (m_currentSize this))
  ∧ invariant size (PushMany size b e this).2
  ∧ contents size (PushMany size b e this).2
    = contents size this ++ take (taken size xs (m_currentSize this)) xs.
Proof.
  intros Hr [Hb Hagree]. destruct (taken_fits this xs Hb) as [Hfit Hlen].
  rewrite (PushMany_range size) with (xs := xs); [|lia|done|apply Hb].
  cbn [fst snd]. split; [done|]. rewrite <- Hlen at 1 3.
  destruct (push_commit this _ Hb Hfit) as (? & _ & _ & Hc).
  destruct (Hc Hagree) as [? ?]. split; [by split|done].
Qed.

(** *** [Pop], [Peek] and [PeekAndPop] *)

(** On a non-empty buffer [Pop] steps the read cursor to the next slot and
    takes one off the count. *)
Lemma Pop_bounded_nonempty this :
  bounded size this → m_currentSize this ≠ 0 →
  Pop size this =
    (true,
     mkCircularBuffer (m_buffer this) (next_slot size (m_readPtr this))
       (m_writePtr this) (m_currentSize this - 1)
       (Unlock (Lock (m_mutexImpl this)))).
Proof.
  intros [Hlen Hrd Hwr Hc] Hne. rewrite Pop_nonempty by done.
  rewrite !size_t_small by lia. done.
Qed.

Lemma Pop_bounded this : bounded size this → bounded size (Pop size this).2.
Proof.
  intros Hb. destruct (decide (m_currentSize this = 0)) as [He|Hne].
  - by rewrite Pop_empty.
  - rewrite Pop_bounded_nonempty by done. destruct Hb as [Hlen Hrd Hwr Hc].
    constructor; cbn; [done|by apply next_slot_range|done|lia].
Qed.

Lemma Pop_cursors_agree this :
  invariant size this → cursors_agree size (Pop size this).2.
Proof.
  intros [Hb Hagree]. destruct (decide (m_currentSize this = 0)) as [He|Hne].
  - by rewrite Pop_empty.
  - rewrite Pop_bounded_nonempty by done. destruct Hb as [Hlen Hrd Hwr Hc].
    unfold cursors_agree in *. cbn. rewrite Hagree.
    rewrite next_slot_mod, Zplus_mod_idemp_l by done. f_equal. lia.
Qed.

Lemma Pop_invariant this : invariant size this → invariant size (Pop size this).2.
Proof. intros Hi. split; [apply Pop_bounded, Hi|by apply Pop_cursors_agree]. Qed.

(** [Pop] removes the oldest element, the one [Peek] returns. *)
Lemma Pop_contents this :
  bounded size this → m_currentSize this ≠ 0 →
  contents size this = (Peek this).1 :: contents size (Pop size this).2.
Proof.
  intros Hb Hne. rewrite Pop_bounded_nonempty by done.
  destruct Hb as [Hlen Hrd Hwr Hc]. unfold contents, Peek, gets. cbn.
  replace (Z.to_nat (m_currentSize this))
    with (S (Z.to_nat (m_currentSize this - 1))) by lia.
  done.
Qed.

Lemma contents_empty this : m_currentSize this = 0 → contents size this = [].
Proof. intros He. unfold contents. by rewrite He. Qed.

Lemma contents_nonempty this :
  bounded size this → m_currentSize this ≠ 0 → contents size this ≠ [].
Proof. intros Hb Hne. by rewrite Pop_contents. Qed.

(** *** [Clear] *)

Lemma Clear_invariant this : bounded size this → invariant size (Clear this).2.
Proof.
  intros [Hlen Hrd Hwr Hc]. rewrite Clear_unfold. split.
  - constructor; cbn; (done || lia).
  - unfold cursors_agree. cbn. rewrite Z.add_0_r, Z.mod_small; lia.
Qed.

Lemma Clear_contents this : contents size (Clear this).2 = [].
Proof. done. Qed.

(** *** [PopMany] *)

(** [PopMany] in a state within bounds, for a [size_t] argument: the
    clamped count is returned and taken off the count; the read cursor
    moves on by it, less [size] when that leaves the last slot behind. *)
Lemma PopMany_bounded_unfold this count :
  bounded size this → 0 ≤ count →
  PopMany size count this =
    let n := Z.min count (m_currentSize this) in
    (n,
     mkCircularBuffer (m_buffer this)
       (if m_readPtr this + n >? size then m_readPtr this + n - size
        else m_readPtr this + n)
       (m_writePtr this) (m_currentSize this - n)
       (Unlock (Lock (m_mutexImpl this)))).
Proof.
  intros [Hlen Hrd Hwr Hc] Hcount. rewrite PopMany_unfold. cbn zeta.
  replace (if count >? m_currentSize this then m_currentSize this else count)
    with (Z.min count (m_currentSize this))
    by (destruct (Z.gtb_spec count (m_currentSize this)); lia).
  rewrite (size_t_small (m_readPtr this + _)) by lia.
  rewrite (size_t_small (m_currentSize this - _)) by lia.
  destruct (Z.gtb_spec (m_readPtr this + Z.min count (m_currentSize this)) size);
    [|done].
  by rewrite size_t_small by lia.
Qed.

Lemma PopMany_bounded this count :
  bounded size this → 0 ≤ count → bounded size (PopMany size count this).2.
Proof.
  intros Hb Hcount. rewrite PopMany_bounded_unfold by done.
  destruct Hb as [Hlen Hrd Hwr Hc]. constructor; cbn; [done| |done|lia].
  destruct (Z.gtb_spec (m_readPtr this + Z.min count (m_currentSize this)) size); lia.
Qed.

(** *** Popping in full *)

Lemma drain_S n out this :
  drain size (S n) out this =
    if decide (m_currentSize this = 0) then ([], this)
    else
      let r := drain size n (Peek this).1 (Pop size this).2 in
      ((Peek this).1 :: r.1, r.2).
Proof.
  cbn [drain]. unfold bind at 1. destruct (decide _) as [He|Hne].
  - by rewrite PeekAndPop_empty.
  - rewrite PeekAndPop_nonempty by done. cbn. unfold bind.
    by destruct (drain size n _ _).
Qed.

(** [PeekAndPop], called until it fails, hands out the contents, oldest
    first, and leaves the buffer empty. *)
Lemma drain_contents n out this :
  bounded size this → (Z.to_nat (m_currentSize this) ≤ n)%nat →
  (drain size n out this).1 = contents size this
  ∧ m_currentSize (drain size n out this).2 = 0
  ∧ bounded size (drain size n out this).2.
Proof.
  revert out this. induction n as [|n IH]; intros out this Hb Hn.
  - pose proof (bounded_currentSize _ _ Hb).
    assert (m_currentSize this = 0) as He by lia.
    cbn. by rewrite contents_empty.
  - rewrite drain_S. destruct (decide _) as [He|Hne].
    + cbn. by rewrite contents_empty.
    + cbn zeta. cbn [fst snd]. rewrite (Pop_contents this) by done.
      destruct (IH (Peek this).1 (Pop size this).2) as (-> & ? & ?).
      * by apply Pop_bounded.
      * rewrite Pop_bounded_nonempty by done. cbn.
        pose proof (bounded_currentSize _ _ Hb). lia.
      * done.
Qed.

(** *** Single calls *)

Lemma bind_ret {S A B} (m : method S A) (f : A → B) (this : S) :
  bind m (λ a, ret (f a)) this = (f (m this).1, (m this).2).
Proof. unfold bind, ret. by destruct (m this). Qed.

Lemma PushOne_unfold this value :
  PushOne size value this =
    let r := PushMany size (address_of value) (ptr_add (address_of value) 1) this in
    (r.1 >? 0, r.2).
Proof. unfold PushOne. by rewrite bind_ret. Qed.

Lemma exec_state c this :
  (exec size c this).2 =
    match c with
    | CallPushMany xs => (PushMany size (seq_begin xs) (seq_end xs) this).2
    | CallPushOne value =>
        (PushMany size (address_of value) (ptr_add (address_of value) 1) this).2
    | CallPop => (Pop size this).2
    | CallPopMany count => (PopMany size (Z.of_N count) this).2
    | CallPeekAndPop out => (PeekAndPop size out this).2
    | CallClear => (Clear this).2
    | CallGetCurrentSize | CallIsEmpty => this
    end.
Proof.
  destruct c; cbn [exec]; rewrite ?bind_ret; try done.
  by rewrite PushOne_unfold.
Qed.

Lemma PeekAndPop_state this out :
  (PeekAndPop size out this).2 = (Pop size this).2.
Proof.
  destruct (decide (m_currentSize this = 0)).
  - by rewrite PeekAndPop_empty, Pop_empty.
  - by rewrite PeekAndPop_nonempty.
Qed.

(** Every call keeps the members within their bounds. *)
Lemma exec_bounded c this :
  bounded size this → bounded size (exec size c this).2.
Proof.
  intros Hb. rewrite exec_state. destruct c.
  - apply (PushMany_bounded _ _ xs); [apply seq_range|done].
  - apply (PushMany_bounded _ _ [value]); [apply address_range|done].
  - by apply Pop_bounded.
  - apply PopMany_bounded; [done|lia].
  - rewrite PeekAndPop_state. by apply Pop_bounded.
  - by apply Clear_invariant.
  - done.
  - done.
Qed.

(** Every call but [PopMany] keeps the invariant. *)
Lemma exec_invariant c this :
  no_PopMany c = true → invariant size this → invariant size (exec size c this).2.
Proof.
  intros Hc Hi. rewrite exec_state. destruct c; try done.
  - apply (PushMany_contents _ _ xs); [apply seq_range|done].
  - apply (PushMany_contents _ _ [value]); [apply address_range|done].
  - by apply Pop_invariant.
  - rewrite PeekAndPop_state. by apply Pop_invariant.
  - apply Clear_invariant, Hi.
Qed.

(** *** The buffer against the bounded queue *)

Lemma accepted_taken this xs :
  bounded size this →
  Queue.accepted size (contents size this) xs
  = take (taken size xs (m_currentSize this)) xs.
Proof.
  intros Hb. pose proof (bounded_currentSize _ _ Hb).
  unfold Queue.accepted. rewrite contents_length, take_taken, Z2Nat.id by lia. done.
Qed.

(** A call other than [PopMany], made in a state that satisfies the
    invariant, returns what the queue returns on the contents, and leaves
    the contents the queue leaves. *)
Lemma exec_refines c this :
  no_PopMany c = true → invariant size this →
  (exec size c this).1 = (Queue.step size c (contents size this)).1
  ∧ contents size (exec size c this).2 = (Queue.step size c (contents size this)).2.
Proof.
  intros Hc Hi. pose proof Hi as [Hb Hagree].
  pose proof (bounded_currentSize _ _ Hb) as Hcs.
  destruct c as [xs|value| |count|out| | |]; [| | |done| |done| |];
    cbn [exec Queue.step fst snd].
  - rewrite bind_ret. cbn [fst snd].
    destruct (PushMany_contents (seq_begin xs) (seq_end xs) xs this) as (-> & _ & ->);
      [apply seq_range|done|].
    rewrite accepted_taken by done.
    destruct (taken_fits this xs Hb) as [_ ->]. done.
  - rewrite bind_ret, PushOne_unfold. cbn [fst snd].
    destruct (PushMany_contents (address_of value) (ptr_add (address_of value) 1)
                [value] this) as (-> & _ & ->); [apply address_range|done|].
    rewrite accepted_taken by done. split; [|done].
    unfold taken. cbn [length].
    by destruct (Z.to_nat (size - m_currentSize this)) as [|n].
  - rewrite bind_ret. cbn [fst snd].
    destruct (decide (m_currentSize this = 0)) as [He|Hne].
    + rewrite Pop_empty by done. cbn [fst snd]. by rewrite contents_empty.
    + rewrite (Pop_contents this) by done.
      rewrite Pop_bounded_nonempty by done. done.
  - rewrite bind_ret. cbn [fst snd].
    destruct (decide (m_currentSize this = 0)) as [He|Hne].
    + rewrite PeekAndPop_empty by done. cbn [fst snd]. by rewrite contents_empty.
    + rewrite (Pop_contents this) by done.
      rewrite PeekAndPop_nonempty by done. done.
  - rewrite bind_ret. cbn. rewrite contents_length. split; [f_equal; lia|done].
  - rewrite bind_ret. cbn. split; [|done]. f_equal.
    destruct (Z.eqb_spec (m_currentSize this) 0) as [He|Hne].
    + by rewrite contents_empty.
    + rewrite bool_decide_eq_false_2; [done|]. by apply contents_nonempty.
Qed.

Lemma run_cons c cs this :
  run size (c :: cs) this =
    ((exec size c this).1 :: (run size cs (exec size c this).2).1,
     (run size cs (exec size c this).2).2).
Proof.
  cbn [run]. unfold bind, ret. destruct (exec size c this) as [r this'].
  cbn [fst snd]. by destruct (run size cs this').
Qed.

Lemma steps_cons c cs (q : list T) :
  Queue.steps size (c :: cs) q =
    ((Queue.step size c q).1 :: (Queue.steps size cs (Queue.step size c q).2).1,
     (Queue.steps size cs (Queue.step size c q).2).2).
Proof.
  cbn [Queue.steps]. destruct (Queue.step size c q) as [r q'].
  cbn [fst snd]. by destruct (Queue.steps size cs q').
Qed.

Lemma run_bounded cs this : bounded size this → bounded size (run size cs this).2.
Proof.
  revert this. induction cs as [|c cs IH]; intros this Hb; [done|].
  rewrite run_cons. cbn [snd]. by apply IH, exec_bounded.
Qed.

(** A sequence of calls without [PopMany], started in a state that
    satisfies the invariant, is a run of the bounded queue on the
    contents: same results, same contents at the end. *)
Lemma run_refines cs this :
  forallb no_PopMany cs = true → invariant size this →
  (run size cs this).1 = (Queue.steps size cs (contents size this)).1
  ∧ contents size (run size cs this).2 = (Queue.steps size cs (contents size this)).2
  ∧ invariant size (run size cs this).2.
Proof.
  revert this. induction cs as [|c cs IH]; intros this Hcs Hi; [done|].
  cbn [forallb] in Hcs. apply andb_true_iff in Hcs as [Hc Hcs].
  rewrite run_cons, steps_cons. cbn [fst snd].
  destruct (exec_refines c this Hc Hi) as [<- <-].
  destruct (IH (exec size c this).2 Hcs) as (-> & -> & ?); [by apply exec_invariant|].
  done.
Qed.

(** *** [begin], [end] and [ConstIterator] *)

Lemma ConstIterator_incr_next (buffer : list T) r :
  incr (mkConstIterator buffer r 0 (size + 1))
  = mkConstIterator buffer (next_slot size r) 0 (size + 1).
Proof.
  cbn. unfold ConstIterator_incr, next_slot. cbn. f_equal.
  destruct (Z.geb_spec (r + 1) (size + 1)), (Z.gtb_spec (r + 1) size); lia.
Qed.

(** An iterator at slot [r] reaches the one [n] slots ahead after [n]
    increments, and yields the [n] slots read from [r] on. *)
Lemma ConstIterator_range (buffer : list T) r (n : nat) :
  0 ≤ r ≤ size → Z.of_nat n ≤ size →
  it_range (mkConstIterator buffer ((r + Z.of_nat n) mod (size + 1)) 0 (size + 1))
    (mkConstIterator buffer r 0 (size + 1)) (slots_from size buffer r n).
Proof.
  revert r. induction n as [|n IH]; intros r Hr Hn.
  - apply it_range_nil. cbn. rewrite Z.add_0_r, Z.mod_small by lia.
    apply Z.eqb_refl.
  - cbn [slots_from]. apply it_range_cons_eq.
    + cbn [it_eq ConstIterator_InputIt m_current]. apply Z.eqb_neq.
      pose proof (mod_shift_ne r (Z.of_nat (S n)) (size + 1)). lia.
    + done.
    + rewrite ConstIterator_incr_next.
      replace ((r + Z.of_nat (S n)) mod (size + 1))
        with ((next_slot size r + Z.of_nat n) mod (size + 1)).
      * apply IH; [by apply next_slot_range|lia].
      * rewrite next_slot_mod, Zplus_mod_idemp_l by done. f_equal. lia.
Qed.

(** Under the invariant the range from [begin()] to [end()] yields the
    contents. *)
Lemma begin_end_contents this :
  invariant size this →
  it_range (end_ size this).1 (begin size this).1 (contents size this).
Proof.
  intros [[Hlen Hrd Hwr Hc] Hagree]. unfold end_, begin, gets, make_ConstIterator, contents.
  cbn. rewrite Hagree. rewrite <- (Z2Nat.id (m_currentSize this)) at 1 by lia.
  apply ConstIterator_range; lia.
Qed.

(** Within bounds the range from [begin()] to [end()] is finite: [end()]
    is reached after at most [size] increments. *)
Lemma begin_end_range this :
  bounded size this →
  ∃ xs, it_range (end_ size this).1 (begin size this).1 xs.
Proof.
  intros [Hlen Hrd Hwr Hc].
  pose proof (Z.mod_pos_bound (m_writePtr this - m_readPtr this) (size + 1)) as Hm.
  exists (slots_from size (m_buffer this) (m_readPtr this)
            (Z.to_nat ((m_writePtr this - m_readPtr this) mod (size + 1)))).
  unfold end_, begin, gets, make_ConstIterator. cbn.
  replace (m_writePtr this) with
    ((m_readPtr this
      + Z.of_nat (Z.to_nat ((m_writePtr this - m_readPtr this) mod (size + 1))))
     mod (size + 1)) at 1.
  - apply ConstIterator_range; lia.
  - rewrite Z2Nat.id, Zplus_mod_idemp_r by lia.
    replace (m_readPtr this + (m_writePtr this - m_readPtr this))
      with (m_writePtr this) by lia.
    apply Z.mod_small. lia.
Qed.

End Invariant.

(** ** [MoveTo] *)

Section MoveToProperties.
Context {T : Type} `{!Inhabited T}.
Context {MutexImpl_t : Type} `{!MutexImpl MutexImpl_t}.
Context {MutexImpl_t2 : Type} `{!MutexImpl MutexImpl_t2}.
Variables size size2 : Z.
Hypothesis size_pos : 0 < size.
Hypothesis size_fits : 2 * size < SIZE_MODULUS.
Hypothesis size2_pos : 0 < size2.
Hypothesis size2_fits : 2 * size2 < SIZE_MODULUS.

Implicit Types (this : CircularBuffer T MutexImpl_t).
Implicit Types (target : CircularBuffer T MutexImpl_t2).

Lemma MoveTo_unfold this target :
  MoveTo size size2 target this =
    let pushed := PushMany size2 (begin size this).1 (end_ size this).1 target in
    let popped := PopMany size pushed.1 this in
    (popped.1, pushed.2, popped.2).
Proof.
  unfold MoveTo, bind, ret, begin, end_, gets. cbn [fst snd].
  match goal with
  | |- context [PushMany size2 ?b ?e target] =>
      destruct (PushMany size2 b e target) as [count target']
  end.
  cbn [fst snd]. by destruct (PopMany size count this).
Qed.

Lemma MoveTo_bounded this target :
  bounded size this → bounded size2 target →
  bounded size (MoveTo size size2 target this).2
  ∧ bounded size2 (MoveTo size size2 target this).1.2.
Proof.
  intros Hb Hb2. rewrite MoveTo_unfold. cbn [fst snd].
  assert (∃ xs, it_range (end_ size this).1 (begin size this).1 xs) as [xs Hxs]
    by (by apply begin_end_range).
  split.
  - apply PopMany_bounded; [done..|].
    rewrite (PushMany_range size2) with (xs := xs); [cbn; lia|lia|done|apply Hb2].
  - by apply (PushMany_bounded size2) with (xs := xs).
Qed.

(** Between two buffers that satisfy the invariant, [MoveTo] moves as
    many of the oldest elements of the source as the target has room
    for. *)
Lemma MoveTo_contents this target :
  invariant size this → invariant size2 target →
  let n := taken size2 (contents size this) (m_currentSize target) in
  (MoveTo size size2 target this).1.1 = Z.of_nat n
  ∧ invariant size2 (MoveTo size size2 target this).1.2
  ∧ contents size2 (MoveTo size size2 target this).1.2
    = contents size2 target ++ take n (contents size this)
  ∧ m_currentSize (MoveTo size size2 target this).2
    = m_currentSize this - Z.of_nat n.
Proof.
  intros Hi Hi2 n. rewrite MoveTo_unfold. cbn [fst snd].
  pose proof Hi as [Hb _]. pose proof (bounded_currentSize _ _ Hb) as Hc.
  assert (it_range (end_ size this).1 (begin size this).1 (contents size this))
    as Hrange by (by apply begin_end_contents).
  destruct (PushMany_contents size2 size2_pos size2_fits _ _ _ target Hrange Hi2)
    as (Hn & Hi' & Hc').
  fold n in Hn, Hc'. rewrite Hn.
  assert (Z.of_nat n ≤ m_currentSize this) as Hle.
  { unfold n, taken. rewrite contents_length. lia. }
  rewrite PopMany_bounded_unfold by (done || lia). cbn [fst snd m_currentSize].
  rewrite Z.min_l by lia. done.
Qed.

(** In the words of the move-conservation property: a source holding [m]
    elements and an empty target, both satisfying the invariant. *)
Lemma MoveTo_conservation this target :
  invariant size this → invariant size2 target →
  (IsEmpty target).1 = true →
  let m := (GetCurrentSize this).1 in
  let moved := MoveTo size size2 target this in
  moved.1.1 = Z.min m size2
  ∧ (GetCurrentSize moved.2).1 + (GetCurrentSize moved.1.2).1 = m
  ∧ contents size2 moved.1.2 = take (Z.to_nat (Z.min m size2)) (contents size this).
Proof.
  intros Hi Hi2 He m moved.
  unfold IsEmpty, gets in He. cbn [fst] in He. apply Z.eqb_eq in He.
  destruct (MoveTo_contents this target Hi Hi2) as (Hn & Hi' & Hc' & Hm).
  fold moved in Hn, Hi', Hc', Hm. destruct Hi as [[_ _ _ Hc] _].
  assert (Z.of_nat (taken size2 (contents size this) (m_currentSize target))
          = Z.min m size2) as Hk.
  { unfold taken, m, GetCurrentSize, gets. cbn [fst].
    rewrite contents_length, He. lia. }
  rewrite Hk in Hn, Hm. rewrite (contents_empty size2 target He) in Hc'.
  cbn [app] in Hc'. rewrite <- Hk, Nat2Z.id.
  unfold GetCurrentSize, gets in *. cbn [fst] in *.
  split; [by rewrite Hn, Hk|]. split; [|done].
  assert (m_currentSize moved.1.2 = Z.of_nat (length (contents size2 moved.1.2)))
    as -> by (rewrite contents_length; destruct Hi' as [[_ _ _ ?] _]; lia).
  rewrite Hm, Hc', length_take, (contents_length size this). lia.
Qed.

End MoveToProperties.

(** ** What the member functions leave untouched *)

Section Frame.
Context {T : Type} `{!Inhabited T} {MutexImpl_t : Type} `{!MutexImpl MutexImpl_t}.
Variable size : Z.
Variable sizeof_T : Z.

Local Abbreviation Buffer := (CircularBuffer T MutexImpl_t).
Implicit Types (this : Buffer) (xs : list T).

Lemma PushMany_loop_readPtr {It} `{!InputIt It T} fuel (b e : It) cs p this :
  m_readPtr (PushMany_loop size fuel b e cs p this).2 = m_readPtr this.
Proof.
  revert b cs p this. induction fuel as [|fuel IH]; intros b cs p this; [done|].
  rewrite PushMany_loop_S. destruct (negb (it_eq b e) && (cs <? size)); [|done].
  by rewrite IH.
Qed.

Lemma PushMany_readPtr {It} `{!InputIt It T} (b e : It) this :
  m_readPtr (PushMany size b e this).2 = m_readPtr this.
Proof.
  rewrite PushMany_unfold. cbn [snd]. unfold commit_pushed.
  destruct (_ >? 0); cbn; apply PushMany_loop_readPtr.
Qed.

(** The count [PushMany] reports for a one-element range. *)
Lemma PushMany_single value this :
  (PushMany size (seq_begin [value]) (seq_end [value]) this).1
  = if m_currentSize this <? size then 1 else 0.
Proof.
  rewrite PushMany_unfold. cbn [fst].
  destruct (Z.ltb_spec (m_currentSize this) size) as [Hlt|Hge].
  - replace (Z.to_nat (size - m_currentSize this))
      with (S (Z.to_nat (size - m_currentSize this - 1))) by lia.
    rewrite PushMany_loop_S.
    replace (m_currentSize this <? size) with true by (symmetry; by apply Z.ltb_lt).
    cbn [seq_begin seq_end it_eq SeqIt_InputIt seq_rest length Nat.eqb negb andb].
    destruct (Z.to_nat _) as [|fuel]; [done|].
    rewrite PushMany_loop_S. done.
  - by replace (Z.to_nat (size - m_currentSize this)) with O by lia.
Qed.

Lemma PushOne_as_PushMany value this :
  PushOne size value this =
    let r := PushMany size (seq_begin [value]) (seq_end [value]) this in
    (r.1 >? 0, r.2).
Proof.
  unfold PushOne. rewrite bind_ret. cbn zeta.
  rewrite !PushMany_unfold.
  rewrite (PushMany_loop_range size (address_of value) (ptr_add (address_of value) 1)
             (seq_begin [value]) (seq_end [value]) [value])
    by (apply address_range || apply seq_range).
  done.
Qed.

End Frame.

(** ** Reachable states *)

Section Reachable.
Context {T : Type} `{!Inhabited T} {MutexImpl_t : Type} `{!MutexImpl MutexImpl_t}.

Implicit Types (this : CircularBuffer T MutexImpl_t).

(** Only instantiations with a positive capacity that [size_t] can hold
    twice over are constructed. *)
Lemma reachable_size size this :
  reachable size this → 0 < size ∧ 2 * size < SIZE_MODULUS.
Proof. induction 1; auto. Qed.

(** Every reachable state is within bounds. *)
Lemma reachable_bounded size this : reachable size this → bounded size this.
Proof.
  induction 1 as [size m Hpos Hfits|size c this Hr IH
                 |size size2 this target Hr IH Hr2 IH2
                 |size size2 this target Hr IH Hr2 IH2].
  - by apply construct_invariant.
  - destruct (reachable_size _ _ Hr). by apply exec_bounded.
  - destruct (reachable_size _ _ Hr), (reachable_size _ _ Hr2).
    by apply MoveTo_bounded.
  - destruct (reachable_size _ _ Hr), (reachable_size _ _ Hr2).
    by apply MoveTo_bounded.
Qed.

Lemma reachable_run size cs this :
  reachable size this → reachable size (run size cs this).2.
Proof.
  revert this. induction cs as [|c cs IH]; intros this Hr; [done|].
  destruct (reachable_size _ _ Hr). rewrite run_cons by done. cbn [snd].
  by apply IH, reachable_exec.
Qed.

End Reachable.

(** ** Elements in, elements out *)

Section Flow.
Context {T : Type} `{!Inhabited T} {MutexImpl_t : Type} `{!MutexImpl MutexImpl_t}.
Variable size : Z.
Hypothesis size_pos : 0 < size.
Hypothesis size_fits : 2 * size < SIZE_MODULUS.

Local Abbreviation Buffer := (CircularBuffer T MutexImpl_t).
Implicit Types (this : Buffer) (xs : list T).

(** One call: what the buffer held plus what it accepted is what it handed
    out followed by what it holds now. *)
Lemma exec_flow c this :
  is_push_or_pop c = true → invariant size this →
  contents size this ++ accepted_by size c this
  = popped_by size c this ++ contents size (exec size c this).2.
Proof.
  intros Hc Hi. pose proof Hi as [Hb _]. rewrite exec_state.
  destruct c as [xs|value| |count|out| | |]; try done;
    cbn [accepted_by popped_by app]; rewrite ?app_nil_r; try done.
  - destruct (PushMany_contents size size_pos size_fits _ _ xs this (seq_range xs) Hi)
      as (-> & _ & ->).
    by rewrite Nat2Z.id.
  - rewrite PushOne_unfold. cbn [fst snd].
    destruct (PushMany_contents size size_pos size_fits _ _ [value] this
                (address_range value) Hi) as (-> & _ & ->).
    unfold taken. cbn [length].
    by destruct (Z.to_nat (size - m_currentSize this)) as [|n].
  - destruct (decide (m_currentSize this = 0)) as [He|Hne].
    + rewrite Pop_empty by done. cbn [fst snd app]. done.
    + rewrite (Pop_contents size size_pos size_fits this Hb Hne) at 1.
      by rewrite Pop_nonempty.
  - destruct (decide (m_currentSize this = 0)) as [He|Hne].
    + rewrite PeekAndPop_empty by done. cbn [fst snd app]. done.
    + rewrite (Pop_contents size size_pos size_fits this Hb Hne) at 1.
      by rewrite PeekAndPop_nonempty.
Qed.

Lemma is_push_or_pop_no_PopMany (c : call (T:=T)) :
  is_push_or_pop c = true → no_PopMany c = true.
Proof. by destruct c. Qed.

(** A sequence of such calls: nothing accepted is lost or reordered. *)
Lemma run_flow cs this :
  forallb is_push_or_pop cs = true → invariant size this →
  contents size this ++ accepted size cs this
  = popped size cs this ++ contents size (run size cs this).2
  ∧ invariant size (run size cs this).2.
Proof.
  revert this. induction cs as [|c cs IH]; intros this Hcs Hi.
  - cbn. by rewrite app_nil_r.
  - cbn [forallb] in Hcs. apply andb_true_iff in Hcs as [Hc Hcs].
    rewrite run_cons. cbn [accepted popped snd].
    destruct (IH (exec size c this).2 Hcs) as [IHc IHi].
    { apply exec_invariant; [done..| |done]. by apply is_push_or_pop_no_PopMany. }
    split; [|done].
    rewrite app_assoc, (exec_flow c this Hc Hi), <- !app_assoc. by rewrite IHc.
Qed.

Lemma is_push_push_or_pop (c : call (T:=T)) :
  is_push c = true → is_push_or_pop c = true.
Proof. by destruct c. Qed.

(** Pushes that fit are accepted whole. *)
Lemma exec_push_fits c this :
  is_push c = true → bounded size this →
  m_currentSize this + Z.of_nat (length (offered c)) ≤ size →
  accepted_by size c this = offered c
  ∧ popped_by size c this = []
  ∧ m_currentSize (exec size c this).2
    = m_currentSize this + Z.of_nat (length (offered c)).
Proof.
  intros Hc Hb Hfit. pose proof (bounded_currentSize _ _ Hb) as Hcs.
  rewrite exec_state.
  destruct c as [xs|value| |count|out| | |]; try done;
    cbn [accepted_by popped_by offered length] in *.
  - rewrite (PushMany_range size) with (xs := xs) by (apply seq_range || lia).
    cbn [fst snd].
    assert (taken size xs (m_currentSize this) = length xs) as -> by (unfold taken; lia).
    rewrite Nat2Z.id, take_ge by done. split; [done|split; [done|]].
    destruct (push_slots_frame size this xs) as (_ & Hc' & _).
    rewrite commit_pushed_currentSize; rewrite ?Hc'; lia.
  - rewrite PushOne_unfold. cbn [fst snd].
    rewrite (PushMany_range size) with (xs := [value]) by (apply address_range || lia).
    cbn [fst snd].
    assert (taken size [value] (m_currentSize this) = 1%nat) as ->
      by (unfold taken; cbn [length]; lia).
    split; [done|split; [done|]].
    cbn [take push_slots]. rewrite commit_pushed_currentSize; cbn; lia.
Qed.

Lemma run_pushes_fit cs this :
  forallb is_push cs = true → bounded size this →
  m_currentSize this + Z.of_nat (length (flat_map offered cs)) ≤ size →
  accepted size cs this = flat_map offered cs ∧ popped size cs this = [].
Proof.
  revert this. induction cs as [|c cs IH]; intros this Hcs Hb Hfit; [done|].
  cbn [forallb] in Hcs. apply andb_true_iff in Hcs as [Hc Hcs].
  cbn [flat_map accepted popped] in *. rewrite length_app in Hfit.
  destruct (exec_push_fits c this Hc Hb) as (-> & -> & Hcount); [lia|].
  destruct (IH (exec size c this).2 Hcs) as [-> ->];
    [by apply exec_bounded|lia|done].
Qed.

End Flow.

(** ** [Clear] against a fresh buffer, and where [PopMany] goes wrong *)

Section ClearAndPopMany.
Context {T : Type} `{!Inhabited T} {MutexImpl_t : Type} `{!MutexImpl MutexImpl_t}.
Variable size : Z.
Hypothesis size_pos : 0 < size.
Hypothesis size_fits : 2 * size < SIZE_MODULUS.

Implicit Types (this : CircularBuffer T MutexImpl_t).


(** [PopMany] in a state within bounds, when the read cursor passes the
    last slot: the new cursor is one slot past the clamped count modulo
    [size + 1]. *)
Lemma PopMany_wrapped this count :
  bounded size this → 0 ≤ count →
  m_readPtr this + Z.min count (m_currentSize this) > size →
  m_readPtr (PopMany size count this).2
  = (m_readPtr this + Z.min count (m_currentSize this)) mod (size + 1) + 1.
Proof.
  intros Hb Hcount Hwrap. rewrite PopMany_bounded_unfold by done.
  destruct Hb as [Hlen Hrd Hwr Hc]. cbn. rewrite mod_once by lia.
  destruct (Z.gtb_spec (m_readPtr this + Z.min count (m_currentSize this)) size),
    (Z.ltb_spec (m_readPtr this + Z.min count (m_currentSize this)) (size + 1)); lia.
Qed.

Lemma slots_from_drop (buffer : list T) r (n k : nat) :
  0 ≤ r → r + Z.of_nat n ≤ size →
  drop n (slots_from size buffer r (n + k))
  = slots_from size buffer (r + Z.of_nat n) k.
Proof.
  revert r. induction n as [|n IH]; intros r Hr Hn.
  - cbn. by rewrite Z.add_0_r.
  - cbn [Nat.add slots_from drop].
    replace (next_slot size r) with (r + 1)
      by (unfold next_slot; destruct (Z.gtb_spec (r + 1) size); lia).
    rewrite IH by lia. f_equal. lia.
Qed.

(** When the read cursor stays within the array, [PopMany] advances it by
    the clamped count modulo [size + 1], keeps the invariant and removes
    that many of the oldest elements. *)
Lemma PopMany_unwrapped this count :
  invariant size this → 0 ≤ count →
  m_readPtr this + Z.min count (m_currentSize this) ≤ size →
  m_readPtr (PopMany size count this).2
  = (m_readPtr this + Z.min count (m_currentSize this)) mod (size + 1)
  ∧ invariant size (PopMany size count this).2
  ∧ contents size (PopMany size count this).2
    = drop (Z.to_nat (Z.min count (m_currentSize this))) (contents size this).
Proof.
  intros [Hb Hagree] Hcount Hfit.
  assert (bounded size (PopMany size count this).2) as Hb'
    by (by apply PopMany_bounded).
  revert Hb'. rewrite PopMany_bounded_unfold by done.
  destruct Hb as [Hlen Hrd Hwr Hc]. cbn. intros Hb'.
  destruct (Z.gtb_spec (m_readPtr this + Z.min count (m_currentSize this)) size);
    [lia|].
  split; [by rewrite Z.mod_small by lia|]. split.
  - split; [done|]. unfold cursors_agree in *. cbn. rewrite Hagree. f_equal. lia.
  - unfold contents. cbn.
    set (n := Z.min count (m_currentSize this)) in *.
    replace (Z.to_nat (m_currentSize this))
      with (Z.to_nat n + Z.to_nat (m_currentSize this - n))%nat by lia.
    replace (m_readPtr this + n) with (m_readPtr this + Z.of_nat (Z.to_nat n)) by lia.
    symmetry. apply slots_from_drop; lia.
Qed.

End ClearAndPopMany.

(** * The claims *)

Section Claims.
Context {T : Type} `{!Inhabited T} {MutexImpl_t : Type} `{!MutexImpl MutexImpl_t}.

Local Abbreviation Buffer := (CircularBuffer T MutexImpl_t).
Implicit Types (this : Buffer) (xs : list T).

(** C8. On an empty buffer [Pop()] returns [false] and leaves the whole
    object unchanged (count, both cursors, the storage, and the mutex, which
    is not even locked), and [PeekAndPop(out)] returns [false], leaves the
    object unchanged and leaves the caller's [out] as it was. *)
Theorem empty_pop_safety size this out :
  (IsEmpty this).1 = true →
  Pop size this = (false, this)
  ∧ PeekAndPop size out this = (false, out, this).
Proof.
  unfold IsEmpty, gets. cbn [fst]. intros He%Z.eqb_eq.
  split; [by apply Pop_empty|by apply PeekAndPop_empty].
Qed.

(** C9. In every state [PushOne(v)] leaves the state that [PushMany] on
    the one-element sequence [[v]] leaves, and returns [true] exactly when
    that [PushMany] returns 1, which is exactly when the count was below the
    capacity. *)
Theorem PushOne_is_PushMany_of_one size this value :
  let many := PushMany size (seq_begin [value]) (seq_end [value]) this in
  (PushOne size value this).2 = many.2
  ∧ ((PushOne size value this).1 = true ↔ many.1 = 1)
  ∧ ((PushOne size value this).1 = true
     ↔ (GetCurrentSize this).1 < (GetCapacity size this).1).
Proof.
  cbn zeta. rewrite PushOne_as_PushMany. cbn [fst snd].
  rewrite PushMany_single. unfold GetCurrentSize, GetCapacity, gets, ret. cbn [fst].
  split; [done|].
  destruct (Z.ltb_spec (m_currentSize this) size); cbn; split; split; (done || lia).
Qed.

(** C10. In every state: [PushMany] (on any iterators) and [PushOne] leave
    [m_readPtr] as it was; [Pop] and [PopMany] leave [m_writePtr] as it
    was; [Peek], [GetCapacity], [GetCapacityBytes], [GetCurrentSize],
    [IsEmpty], [begin] and [end] leave every member as it was. *)
Theorem frame_conditions {It} `{!InputIt It T} size sizeof_T this
    (b e : It) value count :
  m_readPtr (PushMany size b e this).2 = m_readPtr this
  ∧ m_readPtr (PushOne size value this).2 = m_readPtr this
  ∧ m_writePtr (Pop size this).2 = m_writePtr this
  ∧ m_writePtr (PopMany size count this).2 = m_writePtr this
  ∧ (Peek this).2 = this
  ∧ (GetCapacity size this).2 = this
  ∧ (GetCapacityBytes size sizeof_T this).2 = this
  ∧ (GetCurrentSize this).2 = this
  ∧ (IsEmpty this).2 = this
  ∧ (begin size this).2 = this
  ∧ (end_ size this).2 = this.
Proof.
  repeat split.
  - apply PushMany_readPtr.
  - rewrite PushOne_as_PushMany. apply PushMany_readPtr.
  - destruct (decide (m_currentSize this = 0)).
    + by rewrite Pop_empty.
    + by rewrite Pop_nonempty.
  - by rewrite PopMany_unfold.
Qed.

(** C4. Pushing [capacity + k] elements, [k > 0], with one [PushMany] into
    an empty buffer: [capacity] are accepted and [k] rejected; the count
    becomes [capacity]; the state is the one left by pushing the first
    [capacity] elements alone, and the [capacity] slots from the old write
    cursor on hold those elements in order (none was overwritten by the
    excess).  And in every reachable state [GetCurrentSize()] is at most
    [GetCapacity()]. *)
Theorem capacity_ceiling size this (other : Buffer) xs (k : nat) :
  reachable size this → (IsEmpty this).1 = true →
  (0 < k)%nat → length xs = (Z.to_nat size + k)%nat →
  reachable size other →
  let r := PushMany size (seq_begin xs) (seq_end xs) this in
  let first := take (Z.to_nat size) xs in
  r.1 = (GetCapacity size this).1
  ∧ Z.of_nat (length xs) - r.1 = Z.of_nat k
  ∧ (GetCurrentSize r.2).1 = (GetCapacity size this).1
  ∧ r.2 = (PushMany size (seq_begin first) (seq_end first) this).2
  ∧ slots_from size (m_buffer r.2) (m_writePtr this) (Z.to_nat size) = first
  ∧ (GetCurrentSize other).1 ≤ (GetCapacity size other).1.
Proof.
  intros Hr He Hk Hlen Hother r first.
  destruct (reachable_size _ _ Hr) as [Hpos Hfits].
  pose proof (reachable_bounded _ _ Hr) as Hb.
  pose proof Hb as [Hbl Hbr Hbw Hbc].
  unfold IsEmpty, gets in He. cbn [fst] in He. apply Z.eqb_eq in He.
  unfold GetCurrentSize, GetCapacity, gets, ret. cbn [fst].
  assert (taken size xs (m_currentSize this) = Z.to_nat size) as Htk
    by (unfold taken; rewrite He; lia).
  assert (taken size first (m_currentSize this) = Z.to_nat size) as Htk'
    by (unfold taken, first; rewrite length_take, He; lia).
  assert (take (Z.to_nat size) first = first) as Hfirst
    by (unfold first; rewrite take_take; f_equal; lia).
  assert (length first = Z.to_nat size) as Hlf
    by (unfold first; rewrite length_take; lia).
  unfold r. rewrite !(PushMany_range size) with (xs := xs)
    by (apply seq_range || lia).
  rewrite (PushMany_range size) with (xs := first) by (apply seq_range || lia).
  rewrite Htk, Htk', Hfirst. cbn [fst snd]. fold first.
  destruct (push_slots_frame size this first) as (Hr' & Hc' & _ & Hl').
  destruct (commit_pushed_frame (push_slots size first this) (Z.of_nat (Z.to_nat size)))
    as (Hb'' & _ & _).
  repeat split.
  - lia.
  - lia.
  - rewrite commit_pushed_currentSize; rewrite ?Hc'; lia.
  - rewrite Hb''.
    destruct (push_slots_ahead size Hpos Hfits this first (m_writePtr this) O)
      as [_ Hs]; [done|done|lia|by rewrite Z.add_0_r, Z.mod_small by lia|].
    cbn [Nat.add slots_from app] in Hs. by rewrite Hlf in Hs.
  - destruct (reachable_bounded _ _ Hother) as [_ _ _ ?]. lia.
Qed.

(** C1. Values pushed into a freshly constructed buffer with [PushMany]
    and [PushOne] calls, no more of them than the capacity, are all
    accepted; popping in full with [PeekAndPop] then hands them out in the
    order they were pushed, and leaves the buffer empty. *)
Theorem fifo_order size (mutexImpl : MutexImpl_t) cs out (n : nat) :
  0 < size → 2 * size < SIZE_MODULUS →
  forallb is_push cs = true →
  Z.of_nat (length (flat_map offered cs)) ≤ size →
  (length (flat_map offered cs) ≤ n)%nat →
  let fresh : Buffer := construct size mutexImpl in
  let filled := (run size cs fresh).2 in
  accepted size cs fresh = flat_map offered cs
  ∧ (drain size n out filled).1 = flat_map offered cs
  ∧ (IsEmpty (drain size n out filled).2).1 = true.
Proof.
  intros Hpos Hfits Hcs Hfit Hn fresh filled.
  assert (invariant size fresh) as Hi by (by apply construct_invariant).
  assert (accepted size cs fresh = flat_map offered cs ∧ popped size cs fresh = [])
    as [Hacc Hpop] by (apply run_pushes_fit; [done..|apply Hi|cbn; lia]).
  assert (forallb is_push_or_pop cs = true) as Hcs'.
  { apply forallb_forall. intros c Hc. apply is_push_push_or_pop.
    by apply (proj1 (forallb_forall _ _) Hcs). }
  assert (contents size fresh ++ accepted size cs fresh
          = popped size cs fresh ++ contents size filled
          ∧ invariant size filled) as [Hflow Hi'] by (by apply run_flow).
  rewrite Hacc, Hpop in Hflow. cbn in Hflow.
  assert ((drain size n out filled).1 = contents size filled
          ∧ m_currentSize (drain size n out filled).2 = 0
          ∧ bounded size (drain size n out filled).2) as (Hd & He & _).
  { apply drain_contents; [done..|apply Hi'|].
    rewrite <- (contents_length size filled), <- Hflow. done. }
  split; [done|]. split; [by rewrite Hd|].
  unfold IsEmpty, gets. cbn [fst]. by rewrite He.
Qed.

(** Without [PopMany], what C7 says holds.  Over every sequence of pushes
    ([PushMany], [PushOne]) and pops ([Pop], [PeekAndPop]) on a freshly
    constructed buffer, however often the cursors wrap: the accepted values
    are, in order, the popped values followed by the values the buffer still
    holds; popping the rest in full hands out exactly those.  So the values
    popped are the values accepted, in the order they were pushed, and none
    is overwritten or lost. *)
Theorem wraparound_fifo size (mutexImpl : MutexImpl_t) cs out (n : nat) :
  0 < size → 2 * size < SIZE_MODULUS →
  forallb is_push_or_pop cs = true →
  (Z.to_nat size ≤ n)%nat →
  let fresh : Buffer := construct size mutexImpl in
  let this := (run size cs fresh).2 in
  accepted size cs fresh = popped size cs fresh ++ contents size this
  ∧ accepted size cs fresh = popped size cs fresh ++ (drain size n out this).1.
Proof.
  intros Hpos Hfits Hcs Hn fresh this.
  assert (invariant size fresh) as Hi by (by apply construct_invariant).
  assert (contents size fresh ++ accepted size cs fresh
          = popped size cs fresh ++ contents size this
          ∧ invariant size this) as [Hflow Hi'] by (by apply run_flow).
  cbn [app] in Hflow. change (contents size fresh) with (@nil T) in Hflow.
  assert ((drain size n out this).1 = contents size this
          ∧ m_currentSize (drain size n out this).2 = 0
          ∧ bounded size (drain size n out this).2) as (Hd & _ & _).
  { apply drain_contents; [done..|apply Hi'|].
    destruct Hi' as [[_ _ _ ?] _]. lia. }
  by rewrite Hd.
Qed.

End Claims.

(** * The claims on concrete buffers *)

Section Concrete.
Import Example.

(** C2 (the code departs from it). [PopMany(3)] on the full buffer
    [wrapped4] (capacity 4, read cursor 3, holding 4, 5, 6, 7): it returns 3
    and takes 3 off the count, but leaves the read cursor at [3 + 3 - 4 = 2]
    where [(3 + 3) mod 5 = 1]; the element left is then read from the stale
    slot 2 (value 3), not the remaining element 7. *)
Theorem PopMany_wrap_departs :
  let this := wrapped4 in
  let after := (PopMany 4 3 this).2 in
  reachable 4 this
  ∧ invariant_b 4 this = true
  ∧ (m_readPtr this, m_currentSize this) = (3, 4)
  ∧ contents 4 this = [4; 5; 6; 7]%nat
  ∧ (PopMany 4 3 this).1 = 3
  ∧ m_currentSize after = 1
  ∧ m_readPtr after = 2
  ∧ (m_readPtr this + 3) mod (4 + 1) = 1
  ∧ contents 4 after = [3]%nat
  ∧ drop 3 (contents 4 this) = [7]%nat.
Proof.
  split; [|by vm_compute].
  apply reachable_run. by constructor.
Qed.

(** C3 (the code departs from it). [wrapped4] is reachable and satisfies
    the invariant; after [PopMany(3)] the write cursor is not
    [(readCursor + count) mod 5] any more.  [MoveTo] ends in [PopMany] and
    breaks the invariant of its source the same way. *)
Theorem PopMany_breaks_invariant :
  let source := (run 1 [CallPushOne 10; CallPop; CallPushOne 20] (fresh 1)).2%nat in
  reachable 4 wrapped4
  ∧ invariant 4 wrapped4
  ∧ ¬ invariant 4 (PopMany 4 3 wrapped4).2
  ∧ reachable 1 source
  ∧ invariant 1 source
  ∧ ¬ invariant 1 (MoveTo 1 1 (fresh 1) source).2.
Proof.
  intros source.
  split; [apply reachable_run; by constructor|].
  split; [apply invariant_b_spec; by vm_compute|].
  split; [intros Hi%invariant_b_spec; by vm_compute in Hi|].
  split; [apply reachable_run; by constructor|].
  split; [apply invariant_b_spec; by vm_compute|].
  intros Hi%invariant_b_spec. by vm_compute in Hi.
Qed.

(** C5 (the code departs from it). [moved1] is reachable and holds one
    element ([GetCurrentSize() = 1]); an earlier [MoveTo] left its read
    cursor on its write cursor.  [MoveTo] into an empty buffer of capacity 1
    then returns 0, not [min 1 1], and the target stays empty. *)
Theorem MoveTo_moves_nothing :
  let moved := MoveTo 1 1 (fresh 1) moved1 in
  reachable 1 moved1
  ∧ reachable 1 (fresh 1)
  ∧ (GetCurrentSize moved1).1 = 1
  ∧ (IsEmpty (fresh 1)).1 = true
  ∧ moved.1.1 = 0
  ∧ Z.min 1 1 = 1
  ∧ (GetCurrentSize moved.1.2).1 = 0
  ∧ (GetCurrentSize moved.2).1 = 1.
Proof.
  assert (reachable 1 (fresh 1)) as Hfresh by (by constructor).
  split; [|split; [done|by vm_compute]].
  apply reachable_exec, reachable_MoveTo_source; [|done].
  by apply reachable_run.
Qed.

(** C6 (the code departs from it). [cleared1] is empty after [Clear()].
    The calls [PushOne(7); PopMany(1); PushOne(8); PeekAndPop(out)] return
    the same values on it and on a fresh buffer of capacity 1, but
    [PeekAndPop] hands out 7 on the cleared buffer and 8 on the fresh
    one. *)
Theorem Clear_then_PopMany_departs :
  let cs := [CallPushOne 7; CallPopMany 1; CallPushOne 8; CallPeekAndPop 0]%nat in
  reachable 1 cleared1
  ∧ (IsEmpty cleared1).1 = true
  ∧ (run 1 cs cleared1).1
    = [RetBool true; RetCount 1; RetBool true; RetOut true 7%nat]
  ∧ (run 1 cs (fresh 1)).1
    = [RetBool true; RetCount 1; RetBool true; RetOut true 8%nat].
Proof.
  split; [|by vm_compute].
  apply reachable_run. by constructor.
Qed.

(** C7 (the code departs from it). Pushes and pops on a fresh buffer of
    capacity 4: seventeen values are pushed and accepted, thirteen are
    popped by [Pop] and [PeekAndPop], both cursors pass the last slot twice,
    and the buffer holds 14, 15, 16, 17 from slot 3 on and satisfies the
    invariant.  [PopMany(3)] then returns 3 and leaves a count of one, the
    element left being 17; but it leaves the read cursor at [3 + 3 - 4 = 2],
    so the [PeekAndPop] that follows hands out 13, which was popped before,
    and empties the buffer: 13 is popped twice and 17 is never handed
    out. *)
Theorem wraparound_with_PopMany_departs :
  let cs := [CallPushMany [1; 2; 3; 4]; CallPop; CallPop; CallPop; CallPop;
             CallPushMany [5; 6; 7; 8]; CallPeekAndPop 0; CallPop; CallPop;
             CallPop; CallPushMany [9; 10; 11; 12]; CallPop; CallPop;
             CallPushMany [13; 14]; CallPop; CallPop; CallPop;
             CallPushMany [15; 16; 17]]%nat in
  let before := (run 4 cs (fresh 4)).2 in
  let after := (exec 4 (CallPopMany 3) before).2 in
  let all := cs ++ [CallPopMany 3; CallPeekAndPop 0%nat] in
  reachable 4 before
  ∧ invariant_b 4 before = true
  ∧ accepted 4 cs (fresh 4)
    = [1; 2; 3; 4; 5; 6; 7; 8; 9; 10; 11; 12; 13; 14; 15; 16; 17]%nat
  ∧ popped 4 cs (fresh 4) = [1; 2; 3; 4; 5; 6; 7; 8; 9; 10; 11; 12; 13]%nat
  ∧ contents 4 before = [14; 15; 16; 17]%nat
  ∧ (m_readPtr before, m_writePtr before) = (3, 2)
  ∧ (exec 4 (CallPopMany 3) before).1 = RetCount 3
  ∧ (GetCurrentSize after).1 = 1
  ∧ drop 3 (contents 4 before) = [17]%nat
  ∧ m_readPtr after = 2
  ∧ (PeekAndPop 4 0%nat after).1 = (true, 13%nat)
  ∧ (IsEmpty (PeekAndPop 4 0%nat after).2).1 = true
  ∧ accepted 4 all (fresh 4)
    = [1; 2; 3; 4; 5; 6; 7; 8; 9; 10; 11; 12; 13; 14; 15; 16; 17]%nat
  ∧ popped 4 all (fresh 4)
    = [1; 2; 3; 4; 5; 6; 7; 8; 9; 10; 11; 12; 13; 13]%nat
  ∧ (IsEmpty (run 4 all (fresh 4)).2).1 = true.
Proof.
  split; [|by vm_compute].
  apply reachable_run. by constructor.
Qed.

(** The scenario of the specification on capacity 4: [1; 2; 3; 4] pushed,
    four accepted; [5] pushed, none accepted and the size stays 4; one
    popped, it is 1 and the size is 3; [5] pushed, one accepted; popping
    in full gives [2; 3; 4; 5]. *)
Lemma specification_scenario :
  let cs := [CallPushMany [1; 2; 3; 4]; CallPushMany [5]; CallGetCurrentSize;
             CallPeekAndPop 0; CallGetCurrentSize; CallPushMany [5]]%nat in
  (run 4 cs (fresh 4)).1
  = [RetCount 4; RetCount 0; RetCount 4; RetOut true 1%nat; RetCount 3; RetCount 1]
  ∧ (drain 4 4 0%nat (run 4 cs (fresh 4)).2).1 = [2; 3; 4; 5]%nat.
Proof. by vm_compute. Qed.

(** One critical section per call that changes the count, none for a
    call that changes nothing: [PushMany] of three, [PushMany] of none,
    [Pop], [PopMany(5)] (clamped to 2), [Pop] on the empty buffer,
    [Clear]. *)
Lemma critical_sections_counted :
  m_mutexImpl
    (run 4 [CallPushMany [1; 2; 3]; CallPushMany []; CallPop; CallPopMany 5;
            CallPop; CallClear]%nat (counted 4)).2
  = mkCountingMutex 4 4.
Proof. by vm_compute. Qed.

(** *** The claims at work *)

(** C1 on capacity 4: [PushMany [1; 2]], [PushOne 3], [PushMany [4]], then
    four [PeekAndPop] calls. *)
Lemma fifo_order_witness :
  let cs := [CallPushMany [1; 2]; CallPushOne 3; CallPushMany [4]]%nat in
  let filled := (run 4 cs (fresh 4)).2 in
  (0 < 4 ∧ 2 * 4 < SIZE_MODULUS ∧ forallb is_push cs = true)
  ∧ (accepted 4 cs (fresh 4) = flat_map offered cs
     ∧ (drain 4 4 0%nat filled).1 = flat_map offered cs
     ∧ (IsEmpty (drain 4 4 0%nat filled).2).1 = true)
  ∧ (drain 4 4 0%nat filled).1 = [1; 2; 3; 4]%nat.
Proof.
  intros cs filled. split; [by vm_compute|]. split; [|by vm_compute].
  apply (fifo_order 4 NopMutex cs 0%nat 4%nat); by vm_compute.
Defined.

(** C4 on capacity 4: six elements pushed into the buffer [wrapped4] after
    [Clear()] (empty, cursors at slot 2): four accepted, two rejected. *)
Lemma capacity_ceiling_witness :
  let this := (exec 4 CallClear wrapped4).2 in
  let xs := [11; 12; 13; 14; 15; 16]%nat in
  let r := PushMany 4 (seq_begin xs) (seq_end xs) this in
  let first := take (Z.to_nat 4) xs in
  ((IsEmpty this).1 = true ∧ length xs = (Z.to_nat 4 + 2)%nat)
  ∧ (r.1 = (GetCapacity 4 this).1
     ∧ Z.of_nat (length xs) - r.1 = Z.of_nat 2
     ∧ (GetCurrentSize r.2).1 = (GetCapacity 4 this).1
     ∧ r.2 = (PushMany 4 (seq_begin first) (seq_end first) this).2
     ∧ slots_from 4 (m_buffer r.2) (m_writePtr this) (Z.to_nat 4) = first
     ∧ (GetCurrentSize wrapped4).1 ≤ (GetCapacity 4 wrapped4).1)
  ∧ (r.1, contents 4 r.2) = (4, [11; 12; 13; 14]%nat).
Proof.
  intros this xs r first. split; [by vm_compute|]. split; [|by vm_compute].
  assert (reachable 4 wrapped4) as Hw
    by (apply reachable_run; constructor; by vm_compute).
  apply (capacity_ceiling 4 this wrapped4 xs 2%nat);
    [by apply reachable_exec|by vm_compute|lia|by vm_compute|done].
Defined.

(** Pushes, [Pop] and [PeekAndPop] on capacity 4: fourteen values offered,
    thirteen accepted, both cursors pass the last slot twice. *)
Lemma wraparound_fifo_witness :
  let cs := [CallPushMany [1; 2; 3; 4]; CallPushOne 5; CallPeekAndPop 0;
             CallPop; CallPop; CallPushMany [6; 7; 8]; CallPeekAndPop 0;
             CallPeekAndPop 0; CallPop; CallPushMany [9; 10]; CallPop;
             CallPeekAndPop 0; CallPushMany [11; 12; 13]; CallPop;
             CallPeekAndPop 0; CallPushOne 14]%nat in
  let this := (run 4 cs (fresh 4)).2 in
  (0 < 4 ∧ 2 * 4 < SIZE_MODULUS ∧ forallb is_push_or_pop cs = true)
  ∧ (accepted 4 cs (fresh 4) = popped 4 cs (fresh 4) ++ contents 4 this
     ∧ accepted 4 cs (fresh 4) = popped 4 cs (fresh 4) ++ (drain 4 4 0%nat this).1)
  ∧ (popped 4 cs (fresh 4), contents 4 this, m_readPtr this, m_writePtr this)
    = ([1; 2; 3; 4; 6; 7; 8; 9; 10; 11]%nat, [12; 13; 14]%nat, 0, 3).
Proof.
  intros cs this. split; [by vm_compute|]. split; [|by vm_compute].
  apply (wraparound_fifo 4 NopMutex cs 0%nat 4%nat); by vm_compute.
Defined.

(** C8 on capacity 4: one element went in and out; the buffer is empty
    with both cursors at slot 1 and the old value still in slot 0. *)
Lemma empty_pop_safety_witness :
  let this := (run 4 [CallPushOne 5; CallPop] (fresh 4)).2%nat in
  (IsEmpty this).1 = true
  ∧ (Pop 4 this = (false, this)
     ∧ PeekAndPop 4 9%nat this = (false, 9%nat, this)).
Proof.
  intros this. split; [by vm_compute|].
  apply (empty_pop_safety 4 this 9%nat). by vm_compute.
Defined.

End Concrete.

(** * Further properties of [CircularBuffer] *)

Section MoreFrame.
Context {T : Type} `{!Inhabited T} {MutexImpl_t : Type} `{!MutexImpl MutexImpl_t}.
Variable size : Z.

Local Abbreviation Buffer := (CircularBuffer T MutexImpl_t).
Implicit Types (this : Buffer) (xs : list T).

Lemma PushMany_loop_mutexImpl {It} `{!InputIt It T} fuel (b e : It) cs p this :
  m_mutexImpl (PushMany_loop size fuel b e cs p this).2 = m_mutexImpl this.
Proof.
  revert b cs p this. induction fuel as [|fuel IH]; intros b cs p this; [done|].
  rewrite PushMany_loop_S. destruct (negb (it_eq b e) && (cs <? size)); [|done].
  by rewrite IH.
Qed.

Lemma PushMany_loop_stops {It} `{!InputIt It T} fuel (b e : It) cs p this :
  negb (it_eq b e) && (cs <? size) = false →
  PushMany_loop size fuel b e cs p this = (p, this).
Proof. intros Hg. destruct fuel; [done|]. by rewrite PushMany_loop_S, Hg. Qed.

(** X7. [PushMany] on a full buffer, or on an empty range, returns 0 and
    leaves the whole object as it was: nothing is stored, no cursor moves,
    the mutex is not locked; [PushOne] on a full buffer returns [false] and
    changes nothing.  This holds in every state. *)
Theorem PushMany_rejected {It} `{!InputIt It T} (b e : It) this value :
  (size ≤ (GetCurrentSize this).1 ∨ it_eq b e = true) →
  PushMany size b e this = (0, this)
  ∧ (size ≤ (GetCurrentSize this).1 → PushOne size value this = (false, this)).
Proof.
  unfold GetCurrentSize, gets. cbn [fst]. intros Hrej.
  assert (∀ It' (I : InputIt It' T) (b' e' : It'),
            negb (it_eq b' e') && (m_currentSize this <? size) = false →
            PushMany size b' e' this = (0, this)) as Hstop.
  { intros It' I b' e' Hg. rewrite PushMany_unfold.
    by rewrite PushMany_loop_stops. }
  split.
  - apply Hstop. destruct Hrej as [Hfull| ->]; [|done].
    apply andb_false_iff. right. by apply Z.ltb_ge.
  - intros Hfull. unfold PushOne. rewrite bind_ret, Hstop; [done|].
    apply andb_false_iff. right. by apply Z.ltb_ge.
Qed.

Lemma PushMany_mutexImpl {It} `{!InputIt It T} (b e : It) this :
  m_mutexImpl (PushMany size b e this).2
  = if (PushMany size b e this).1 >? 0 then Unlock (Lock (m_mutexImpl this))
    else m_mutexImpl this.
Proof.
  rewrite PushMany_unfold. cbn [fst snd]. unfold commit_pushed.
  destruct (_ >? 0); cbn; by rewrite PushMany_loop_mutexImpl.
Qed.

(** X10. In every state, every call either leaves the mutex as it was or
    leaves it locked once and unlocked once: the calls that change the count
    ([PushMany] and [PushOne] that accept something, [Pop] and [PeekAndPop]
    on a non-empty buffer, [PopMany], [Clear]) enter one critical section,
    the rejected and the read-only calls enter none. *)
Theorem one_critical_section c this :
  m_mutexImpl (exec size c this).2
  = if enters_critical_section size c this then Unlock (Lock (m_mutexImpl this))
    else m_mutexImpl this.
Proof.
  rewrite exec_state.
  destruct c as [xs|value| |count|out| | |]; cbn [enters_critical_section].
  - apply PushMany_mutexImpl.
  - rewrite PushOne_unfold. cbn [fst]. apply PushMany_mutexImpl.
  - unfold IsEmpty, gets. cbn [fst].
    destruct (Z.eqb_spec (m_currentSize this) 0).
    + by rewrite Pop_empty.
    + by rewrite Pop_nonempty.
  - by rewrite PopMany_unfold.
  - rewrite PeekAndPop_state. unfold IsEmpty, gets. cbn [fst].
    destruct (Z.eqb_spec (m_currentSize this) 0).
    + by rewrite Pop_empty.
    + by rewrite Pop_nonempty.
  - done.
  - done.
  - done.
Qed.

End MoreFrame.

Section MoreInvariant.
Context {T : Type} `{!Inhabited T} {MutexImpl_t : Type} `{!MutexImpl MutexImpl_t}.
Variable size : Z.
Hypothesis size_pos : 0 < size.
Hypothesis size_fits : 2 * size < SIZE_MODULUS.

Local Abbreviation Buffer := (CircularBuffer T MutexImpl_t).
Implicit Types (this : Buffer) (xs : list T).

(** X2. [PopMany(count)] in a state that satisfies the invariant returns
    [n = min count m_currentSize] and takes [n] off the count.  When
    [m_readPtr + n] does not pass the last slot, the [n] oldest elements are
    gone and the invariant still holds.  When it does, the read cursor ends
    one slot past [(m_readPtr + n) mod (size + 1)] and the invariant is
    lost. *)
Theorem PopMany_effect this count :
  invariant size this → 0 ≤ count →
  let n := Z.min count (m_currentSize this) in
  let after := (PopMany size count this).2 in
  (PopMany size count this).1 = n
  ∧ m_currentSize after = m_currentSize this - n
  ∧ (m_readPtr this + n ≤ size →
     invariant size after
     ∧ contents size after = drop (Z.to_nat n) (contents size this))
  ∧ (size < m_readPtr this + n →
     m_readPtr after = (m_readPtr this + n) mod (size + 1) + 1
     ∧ ¬ invariant size after).
Proof.
  intros Hi Hcount n after. pose proof Hi as [Hb Hagree].
  assert ((PopMany size count this).1 = n
          ∧ m_currentSize after = m_currentSize this - n) as [Hret Hcnt].
  { unfold after. by rewrite PopMany_bounded_unfold. }
  split; [done|]. split; [done|]. split.
  - intros Hfit.
    destruct (PopMany_unwrapped size size_pos size_fits this count Hi Hcount Hfit)
      as (_ & ? & ?).
    done.
  - intros Hwrap.
    assert (m_readPtr after = (m_readPtr this + n) mod (size + 1) + 1) as Hrd.
    { apply PopMany_wrapped; (done || lia). }
    split; [done|]. intros [_ Hagree'].
    assert (m_writePtr after = m_writePtr this) as Hw
      by (unfold after; by rewrite PopMany_unfold).
    unfold cursors_agree in Hagree, Hagree'.
    rewrite Hw, Hrd, Hcnt, Hagree in Hagree'.
    destruct Hb as [_ Hr _ Hc].
    rewrite (mod_once (m_readPtr this + n)) in Hagree' by lia.
    replace (m_readPtr this + n <? size + 1) with false in Hagree'
      by (symmetry; apply Z.ltb_ge; lia).
    rewrite !mod_once in Hagree' by lia.
    repeat match type of Hagree' with
           | context [?a <? ?b] => destruct (Z.ltb_spec a b)
           end; lia.
Qed.

(** X6. [PushMany] on any iterator range, in a state that satisfies the
    invariant: with [xs] the elements the range yields, it returns
    [min (length xs) (size - m_currentSize)], appends exactly that many
    leading elements of [xs] to the contents, behind the ones already there,
    and keeps the invariant. *)
Theorem PushMany_accepts_what_fits {It} `{!InputIt It T} (b e : It) xs this :
  it_range e b xs → invariant size this →
  let room := (GetCapacity size this).1 - (GetCurrentSize this).1 in
  let n := Z.min (Z.of_nat (length xs)) room in
  (PushMany size b e this).1 = n
  ∧ contents size (PushMany size b e this).2
    = contents size this ++ take (Z.to_nat n) xs
  ∧ (GetCurrentSize (PushMany size b e this).2).1 = (GetCurrentSize this).1 + n
  ∧ invariant size (PushMany size b e this).2.
Proof.
  intros Hr Hi room n. pose proof Hi as [[_ _ _ Hc] _].
  destruct (PushMany_contents size size_pos size_fits b e xs this Hr Hi)
    as (Hn & Hi' & Hc').
  assert (Z.of_nat (taken size xs (m_currentSize this)) = n) as Hk.
  { unfold n, room, taken, GetCapacity, GetCurrentSize, gets, ret. cbn [fst]. lia. }
  rewrite <- Hk, Nat2Z.id. split; [done|]. split; [done|]. split; [|done].
  unfold GetCurrentSize, gets. cbn [fst].
  pose proof (contents_length size (PushMany size b e this).2) as Hl.
  rewrite Hc', length_app, contents_length, length_take in Hl.
  destruct Hi' as [[_ _ _ ?] _]. unfold taken in *. lia.
Qed.


(** X9. In a state that satisfies the invariant, iterating from [begin()]
    to [end()] with [operator++] and [operator*] yields the contents, oldest
    first, in [GetCurrentSize()] steps; and [begin() == end()] exactly when
    the buffer is empty, also when it is full (the spare slot keeps the two
    cursors apart). *)
Theorem iteration_yields_contents this :
  invariant size this →
  it_range (end_ size this).1 (begin size this).1 (contents size this)
  ∧ Z.of_nat (length (contents size this)) = (GetCurrentSize this).1
  ∧ it_eq (begin size this).1 (end_ size this).1 = (IsEmpty this).1.
Proof.
  intros Hi. pose proof Hi as [[_ Hr _ Hc] Hagree].
  split; [by apply begin_end_contents|].
  split; [rewrite contents_length; unfold GetCurrentSize, gets; cbn; lia|].
  unfold begin, end_, IsEmpty, gets, make_ConstIterator. cbn.
  rewrite Hagree. destruct (Z.eqb_spec (m_currentSize this) 0) as [->|Hne].
  - rewrite Z.add_0_r, Z.mod_small by lia. apply Z.eqb_refl.
  - apply Z.eqb_neq. intros Heq. symmetry in Heq. revert Heq.
    apply mod_shift_ne; lia.
Qed.

(** X4. A sequence of calls without [PopMany], started in a state that
    satisfies the invariant, ends in one: [m_writePtr] stays
    [(m_readPtr + m_currentSize) mod (size + 1)] through [PushMany],
    [PushOne], [Pop], [PeekAndPop] and [Clear]. *)
Theorem invariant_kept_without_PopMany cs this :
  forallb no_PopMany cs = true → invariant size this →
  invariant size (run size cs this).2.
Proof.
  intros Hcs Hi.
  by destruct (run_refines size size_pos size_fits cs this Hcs Hi) as (_ & _ & ?).
Qed.

(** X11. The stream operators round-trip: on an empty buffer that satisfies
    the invariant, [buffer << v] followed by [buffer >> out] stores [v] in
    [out] and leaves the buffer empty; on an empty buffer [buffer >> out]
    leaves [out] and the buffer as they were. *)
Theorem stream_operators_round_trip this value out :
  invariant size this → (IsEmpty this).1 = true →
  let pushed := (operator_shl size value this).2 in
  (operator_shr size out pushed).1 = value
  ∧ (IsEmpty (operator_shr size out pushed).2).1 = true
  ∧ operator_shr size out this = (out, this).
Proof.
  intros Hi He pushed.
  assert (m_currentSize this = 0) as Hc
    by (unfold IsEmpty, gets in He; cbn in He; by apply Z.eqb_eq).
  assert (pushed = (PushMany size (address_of value)
                      (ptr_add (address_of value) 1) this).2) as Hp.
  { unfold pushed, operator_shl. rewrite bind_ret. cbn [snd].
    by rewrite PushOne_unfold. }
  destruct (PushMany_contents size size_pos size_fits _ _ [value] this
              (address_range value) Hi) as (Hn & Hi' & Hc').
  rewrite <- Hp in Hi', Hc'.
  rewrite (contents_empty size this Hc) in Hc'. cbn [app] in Hc'.
  assert (taken size [value] (m_currentSize this) = 1%nat) as Ht
    by (unfold taken; cbn [length]; lia).
  rewrite Ht in Hc'. cbn [take] in Hc'.
  assert (m_currentSize pushed = 1) as Hc1.
  { pose proof (contents_length size pushed) as Hl. rewrite Hc' in Hl.
    destruct Hi' as [[_ _ _ ?] _]. cbn in Hl. lia. }
  assert (m_currentSize pushed ≠ 0) as Hne by lia.
  unfold operator_shr. rewrite !bind_ret.
  rewrite PeekAndPop_nonempty by done. rewrite PeekAndPop_empty by done.
  cbn [fst snd]. destruct Hi' as [Hb' _].
  pose proof (Pop_contents size size_pos size_fits pushed Hb' Hne) as Hpop.
  rewrite Hc' in Hpop. injection Hpop as Hv Hrest.
  split; [done|]. split; [|done].
  unfold IsEmpty, gets. cbn [fst]. rewrite Pop_bounded_nonempty by done.
  cbn. rewrite Hc1. done.
Qed.

End MoreInvariant.

Section MoreMoveTo.
Context {T : Type} `{!Inhabited T}.
Context {MutexImpl_t : Type} `{!MutexImpl MutexImpl_t}.
Context {MutexImpl_t2 : Type} `{!MutexImpl MutexImpl_t2}.

Implicit Types (this : CircularBuffer T MutexImpl_t).
Implicit Types (target : CircularBuffer T MutexImpl_t2).

(** X1. [MoveTo] between two buffers that satisfy their invariants, of any
    capacities and mutex types, the target empty or not: it returns
    [n = min (size of the source) (room in the target)]; the target then
    holds what it held followed by the [n] oldest elements of the source, in
    order, and still satisfies its invariant; the source's count goes down
    by [n], so no element is counted twice or dropped; and when the source's
    read cursor does not pass the last slot, the source holds the rest. *)
Theorem MoveTo_moves_oldest size size2 this target :
  0 < size → 2 * size < SIZE_MODULUS → 0 < size2 → 2 * size2 < SIZE_MODULUS →
  invariant size this → invariant size2 target →
  let room := (GetCapacity size2 target).1 - (GetCurrentSize target).1 in
  let n := Z.min (GetCurrentSize this).1 room in
  let moved := MoveTo size size2 target this in
  moved.1.1 = n
  ∧ contents size2 moved.1.2
    = contents size2 target ++ take (Z.to_nat n) (contents size this)
  ∧ invariant size2 moved.1.2
  ∧ (GetCurrentSize moved.2).1 + (GetCurrentSize moved.1.2).1
    = (GetCurrentSize this).1 + (GetCurrentSize target).1
  ∧ (GetCurrentSize moved.2).1 = (GetCurrentSize this).1 - n
  ∧ (m_readPtr this + n ≤ size →
     contents size moved.2 = drop (Z.to_nat n) (contents size this)).
Proof.
  intros Hpos Hfits Hpos2 Hfits2 Hi Hi2 room n moved.
  pose proof Hi as [[_ _ _ Hc] _]. pose proof Hi2 as [[_ _ _ Hc2] _].
  destruct (MoveTo_contents size size2 Hpos Hfits Hpos2 Hfits2 this target Hi Hi2)
    as (Hn & Hi' & Hc' & Hm).
  fold moved in Hn, Hi', Hc', Hm.
  assert (Z.of_nat (taken size2 (contents size this) (m_currentSize target)) = n)
    as Hk.
  { unfold n, room, taken, GetCapacity, GetCurrentSize, gets, ret. cbn [fst].
    rewrite contents_length. lia. }
  rewrite Hk in Hn, Hm.
  assert (Z.to_nat n = taken size2 (contents size this) (m_currentSize target))
    as Hkn by (rewrite <- Hk; apply Nat2Z.id).
  rewrite Hkn. unfold GetCurrentSize, gets. cbn [fst].
  assert (m_currentSize moved.1.2 = m_currentSize target + n) as Ht.
  { pose proof (contents_length size2 moved.1.2) as Hl.
    pose proof (contents_length size this) as Hl1.
    pose proof (contents_length size2 target) as Hl2.
    rewrite Hc', length_app, length_take in Hl.
    destruct Hi' as [[_ _ _ ?] _]. unfold taken in *. lia. }
  split; [done|]. split; [done|]. split; [done|].
  split; [lia|]. split; [done|].
  intros Hfit.
  assert (it_range (end_ size this).1 (begin size this).1 (contents size this))
    as Hrange by (by apply begin_end_contents).
  assert ((PushMany size2 (begin size this).1 (end_ size this).1 target).1 = n)
    as Hp.
  { by destruct (PushMany_contents size2 Hpos2 Hfits2 _ _ _ target Hrange Hi2)
      as (-> & _). }
  unfold moved. rewrite MoveTo_unfold. cbn [fst snd]. rewrite Hp.
  assert (Z.min n (m_currentSize this) = n) as Hmin
    by (unfold n, GetCurrentSize, gets; cbn [fst]; lia).
  assert (0 ≤ n) as Hn0
    by (unfold n, room, GetCapacity, GetCurrentSize, gets, ret; cbn [fst]; lia).
  assert (m_readPtr this + Z.min n (m_currentSize this) ≤ size) as Hfit'
    by (by rewrite Hmin).
  destruct (PopMany_unwrapped size Hpos Hfits this n Hi Hn0 Hfit') as (_ & _ & Hd).
  by rewrite Hd, Hmin, Hkn.
Qed.

End MoreMoveTo.

Section MoreReachable.
Context {T : Type} `{!Inhabited T} {MutexImpl_t : Type} `{!MutexImpl MutexImpl_t}.

Implicit Types (this : CircularBuffer T MutexImpl_t).

(** X3. In every reachable state both cursors index the array: the store
    of [PushMany] at [m_buffer[m_writePtr]] and the reads of [Peek],
    [PeekAndPop] and the iterators at [m_buffer[m_readPtr]] are within the
    [size + 1] slots, whatever calls ([PopMany] and [MoveTo] included) came
    before. *)
Theorem cursors_index_the_array size this :
  reachable size this →
  length (m_buffer this) = Z.to_nat (size + 1)
  ∧ (Z.to_nat (m_readPtr this) < length (m_buffer this))%nat
  ∧ (Z.to_nat (m_writePtr this) < length (m_buffer this))%nat
  ∧ 0 ≤ m_readPtr this ∧ 0 ≤ m_writePtr this.
Proof.
  intros Hr. destruct (reachable_size _ _ Hr).
  destruct (reachable_bounded _ _ Hr) as [Hlen Hrd Hwr _]. lia.
Qed.


End MoreReachable.

(** * Properties of [StaticVector] *)

Section ListFacts.
Context {T : Type} `{!Inhabited T}.
Implicit Types (l : list T).

Lemma insert_middle l1 l2 (x y : T) (n : nat) :
  n = length l1 → <[n := y]> (l1 ++ x :: l2) = l1 ++ y :: l2.
Proof.
  intros ->. rewrite <- (Nat.add_0_r (length l1)). by rewrite insert_app_r.
Qed.

Lemma std_swap_apart l1 (x : T) mid y l2 (i j : Z) :
  i = Z.of_nat (length l1) → j = Z.of_nat (length l1 + S (length mid)) →
  StaticVector.std_swap i j (l1 ++ x :: mid ++ y :: l2) = l1 ++ y :: mid ++ x :: l2
  ∧ StaticVector.std_swap j i (l1 ++ x :: mid ++ y :: l2) = l1 ++ y :: mid ++ x :: l2.
Proof.
  intros -> ->. unfold StaticVector.std_swap. rewrite !Nat2Z.id.
  assert ((l1 ++ x :: mid ++ y :: l2) !!! length l1 = x) as Hx
    by (by apply list_lookup_total_middle).
  assert ((l1 ++ x :: mid ++ y :: l2) !!! (length l1 + S (length mid))%nat = y) as Hy.
  { replace (l1 ++ x :: mid ++ y :: l2) with ((l1 ++ x :: mid) ++ y :: l2)
      by (by rewrite <- app_assoc).
    apply list_lookup_total_middle. rewrite length_app. done. }
  rewrite Hx, Hy. split.
  - rewrite (insert_middle l1 _ x y) by done.
    replace (l1 ++ y :: mid ++ y :: l2) with ((l1 ++ y :: mid) ++ y :: l2)
      by (by rewrite <- app_assoc).
    rewrite (insert_middle _ l2 y x) by (rewrite length_app; done).
    by rewrite <- app_assoc.
  - replace (l1 ++ x :: mid ++ y :: l2) with ((l1 ++ x :: mid) ++ y :: l2)
      by (by rewrite <- app_assoc).
    rewrite (insert_middle _ l2 y x) by (rewrite length_app; done).
    rewrite <- app_assoc. cbn [app].
    by rewrite (insert_middle l1 _ x y).
Qed.

Lemma std_swap_adjacent l1 (x y : T) l2 (i : Z) :
  i = Z.of_nat (length l1) →
  StaticVector.std_swap i (i + 1) (l1 ++ x :: y :: l2) = l1 ++ y :: x :: l2.
Proof.
  intros Hi. destruct (std_swap_apart l1 x [] y l2 i (i + 1)) as [H _];
    [done|cbn; lia|exact H].
Qed.

(** [std::copy] of the first [n] elements to the front. *)
Lemma std_copy_front (src dst : list T) (n : nat) :
  (n ≤ length src)%nat → (n ≤ length dst)%nat →
  StaticVector.std_copy src 0 (Z.of_nat n) 0 dst = take n src ++ drop n dst.
Proof.
  unfold StaticVector.std_copy. intros Hs Hd. rewrite Z.sub_0_r.
  induction n as [|n IH]; [done|].
  rewrite Nat2Z.inj_succ, <- Z.add_1_r, seqZ_app by lia.
  rewrite foldl_app, IH by lia. rewrite seqZ_cons, seqZ_nil by lia.
  cbn [foldl]. rewrite !Z.add_0_l, Nat2Z.id.
  destruct (lookup_lt_is_Some_2 src n) as [x Hx]; [lia|].
  destruct (lookup_lt_is_Some_2 dst n) as [y Hy]; [lia|].
  rewrite (list_lookup_total_correct _ _ _ Hx), (take_S_r _ _ _ Hx).
  rewrite (drop_S _ _ _ Hy).
  rewrite (insert_middle (take n src) _ y x) by (rewrite length_take; lia).
  by rewrite <- app_assoc.
Qed.

End ListFacts.

Section StaticVectorFacts.
Import StaticVector.
Context {T : Type} `{!Inhabited T} `{!EqDecision T}.
Variable maxSize : Z.
Hypothesis maxSize_pos : 0 < maxSize.
Hypothesis maxSize_fits : maxSize < SIZE_MODULUS.

Implicit Types (this : StaticVector T) (l kept rem tl : list T) (value : T).

Lemma Append_unfold this x :
  Append maxSize x this =
    if m_currentSize this <? maxSize then
      (true, mkStaticVector (size_t (m_currentSize this + 1))
               (<[Z.to_nat (m_currentSize this) := x]> (m_buffer this)))
    else (false, this).
Proof. unfold Append, bind, gets. by destruct (_ <? _). Qed.

Lemma RemoveIndex_loop_S fuel i this :
  RemoveIndex_loop (S fuel) i this =
    if i <? m_currentSize this then
      RemoveIndex_loop fuel (size_t (i + 1))
        (set_buffer (std_swap i (size_t (i + 1))) this)
    else (tt, this).
Proof. cbn [RemoveIndex_loop]. unfold bind, gets. by destruct (_ <? _). Qed.

Lemma RemoveIndex_loop_shifts l1 h rest l2 fuel i c :
  i = Z.of_nat (length l1) → c = i + Z.of_nat (length rest) → c ≤ maxSize →
  (length rest ≤ fuel)%nat →
  RemoveIndex_loop fuel i (mkStaticVector c (l1 ++ h :: rest ++ l2))
  = (tt, mkStaticVector c (l1 ++ rest ++ h :: l2)).
Proof.
  revert l1 fuel i. induction rest as [|r rest IH]; intros l1 fuel i Hi Hc Hm Hf.
  - cbn in Hc. destruct fuel; [done|]. rewrite RemoveIndex_loop_S. cbn.
    by replace (i <? c) with false by (symmetry; apply Z.ltb_ge; lia).
  - cbn [length] in *. destruct fuel as [|fuel]; [lia|].
    rewrite RemoveIndex_loop_S. cbn [m_currentSize].
    replace (i <? c) with true by (symmetry; apply Z.ltb_lt; lia).
    rewrite size_t_small by lia. unfold set_buffer. cbn [m_currentSize m_buffer app].
    rewrite std_swap_adjacent by done.
    replace (l1 ++ r :: h :: rest ++ l2) with ((l1 ++ [r]) ++ h :: rest ++ l2)
      by (by rewrite <- app_assoc).
    rewrite IH; [by rewrite <- app_assoc|rewrite length_app; cbn; lia|lia..].
Qed.

Lemma RemoveIndex_unfold this index :
  RemoveIndex index this =
    if index >=? m_currentSize this then (false, this)
    else
      let c := size_t (m_currentSize this - 1) in
      (true,
       (RemoveIndex_loop (Z.to_nat (c - index)) index
          (mkStaticVector c (<[Z.to_nat index := inhabitant]> (m_buffer this)))).2).
Proof.
  unfold RemoveIndex, bind, gets, modify, ret. destruct (_ >=? _); [done|]. cbn.
  by destruct (RemoveIndex_loop _ _ _).
Qed.

(** The buffer [RemoveIndex] leaves: the slots behind [index] move one to
    the front, the vacated last slot holds [T{}]. *)
Lemma RemoveIndex_buffer this index :
  wf maxSize this → 0 ≤ index < m_currentSize this →
  let n := Z.to_nat index in
  let s := Z.to_nat (m_currentSize this) in
  RemoveIndex index this =
    (true,
     mkStaticVector (m_currentSize this - 1)
       (take n (m_buffer this) ++ drop (S n) (take s (m_buffer this))
        ++ inhabitant :: drop s (m_buffer this))).
Proof.
  intros [Hlen Hc] Hi n s. rewrite RemoveIndex_unfold.
  destruct (Z.geb_spec index (m_currentSize this)); [lia|].
  cbn zeta. rewrite size_t_small by lia.
  destruct (lookup_lt_is_Some_2 (m_buffer this) n) as [x Hx]; [lia|].
  rewrite <- (take_drop_middle _ _ _ Hx) at 1.
  rewrite (insert_middle _ _ x inhabitant) by (rewrite length_take; lia).
  rewrite <- (take_drop (s - S n) (drop (S n) (m_buffer this))) at 1.
  rewrite drop_drop, take_drop_commute.
  replace (S n + (s - S n))%nat with s by lia.
  rewrite RemoveIndex_loop_shifts; [done|..];
    rewrite ?length_drop, ?length_take; lia.
Qed.

Lemma InsertRotateLeft_loop_S fuel times e1 e2 this :
  InsertRotateLeft_loop (S fuel) times e1 e2 this =
    if negb (times =? 0) then
      InsertRotateLeft_loop fuel (size_t (times - 1)) (e1 - 1) (e2 - 1)
        (set_buffer (std_swap e1 e2) this)
    else (tt, this).
Proof. cbn [InsertRotateLeft_loop]. by destruct (negb _). Qed.

(** [times] swaps carry the last of [rest ++ [x]] to its front. *)
Lemma InsertRotateLeft_loop_bubbles l1 rest x l2 fuel times e1 c :
  times = Z.of_nat (length rest) → e1 = Z.of_nat (length l1 + length rest) →
  times < SIZE_MODULUS → (length rest ≤ fuel)%nat →
  InsertRotateLeft_loop fuel times e1 (e1 - 1)
    (mkStaticVector c (l1 ++ rest ++ x :: l2))
  = (tt, mkStaticVector c (l1 ++ x :: rest ++ l2)).
Proof.
  revert l2 fuel times e1.
  induction rest as [|r rest IH] using rev_ind; intros l2 fuel times e1 Ht He Hm Hf.
  - cbn in Ht. subst times. by destruct fuel.
  - rewrite length_app in *. cbn [length] in *. destruct fuel as [|fuel]; [lia|].
    rewrite InsertRotateLeft_loop_S.
    replace (times =? 0) with false by (symmetry; apply Z.eqb_neq; lia).
    cbn [negb]. rewrite size_t_small by lia. unfold set_buffer. cbn [m_currentSize m_buffer].
    replace (l1 ++ (rest ++ [r]) ++ x :: l2) with ((l1 ++ rest) ++ r :: [] ++ x :: l2)
      by (by rewrite <- !app_assoc).
    destruct (std_swap_apart (l1 ++ rest) r [] x l2 (e1 - 1) e1) as [_ ->];
      [rewrite length_app; lia|rewrite length_app; cbn; lia|].
    cbn [app]. rewrite <- app_assoc.
    rewrite (IH (r :: l2)) by lia.
    by rewrite <- !app_assoc.
Qed.

Lemma Insert_unfold this index value :
  Insert maxSize index value this =
    let rotateCount := size_t (m_currentSize this - index) in
    let rotateCount := if rotateCount >? maxSize then 0 else rotateCount in
    let appended := Append maxSize value this in
    if appended.1 then
      (true,
       (InsertRotateLeft_loop (Z.to_nat rotateCount) rotateCount
          (m_currentSize appended.2 - 1) (m_currentSize appended.2 - 2) appended.2).2)
    else (false, appended.2).
Proof.
  unfold Insert, InsertRotateLeft, bind, gets, ret. cbn zeta.
  destruct (Append maxSize value this) as [[] this']; [|done]. cbn [fst snd].
  by destruct (InsertRotateLeft_loop _ _ _ _ _).
Qed.

Lemma size_t_negative x : - SIZE_MODULUS ≤ x < 0 → size_t x = x + SIZE_MODULUS.
Proof.
  intros Hx. unfold size_t. rewrite <- (Z.mod_add x 1) by (pose proof SIZE_MODULUS_pos; lia).
  apply Z.mod_small. lia.
Qed.

(** The buffer [Insert] leaves for an index within the vector. *)
Lemma Insert_buffer this index value :
  wf maxSize this → m_currentSize this < maxSize → 0 ≤ index ≤ m_currentSize this →
  let n := Z.to_nat index in
  let s := Z.to_nat (m_currentSize this) in
  Insert maxSize index value this =
    (true,
     mkStaticVector (m_currentSize this + 1)
       (take n (m_buffer this) ++ value :: drop n (take s (m_buffer this))
        ++ drop (S s) (m_buffer this))).
Proof.
  intros [Hlen Hc] Hroom Hi n s. rewrite Insert_unfold, Append_unfold. cbn zeta.
  replace (m_currentSize this <? maxSize) with true by (symmetry; apply Z.ltb_lt; lia).
  cbn [fst snd m_currentSize]. rewrite !size_t_small by lia.
  destruct (Z.gtb_spec (m_currentSize this - index) maxSize); [lia|].
  destruct (lookup_lt_is_Some_2 (m_buffer this) s) as [y Hy]; [lia|].
  rewrite <- (take_drop_middle _ _ _ Hy) at 1.
  rewrite (insert_middle _ _ y value) by (rewrite length_take; lia).
  rewrite <- (take_drop n (take s (m_buffer this))) at 1.
  rewrite take_take, Nat.min_l, <- app_assoc by lia.
  replace (m_currentSize this + 1 - 2) with (m_currentSize this + 1 - 1 - 1) by lia.
  rewrite InsertRotateLeft_loop_bubbles; [done|..];
    rewrite ?length_drop, ?length_take; lia.
Qed.

(** [Insert] with an index past the end (and not within [maxSize] of
    [SIZE_MAX]): the wrapped [rotateCount] exceeds [maxSize] and is reset to
    0, so the element is appended. *)
Lemma Insert_past_end this index value :
  wf maxSize this →
  m_currentSize this < index → index - m_currentSize this < SIZE_MODULUS - maxSize →
  Insert maxSize index value this = Append maxSize value this.
Proof.
  intros [Hlen Hc] Hi Hfar. rewrite Insert_unfold. cbn zeta.
  rewrite size_t_negative by lia.
  destruct (Z.gtb_spec (m_currentSize this - index + SIZE_MODULUS) maxSize); [|lia].
  by destruct (Append maxSize value this) as [[] this'].
Qed.






Lemma ClearInternal_loop_S fuel i this :
  ClearInternal_loop (S fuel) i this =
    if i <? m_currentSize this then
      ClearInternal_loop fuel (size_t (i + 1))
        (set_buffer (<[Z.to_nat i := inhabitant]>) this)
    else (tt, this).
Proof. cbn [ClearInternal_loop]. unfold bind, gets. by destruct (_ <? _). Qed.

Lemma ClearInternal_loop_resets l1 rest l2 fuel i c :
  i = Z.of_nat (length l1) → c = i + Z.of_nat (length rest) → c ≤ maxSize →
  (length rest ≤ fuel)%nat →
  ClearInternal_loop fuel i (mkStaticVector c (l1 ++ rest ++ l2))
  = (tt, mkStaticVector c (l1 ++ replicate (length rest) inhabitant ++ l2)).
Proof.
  revert l1 fuel i. induction rest as [|x rest IH]; intros l1 fuel i Hi Hc Hm Hf.
  - cbn in *. destruct fuel; [done|]. rewrite ClearInternal_loop_S. cbn.
    by replace (i <? c) with false by (symmetry; apply Z.ltb_ge; lia).
  - cbn [length] in *. destruct fuel as [|fuel]; [lia|].
    rewrite ClearInternal_loop_S. cbn [m_currentSize].
    replace (i <? c) with true by (symmetry; apply Z.ltb_lt; lia).
    rewrite size_t_small by lia. unfold set_buffer. cbn [m_currentSize m_buffer app].
    rewrite (insert_middle _ _ x inhabitant) by lia.
    replace (l1 ++ inhabitant :: rest ++ l2) with ((l1 ++ [inhabitant]) ++ rest ++ l2)
      by (by rewrite <- app_assoc).
    rewrite IH; [by rewrite <- app_assoc|rewrite length_app; cbn; lia|lia..].
Qed.

Lemma Clear_buffer trivially_destructible this :
  wf maxSize this →
  let s := Z.to_nat (m_currentSize this) in
  Clear trivially_destructible this =
    (tt,
     mkStaticVector 0
       (if trivially_destructible then m_buffer this
        else replicate s inhabitant ++ drop s (m_buffer this))).
Proof.
  destruct this as [c buf]. intros [Hlen Hc] s. cbn [m_currentSize m_buffer] in *.
  unfold Clear, ClearInternal, bind, modify. destruct trivially_destructible; [done|].
  unfold gets. cbn [m_currentSize].
  pose proof (ClearInternal_loop_resets [] (take s buf) (drop s buf) (Z.to_nat c) 0 c)
    as Hloop.
  cbn [app length] in Hloop. rewrite take_drop, length_take in Hloop.
  rewrite Hloop by lia. unfold set_currentSize. cbn.
  by replace (Nat.min s (length buf)) with s by lia.
Qed.

Lemma assign_buffer this other :
  wf maxSize this → wf maxSize other →
  let n := Z.to_nat (m_currentSize other) in
  assign other this =
    (tt, mkStaticVector (m_currentSize other)
           (take n (m_buffer other) ++ drop n (m_buffer this))).
Proof.
  intros [Hlen Hc] [Hlen' Hc'] n. unfold assign, bind, modify, set_buffer, set_currentSize.
  cbn -[std_copy]. do 2 f_equal.
  rewrite <- (Z2Nat.id (m_currentSize other)) at 1 by lia.
  by rewrite std_copy_front by lia.
Qed.

Lemma assign_from_buffer otherSize this other :
  wf maxSize this → wf otherSize other →
  let n := Z.to_nat (Z.min maxSize (m_currentSize other)) in
  assign_from maxSize other this =
    (tt, mkStaticVector (Z.min maxSize (m_currentSize other))
           (take n (m_buffer other) ++ drop n (m_buffer this))).
Proof.
  intros [Hlen Hc] [Hlen' Hc'] n.
  unfold assign_from, bind, modify, gets, set_buffer, set_currentSize.
  cbn -[std_copy Z.min]. do 2 f_equal.
  rewrite <- (Z2Nat.id (Z.min _ _)) at 1 by lia.
  by rewrite std_copy_front by lia.
Qed.

(** A pointer at offset [i] reaches the one [k] elements further after [k]
    increments, and yields the [k] elements in between. *)
Lemma Ptr_range (a : list T) (i k : nat) :
  (i + k ≤ length a)%nat →
  it_range (mkPtr a (Z.of_nat (i + k))) (mkPtr a (Z.of_nat i)) (take k (drop i a)).
Proof.
  revert i. induction k as [|k IH]; intros i Hk.
  - rewrite Nat.add_0_r. apply it_range_nil. apply Z.eqb_refl.
  - destruct (lookup_lt_is_Some_2 a i) as [x Hx]; [lia|].
    rewrite (drop_S _ _ _ Hx). cbn [take]. apply it_range_cons_eq.
    + apply Z.eqb_neq. cbn. lia.
    + cbn. rewrite Nat2Z.id. by apply list_lookup_total_correct.
    + cbn [incr Ptr_InputIt ptr_array ptr_offset].
      replace (Z.of_nat i + 1) with (Z.of_nat (S i)) by lia.
      replace (i + S k)%nat with (S i + k)%nat by lia. apply IH. lia.
Qed.

Lemma begin_end_elements this :
  wf maxSize this →
  it_range (end_ this).1 (begin this).1 (elements this).
Proof.
  intros [Hlen Hc]. unfold begin, end_, gets, elements. cbn [fst].
  pose proof (Ptr_range (m_buffer this) 0 (Z.to_nat (m_currentSize this))) as Hr.
  cbn [Nat.add drop] in Hr. rewrite Z2Nat.id in Hr by lia. apply Hr. lia.
Qed.

End StaticVectorFacts.

Section StaticVectorTheorems.
Import StaticVector.
Context {T : Type} `{!Inhabited T} `{!EqDecision T}.

Implicit Types (this other : StaticVector T) (value element : T).

Lemma elements_middle (l1 l2 : list T) c :
  c = Z.of_nat (length l1) → elements (mkStaticVector c (l1 ++ l2)) = l1.
Proof. intros ->. unfold elements. cbn. by rewrite Nat2Z.id, take_app_length. Qed.

Lemma elements_length maxSize this :
  wf maxSize this → length (elements this) = Z.to_nat (m_currentSize this).
Proof. intros [Hlen Hc]. unfold elements. rewrite length_take. lia. Qed.

Lemma Append_room maxSize this element :
  maxSize < SIZE_MODULUS → wf maxSize this → m_currentSize this < maxSize →
  let s := Z.to_nat (m_currentSize this) in
  Append maxSize element this =
    (true, mkStaticVector (m_currentSize this + 1)
             (take s (m_buffer this) ++ element :: drop (S s) (m_buffer this))).
Proof.
  intros Hfits [Hlen Hc] Hlt s. rewrite Append_unfold.
  destruct (Z.ltb_spec (m_currentSize this) maxSize); [|lia].
  rewrite size_t_small by lia. by rewrite insert_take_drop by lia.
Qed.

Lemma Append_full maxSize this element :
  maxSize ≤ m_currentSize this → Append maxSize element this = (false, this).
Proof.
  intros Hge. rewrite Append_unfold.
  by destruct (Z.ltb_spec (m_currentSize this) maxSize); [lia|].
Qed.

(** X12. [Append] on a vector with room returns [true] and puts the
    element behind the ones already there, where [operator[]] finds it; on
    a full vector it returns [false] and changes nothing. *)
Theorem StaticVector_Append maxSize this element NDEBUG :
  0 < maxSize → maxSize < SIZE_MODULUS → wf maxSize this →
  let r := Append maxSize element this in
  wf maxSize r.2
  ∧ ((GetSize this).1 < (GetCapacity maxSize this).1 →
     r.1 = true
     ∧ elements r.2 = elements this ++ [element]
     ∧ (GetSize r.2).1 = (GetSize this).1 + 1
     ∧ (index NDEBUG (GetSize this).1 r.2).1 = Some element)
  ∧ ((GetSize this).1 = (GetCapacity maxSize this).1 → r = (false, this)).
Proof.
  intros Hpos Hfits Hwf r. pose proof Hwf as [Hlen Hc].
  unfold r, GetSize, GetCapacity, gets, ret. cbn [fst]. rewrite Append_unfold.
  destruct (Z.ltb_spec (m_currentSize this) maxSize) as [Hlt|Hge]; cbn [fst snd].
  - rewrite size_t_small by lia.
    rewrite insert_take_drop by lia.
    split; [|split; [|intros; lia]].
    + constructor; cbn; [|lia]. rewrite length_app, length_take. cbn.
      rewrite length_drop. lia.
    + intros _. split; [done|]. split; [|split; [done|]].
      * replace (take (Z.to_nat (m_currentSize this)) (m_buffer this) ++ element :: _)
          with ((take (Z.to_nat (m_currentSize this)) (m_buffer this) ++ [element])
                ++ drop (S (Z.to_nat (m_currentSize this))) (m_buffer this))
          by (by rewrite <- app_assoc).
        apply elements_middle. unfold elements. rewrite length_app, length_take. cbn. lia.
      * unfold index, bind, gets, ret. cbn [m_currentSize m_buffer fst].
        destruct (Z.geb_spec (m_currentSize this) (m_currentSize this + 1)); [lia|].
        rewrite andb_false_r. cbn [fst]. f_equal.
        apply list_lookup_total_middle. rewrite length_take. lia.
  - split; [done|]. split; [intros; lia|done].
Qed.

(** X13. [RemoveIndex] with an index below the size returns [true],
    removes that element and keeps the others in order, one fewer; the slot
    it vacates at the end holds [T{}].  With any other index it returns
    [false] and changes nothing. *)
Theorem StaticVector_RemoveIndex maxSize this idx :
  0 < maxSize → maxSize < SIZE_MODULUS → wf maxSize this → 0 ≤ idx →
  let r := RemoveIndex idx this in
  wf maxSize r.2
  ∧ (idx < (GetSize this).1 →
     r.1 = true
     ∧ elements r.2 = delete (Z.to_nat idx) (elements this)
     ∧ (GetSize r.2).1 = (GetSize this).1 - 1
     ∧ m_buffer r.2 !!! Z.to_nat ((GetSize this).1 - 1) = inhabitant)
  ∧ ((GetSize this).1 ≤ idx → r = (false, this)).
Proof.
  intros Hpos Hfits Hwf Hidx r. pose proof Hwf as [Hlen Hc].
  unfold GetSize, gets. cbn [fst].
  destruct (Z.lt_ge_cases idx (m_currentSize this)) as [Hlt|Hge].
  - unfold r. rewrite (RemoveIndex_buffer maxSize) by (done || lia). cbn [fst snd].
    set (n := Z.to_nat idx). set (s := Z.to_nat (m_currentSize this)).
    assert (length (take n (m_buffer this) ++ drop (S n) (take s (m_buffer this)))
            = (s - 1)%nat) as Hl
      by (rewrite length_app, length_drop, !length_take; lia).
    split; [|split; [|intros; lia]].
    + constructor; cbn; [|lia].
      rewrite !length_app, length_drop, !length_take. cbn. rewrite length_drop. lia.
    + intros _. split; [done|]. split; [|split; [done|]].
      * rewrite app_assoc. rewrite elements_middle by lia.
        unfold elements. fold s. rewrite delete_take_drop, take_take.
        by replace (Nat.min n s) with n by lia.
      * cbn [m_buffer]. rewrite app_assoc.
        apply list_lookup_total_middle. lia.
  - unfold r. rewrite RemoveIndex_unfold.
    destruct (Z.geb_spec idx (m_currentSize this)); [|lia].
    split; [done|]. split; [intros; lia|done].
Qed.


(** X15. [Insert] into a vector with room, at an index up to the size,
    returns [true] and puts the value before the element that was at that
    index; the elements before and behind keep their order.  With an index
    past the size it appends the value.  On a full vector it returns [false]
    and changes nothing. *)
Theorem StaticVector_Insert maxSize this idx value :
  0 < maxSize → maxSize < SIZE_MODULUS → wf maxSize this →
  0 ≤ idx → idx - (GetSize this).1 < SIZE_MODULUS - maxSize →
  let r := Insert maxSize idx value this in
  let n := Z.to_nat idx in
  wf maxSize r.2
  ∧ ((GetSize this).1 < maxSize →
     r.1 = true
     ∧ (GetSize r.2).1 = (GetSize this).1 + 1
     ∧ elements r.2 = take n (elements this) ++ value :: drop n (elements this))
  ∧ ((GetSize this).1 = maxSize → r = (false, this)).
Proof.
  intros Hpos Hfits Hwf Hidx Hfar r n. pose proof Hwf as [Hlen Hc].
  unfold GetSize, gets in *. cbn [fst] in *.
  set (s := Z.to_nat (m_currentSize this)).
  destruct (Z.lt_ge_cases (m_currentSize this) maxSize) as [Hlt|Hge].
  - destruct (Z.le_gt_cases idx (m_currentSize this)) as [Hin|Hout].
    + unfold r. rewrite (Insert_buffer maxSize) by (done || lia). cbn [fst snd].
      fold n s.
      assert (length (take n (m_buffer this)
                      ++ value :: drop n (take s (m_buffer this))) = S s) as Hl.
      { rewrite length_app, length_take. cbn. rewrite length_drop, length_take. lia. }
      split; [|split; [|intros; lia]].
      * constructor; cbn; [|lia].
        rewrite length_app, length_take. cbn.
        rewrite length_app, !length_drop, length_take. lia.
      * intros _. split; [done|]. split; [done|].
        replace (take n (m_buffer this) ++ value :: drop n (take s (m_buffer this))
                 ++ drop (S s) (m_buffer this))
          with ((take n (m_buffer this) ++ value :: drop n (take s (m_buffer this)))
                ++ drop (S s) (m_buffer this))
          by (by rewrite <- app_assoc).
        rewrite (elements_middle
                   (take n (m_buffer this) ++ value :: drop n (take s (m_buffer this))))
          by lia.
        unfold elements. fold s.
        rewrite take_take. by replace (Nat.min n s) with n by lia.
    + unfold r. rewrite (Insert_past_end maxSize) by (done || lia).
      rewrite Append_room by (done || lia). cbn [fst snd]. fold s.
      assert (length (take s (m_buffer this) ++ [value]) = S s) as Hl
        by (rewrite length_app, length_take; cbn; lia).
      split; [|split; [|intros; lia]].
      * constructor; cbn; [|lia].
        rewrite length_app, length_take. cbn. rewrite length_drop. lia.
      * intros _. split; [done|]. split; [done|].
        replace (take s (m_buffer this) ++ value :: drop (S s) (m_buffer this))
          with ((take s (m_buffer this) ++ [value]) ++ drop (S s) (m_buffer this))
          by (by rewrite <- app_assoc).
        rewrite (elements_middle (take s (m_buffer this) ++ [value])) by lia.
        unfold elements. fold s.
        rewrite (take_ge (take s (m_buffer this)) n), (drop_ge (take s (m_buffer this)) n)
          by (rewrite length_take; lia).
        done.
  - unfold r. rewrite Insert_unfold. cbn zeta. rewrite Append_full by lia.
    split; [done|]. split; [intros; lia|done].
Qed.

(** X16. Inserting a value at an index and then removing that index gives
    back the elements there were: [RemoveIndex] undoes [Insert].  The
    storage is not restored: the slot behind the last element, which
    [Insert] overwrote, holds [T{}] afterwards. *)
Theorem StaticVector_Insert_RemoveIndex maxSize this idx value :
  0 < maxSize → maxSize < SIZE_MODULUS → wf maxSize this →
  (GetSize this).1 < maxSize → 0 ≤ idx ≤ (GetSize this).1 →
  let inserted := (Insert maxSize idx value this).2 in
  let r := RemoveIndex idx inserted in
  r.1 = true
  ∧ elements r.2 = elements this
  ∧ (GetSize r.2).1 = (GetSize this).1
  ∧ m_buffer r.2 !!! Z.to_nat (GetSize this).1 = inhabitant.
Proof.
  intros Hpos Hfits Hwf Hroom Hidx inserted r. pose proof Hwf as [Hlen Hc].
  unfold GetSize, gets in *. cbn [fst] in *.
  unfold r, inserted. rewrite (Insert_buffer maxSize) by (done || lia). cbn [snd].
  set (n := Z.to_nat idx). set (s := Z.to_nat (m_currentSize this)).
  set (front := take n (m_buffer this) ++ value :: drop n (take s (m_buffer this))).
  assert (length front = S s) as Hl.
  { unfold front. rewrite length_app, length_take. cbn.
    rewrite length_drop, length_take. lia. }
  replace (take n (m_buffer this) ++ value :: drop n (take s (m_buffer this))
           ++ drop (S s) (m_buffer this))
    with (front ++ drop (S s) (m_buffer this))
    by (unfold front; by rewrite <- app_assoc).
  assert (wf maxSize (mkStaticVector (m_currentSize this + 1)
                        (front ++ drop (S s) (m_buffer this)))) as Hwf'.
  { constructor; cbn; [|lia]. rewrite length_app, length_drop. lia. }
  rewrite (RemoveIndex_buffer maxSize) by (done || (cbn; lia)).
  cbn [fst snd m_currentSize m_buffer]. fold n.
  replace (Z.to_nat (m_currentSize this + 1)) with (S s) by lia.
  rewrite (take_app_length' front _ (S s)) by (symmetry; exact Hl).
  rewrite (drop_app_length' front _ (S s)) by (symmetry; exact Hl).
  assert (take n (front ++ drop (S s) (m_buffer this)) = take n (m_buffer this)) as ->.
  { unfold front. rewrite <- app_assoc. apply take_app_length'.
    rewrite length_take. lia. }
  assert (drop (S n) front = drop n (take s (m_buffer this))) as ->.
  { unfold front.
    replace (take n (m_buffer this) ++ value :: drop n (take s (m_buffer this)))
      with ((take n (m_buffer this) ++ [value]) ++ drop n (take s (m_buffer this)))
      by (by rewrite <- app_assoc).
    apply drop_app_length'. rewrite length_app, length_take. cbn. lia. }
  assert (take n (m_buffer this) ++ drop n (take s (m_buffer this))
          = take s (m_buffer this)) as Hback.
  { rewrite <- (take_drop n (take s (m_buffer this))) at 2.
    rewrite take_take. by replace (Nat.min n s) with n by lia. }
  rewrite app_assoc, Hback.
  split; [done|]. split; [|split; [cbn; lia|]].
  - rewrite elements_middle by (rewrite length_take; lia). done.
  - cbn [m_buffer]. apply list_lookup_total_middle. rewrite length_take. lia.
Qed.

(** X17. [Clear] empties the vector whatever it held, and a vector that
    was cleared accepts [maxSize] elements again.  For an element type that
    is not trivially destructible every slot that held an element is reset
    to [T{}]; for a trivially destructible one the storage is left as it
    is. *)
Theorem StaticVector_Clear maxSize trivially_destructible this :
  0 < maxSize → maxSize < SIZE_MODULUS → wf maxSize this →
  let r := (Clear trivially_destructible this).2 in
  wf maxSize r
  ∧ elements r = []
  ∧ (IsEmpty r).1 = true
  ∧ (∀ i, (i < length (m_buffer this))%nat →
       m_buffer r !!! i =
         if trivially_destructible then m_buffer this !!! i
         else if bool_decide (i < Z.to_nat (GetSize this).1)%nat then inhabitant
              else m_buffer this !!! i).
Proof.
  intros Hpos Hfits Hwf r. pose proof Hwf as [Hlen Hc].
  unfold r. rewrite (Clear_buffer maxSize) by done. cbn [snd].
  unfold GetSize, IsEmpty, gets. cbn [fst m_currentSize m_buffer].
  set (s := Z.to_nat (m_currentSize this)).
  split; [|split; [done|split; [done|]]].
  - constructor; cbn; [|lia]. destruct trivially_destructible; [done|].
    rewrite length_app, length_replicate, length_drop. lia.
  - intros i Hi. destruct trivially_destructible; [done|].
    case_bool_decide as Hlt.
    + rewrite lookup_total_app_l by (rewrite length_replicate; lia).
      apply list_lookup_total_correct. by apply lookup_replicate_2.
    + rewrite lookup_total_app_r by (rewrite length_replicate; lia).
      rewrite length_replicate, lookup_total_drop. f_equal. lia.
Qed.

(** X18. Assignment from a vector of the same capacity copies the
    elements and the size; assignment from a vector of another capacity
    copies the leading [maxSize] elements when the other holds more than
    that, and all of them otherwise.  Slots past the new size keep what they
    held. *)
Theorem StaticVector_assignment maxSize otherSize this other same :
  0 < maxSize → maxSize < SIZE_MODULUS →
  wf maxSize this → wf otherSize other → wf maxSize same →
  let r := (assign_from maxSize other this).2 in
  let q := (assign same this).2 in
  wf maxSize r ∧ wf maxSize q
  ∧ elements q = elements same
  ∧ elements r = take (Z.to_nat maxSize) (elements other)
  ∧ (GetSize r).1 = Z.min maxSize (GetSize other).1
  ∧ (∀ i, (Z.to_nat (GetSize r).1 ≤ i)%nat → m_buffer r !!! i = m_buffer this !!! i).
Proof.
  intros Hpos Hfits Hwf Hwo Hws r q.
  pose proof Hwf as [Hlen Hc]. pose proof Hwo as [Hleno Hco].
  pose proof Hws as [Hlens Hcs].
  unfold r, q. rewrite (assign_from_buffer maxSize Hpos otherSize) by done.
  rewrite (assign_buffer maxSize) by done. cbn [snd].
  unfold GetSize, gets. cbn [fst m_currentSize m_buffer].
  set (n := Z.to_nat (Z.min maxSize (m_currentSize other))).
  set (k := Z.to_nat (m_currentSize same)).
  assert (length (take n (m_buffer other)) = n) as Hn by (rewrite length_take; lia).
  assert (length (take k (m_buffer same)) = k) as Hk by (rewrite length_take; lia).
  subst n k.
  split; [|split; [|split; [|split; [|split; [done|]]]]].
  - constructor; cbn; [|lia]. rewrite length_app, length_drop. lia.
  - constructor; cbn; [|lia]. rewrite length_app, length_drop. lia.
  - apply elements_middle. unfold elements. lia.
  - rewrite (elements_middle (take _ (m_buffer other))) by lia.
    unfold elements. rewrite take_take.
    f_equal. lia.
  - intros i Hi. rewrite lookup_total_app_r by lia.
    rewrite lookup_total_drop. f_equal. lia.
Qed.


End StaticVectorTheorems.

Section VectorToBuffer.
Context {T : Type} `{!Inhabited T} `{!EqDecision T}.
Context {MutexImpl_t : Type} `{!MutexImpl MutexImpl_t}.
Variables (size maxSize : Z).
Hypothesis size_pos : 0 < size.
Hypothesis size_fits : 2 * size < SIZE_MODULUS.
Hypothesis maxSize_pos : 0 < maxSize.
Hypothesis maxSize_fits : maxSize < SIZE_MODULUS.

(** X19. Pushing the range [begin(), end()) of a vector into a circular
    buffer appends the vector's elements, in the vector's order, behind the
    buffer's contents, as many of them as the buffer has room for; the call
    returns that number. *)
Theorem PushMany_from_StaticVector
    (v : StaticVector.StaticVector T) (this : CircularBuffer T MutexImpl_t) :
  StaticVector.wf maxSize v → invariant size this →
  let b := (StaticVector.begin v).1 in
  let e := (StaticVector.end_ v).1 in
  let n := Z.min (StaticVector.GetSize v).1
                 ((GetCapacity size this).1 - (GetCurrentSize this).1) in
  (PushMany size b e this).1 = n
  ∧ contents size (PushMany size b e this).2
    = contents size this ++ take (Z.to_nat n) (StaticVector.elements v)
  ∧ invariant size (PushMany size b e this).2.
Proof.
  intros Hv Hi b e n. pose proof Hi as [[_ _ _ Hc] _]. pose proof Hv as [_ Hvc].
  assert (it_range e b (StaticVector.elements v)) as Hr
    by (by apply (begin_end_elements maxSize)).
  assert (length (StaticVector.elements v)
          = Z.to_nat (StaticVector.m_currentSize v)) as Hl
    by (by apply (elements_length maxSize)).
  assert ((PushMany size b e this).1
          = Z.of_nat (taken size (StaticVector.elements v) (m_currentSize this))
          ∧ invariant size (PushMany size b e this).2
          ∧ contents size (PushMany size b e this).2
            = contents size this
              ++ take (taken size (StaticVector.elements v) (m_currentSize this))
                   (StaticVector.elements v)) as (Hn & Hi' & Hc')
    by (by apply PushMany_contents).
  assert (Z.of_nat (taken size (StaticVector.elements v) (m_currentSize this)) = n)
    as Hk.
  { unfold n, taken, GetCapacity, GetCurrentSize, StaticVector.GetSize, gets, ret.
    cbn [fst]. lia. }
  rewrite <- Hk, Nat2Z.id. done.
Qed.

End VectorToBuffer.

(** * The further properties on concrete objects *)

Section MoreConcrete.
Import Example.

(** X1 on capacities 4 and 2: the source holds [1; 2; 3], the target holds
    [9] and has room for one. *)
Lemma MoveTo_moves_oldest_witness :
  let this := (run 4 [CallPushMany [1; 2; 3]] (fresh 4)).2%nat in
  let target := (run 2 [CallPushOne 9] (fresh 2)).2%nat in
  (0 < 4 ∧ 2 * 4 < SIZE_MODULUS ∧ 0 < 2 ∧ 2 * 2 < SIZE_MODULUS
   ∧ invariant 4 this ∧ invariant 2 target)
  ∧ (let room := (GetCapacity 2 target).1 - (GetCurrentSize target).1 in
     let n := Z.min (GetCurrentSize this).1 room in
     let moved := MoveTo 4 2 target this in
     moved.1.1 = n
     ∧ contents 2 moved.1.2
       = contents 2 target ++ take (Z.to_nat n) (contents 4 this)
     ∧ invariant 2 moved.1.2
     ∧ (GetCurrentSize moved.2).1 + (GetCurrentSize moved.1.2).1
       = (GetCurrentSize this).1 + (GetCurrentSize target).1
     ∧ (GetCurrentSize moved.2).1 = (GetCurrentSize this).1 - n
     ∧ (m_readPtr this + n ≤ 4 →
        contents 4 moved.2 = drop (Z.to_nat n) (contents 4 this)))
  ∧ ((MoveTo 4 2 target this).1.1, contents 2 (MoveTo 4 2 target this).1.2,
     contents 4 (MoveTo 4 2 target this).2)
    = (1, [9; 1]%nat, [2; 3]%nat).
Proof.
  intros this target.
  assert (invariant 4 this) as Hi by (apply invariant_b_spec; by vm_compute).
  assert (invariant 2 target) as Hi2 by (apply invariant_b_spec; by vm_compute).
  split; [by repeat (split; [by vm_compute|])|]. split; [|by vm_compute].
  apply (MoveTo_moves_oldest 4 2 this target); (done || by vm_compute).
Defined.

(** X2 on the full buffer [wrapped4] (read cursor 3): [PopMany(3)] passes
    the last slot and leaves the read cursor at 2. *)
Lemma PopMany_effect_witness :
  let this := wrapped4 in
  (invariant 4 this ∧ 0 ≤ 3)
  ∧ (let n := Z.min 3 (m_currentSize this) in
     let after := (PopMany 4 3 this).2 in
     (PopMany 4 3 this).1 = n
     ∧ m_currentSize after = m_currentSize this - n
     ∧ (m_readPtr this + n ≤ 4 →
        invariant 4 after
        ∧ contents 4 after = drop (Z.to_nat n) (contents 4 this))
     ∧ (4 < m_readPtr this + n →
        m_readPtr after = (m_readPtr this + n) mod (4 + 1) + 1
        ∧ ¬ invariant 4 after))
  ∧ ((PopMany 4 3 this).1, m_readPtr this, m_readPtr (PopMany 4 3 this).2)
    = (3, 3, 2).
Proof.
  intros this.
  assert (invariant 4 this) as Hi by (apply invariant_b_spec; by vm_compute).
  split; [split; [done|lia]|]. split; [|by vm_compute].
  apply (PopMany_effect 4); (done || lia || by vm_compute).
Defined.

(** X3 after [PopMany(3)] on [wrapped4], which breaks the invariant. *)
Lemma cursors_index_the_array_witness :
  let this := (exec 4 (CallPopMany 3) wrapped4).2 in
  reachable 4 this
  ∧ (length (m_buffer this) = Z.to_nat (4 + 1)
     ∧ (Z.to_nat (m_readPtr this) < length (m_buffer this))%nat
     ∧ (Z.to_nat (m_writePtr this) < length (m_buffer this))%nat
     ∧ 0 ≤ m_readPtr this ∧ 0 ≤ m_writePtr this)
  ∧ invariant_b 4 this = false.
Proof.
  intros this.
  assert (reachable 4 this) as Hr.
  { apply reachable_exec, reachable_run. constructor; by vm_compute. }
  split; [done|]. split; [|by vm_compute].
  by apply (cursors_index_the_array 4 this).
Defined.

(** X4 on [wrapped4]: a push that is rejected, two pops, a [Clear] and
    two pushes. *)
Lemma invariant_kept_without_PopMany_witness :
  let cs := [CallPushMany [1; 2; 3]; CallPop; CallPeekAndPop 0; CallClear;
             CallPushOne 4; CallPushMany [5; 6]]%nat in
  (0 < 4 ∧ 2 * 4 < SIZE_MODULUS
   ∧ forallb no_PopMany cs = true ∧ invariant 4 wrapped4)
  ∧ invariant 4 (run 4 cs wrapped4).2
  ∧ contents 4 (run 4 cs wrapped4).2 = [4; 5; 6]%nat.
Proof.
  intros cs.
  assert (invariant 4 wrapped4) as Hi by (apply invariant_b_spec; by vm_compute).
  split; [by repeat (split; [by vm_compute|])|]. split; [|by vm_compute].
  apply (invariant_kept_without_PopMany 4); (done || by vm_compute).
Defined.


(** X6 on [wrapped4] after one [Pop]: room for one of the two elements
    offered. *)
Lemma PushMany_accepts_what_fits_witness :
  let this := (exec 4 CallPop wrapped4).2 in
  let xs := [8; 9]%nat in
  let b := seq_begin xs in
  let e := seq_end xs in
  (0 < 4 ∧ 2 * 4 < SIZE_MODULUS ∧ it_range e b xs ∧ invariant 4 this)
  ∧ (let room := (GetCapacity 4 this).1 - (GetCurrentSize this).1 in
     let n := Z.min (Z.of_nat (length xs)) room in
     (PushMany 4 b e this).1 = n
     ∧ contents 4 (PushMany 4 b e this).2
       = contents 4 this ++ take (Z.to_nat n) xs
     ∧ (GetCurrentSize (PushMany 4 b e this).2).1 = (GetCurrentSize this).1 + n
     ∧ invariant 4 (PushMany 4 b e this).2)
  ∧ ((PushMany 4 b e this).1, contents 4 (PushMany 4 b e this).2)
    = (1, [5; 6; 7; 8]%nat).
Proof.
  intros this xs b e.
  assert (invariant 4 this) as Hi by (apply invariant_b_spec; by vm_compute).
  assert (it_range e b xs) as Hr by apply seq_range.
  split; [by repeat (split; [by vm_compute|])|]. split; [|by vm_compute].
  apply (PushMany_accepts_what_fits 4); (done || by vm_compute).
Defined.

(** X7 on the full buffer [wrapped4]. *)
Lemma PushMany_rejected_witness :
  let this := wrapped4 in
  let xs := [8; 9]%nat in
  (4 ≤ (GetCurrentSize this).1 ∨ it_eq (seq_begin xs) (seq_end xs) = true)
  ∧ (PushMany 4 (seq_begin xs) (seq_end xs) this = (0, this)
     ∧ (4 ≤ (GetCurrentSize this).1 → PushOne 4 8%nat this = (false, this))).
Proof.
  intros this xs.
  assert (4 ≤ (GetCurrentSize this).1) as Hfull by (by vm_compute).
  split; [by left|].
  apply (PushMany_rejected 4). by left.
Defined.


(** X9 on the full buffer [wrapped4]: the iteration passes the last
    slot. *)
Lemma iteration_yields_contents_witness :
  let this := wrapped4 in
  (0 < 4 ∧ 2 * 4 < SIZE_MODULUS ∧ invariant 4 this)
  ∧ (it_range (end_ 4 this).1 (begin 4 this).1 (contents 4 this)
     ∧ Z.of_nat (length (contents 4 this)) = (GetCurrentSize this).1
     ∧ it_eq (begin 4 this).1 (end_ 4 this).1 = (IsEmpty this).1)
  ∧ (contents 4 this, m_readPtr this, m_writePtr this) = ([4; 5; 6; 7]%nat, 3, 2).
Proof.
  intros this.
  assert (invariant 4 this) as Hi by (apply invariant_b_spec; by vm_compute).
  split; [by repeat (split; [by vm_compute|])|]. split; [|by vm_compute].
  apply (iteration_yields_contents 4); (done || by vm_compute).
Defined.

(** X11 on the empty buffer [cleared1] of capacity 1. *)
Lemma stream_operators_round_trip_witness :
  let this := cleared1 in
  (0 < 1 ∧ 2 * 1 < SIZE_MODULUS ∧ invariant 1 this ∧ (IsEmpty this).1 = true)
  ∧ (let pushed := (operator_shl 1 5%nat this).2 in
     (operator_shr 1 0%nat pushed).1 = 5%nat
     ∧ (IsEmpty (operator_shr 1 0%nat pushed).2).1 = true
     ∧ operator_shr 1 0%nat this = (0%nat, this)).
Proof.
  intros this.
  assert (invariant 1 this) as Hi by (apply invariant_b_spec; by vm_compute).
  split; [by repeat (split; [by vm_compute|])|].
  apply (stream_operators_round_trip 1); (done || by vm_compute).
Defined.

End MoreConcrete.

(** * The properties of [StaticVector] on concrete vectors *)

Section StaticVectorConcrete.
Import StaticVector.

(** X12 on capacity 4 with three elements. *)
Lemma StaticVector_Append_witness :
  let this := mkStaticVector 3 [1; 2; 3; 0]%nat in
  (0 < 4 ∧ 4 < SIZE_MODULUS ∧ wf 4 this)
  ∧ (let r := Append 4 7%nat this in
     wf 4 r.2
     ∧ ((GetSize this).1 < (GetCapacity 4 this).1 →
        r.1 = true
        ∧ elements r.2 = elements this ++ [7%nat]
        ∧ (GetSize r.2).1 = (GetSize this).1 + 1
        ∧ (index true (GetSize this).1 r.2).1 = Some 7%nat)
     ∧ ((GetSize this).1 = (GetCapacity 4 this).1 → r = (false, this)))
  ∧ elements (Append 4 7%nat this).2 = [1; 2; 3; 7]%nat.
Proof.
  intros this.
  assert (wf 4 this) as Hwf by (constructor; by vm_compute).
  split; [by repeat (split; [by vm_compute|])|]. split; [|by vm_compute].
  apply (StaticVector_Append 4 this 7%nat true); (done || by vm_compute).
Defined.

(** X13 on capacity 4 with three elements: the one in the middle goes. *)
Lemma StaticVector_RemoveIndex_witness :
  let this := mkStaticVector 3 [1; 2; 3; 0]%nat in
  (0 < 4 ∧ 4 < SIZE_MODULUS ∧ wf 4 this ∧ 0 ≤ 1)
  ∧ (let r := RemoveIndex 1 this in
     wf 4 r.2
     ∧ (1 < (GetSize this).1 →
        r.1 = true
        ∧ elements r.2 = delete (Z.to_nat 1) (elements this)
        ∧ (GetSize r.2).1 = (GetSize this).1 - 1
        ∧ m_buffer r.2 !!! Z.to_nat ((GetSize this).1 - 1) = inhabitant)
     ∧ ((GetSize this).1 ≤ 1 → r = (false, this)))
  ∧ elements (RemoveIndex 1 this).2 = [1; 3]%nat.
Proof.
  intros this.
  assert (wf 4 this) as Hwf by (constructor; by vm_compute).
  split; [by repeat (split; [by vm_compute|])|]. split; [|by vm_compute].
  apply (StaticVector_RemoveIndex 4 this 1); (done || by vm_compute).
Defined.


(** X15 on capacity 4 with three elements: a value goes before the second
    one. *)
Lemma StaticVector_Insert_witness :
  let this := mkStaticVector 3 [1; 2; 3; 0]%nat in
  (0 < 4 ∧ 4 < SIZE_MODULUS ∧ wf 4 this ∧ 0 ≤ 1
   ∧ 1 - (GetSize this).1 < SIZE_MODULUS - 4)
  ∧ (let r := Insert 4 1 9%nat this in
     let n := Z.to_nat 1 in
     wf 4 r.2
     ∧ ((GetSize this).1 < 4 →
        r.1 = true
        ∧ (GetSize r.2).1 = (GetSize this).1 + 1
        ∧ elements r.2 = take n (elements this) ++ 9%nat :: drop n (elements this))
     ∧ ((GetSize this).1 = 4 → r = (false, this)))
  ∧ elements (Insert 4 1 9%nat this).2 = [1; 9; 2; 3]%nat.
Proof.
  intros this.
  assert (wf 4 this) as Hwf by (constructor; by vm_compute).
  split; [by repeat (split; [by vm_compute|])|]. split; [|by vm_compute].
  apply (StaticVector_Insert 4 this 1 9%nat); (done || by vm_compute).
Defined.

(** X16 on capacity 4 with three elements and a stale value in the last
    slot. *)
Lemma StaticVector_Insert_RemoveIndex_witness :
  let this := mkStaticVector 3 [1; 2; 3; 8]%nat in
  (0 < 4 ∧ 4 < SIZE_MODULUS ∧ wf 4 this ∧ (GetSize this).1 < 4
   ∧ 0 ≤ 1 ≤ (GetSize this).1)
  ∧ (let inserted := (Insert 4 1 9%nat this).2 in
     let r := RemoveIndex 1 inserted in
     r.1 = true
     ∧ elements r.2 = elements this
     ∧ (GetSize r.2).1 = (GetSize this).1
     ∧ m_buffer r.2 !!! Z.to_nat (GetSize this).1 = inhabitant)
  ∧ m_buffer (RemoveIndex 1 (Insert 4 1 9%nat this).2).2 = [1; 2; 3; 0]%nat.
Proof.
  intros this.
  assert (wf 4 this) as Hwf by (constructor; by vm_compute).
  split; [by repeat (split; [by vm_compute|])|]. split; [|by vm_compute].
  apply (StaticVector_Insert_RemoveIndex 4 this 1 9%nat); (done || by vm_compute).
Defined.

(** X17 on capacity 4 with three elements, for an element type that is
    not trivially destructible. *)
Lemma StaticVector_Clear_witness :
  let this := mkStaticVector 3 [1; 2; 3; 8]%nat in
  (0 < 4 ∧ 4 < SIZE_MODULUS ∧ wf 4 this)
  ∧ (let r := (Clear false this).2 in
     wf 4 r
     ∧ elements r = []
     ∧ (IsEmpty r).1 = true
     ∧ (∀ i, (i < length (m_buffer this))%nat →
          m_buffer r !!! i =
            if false then m_buffer this !!! i
            else if bool_decide (i < Z.to_nat (GetSize this).1)%nat then inhabitant
                 else m_buffer this !!! i))
  ∧ m_buffer (Clear false this).2 = [0; 0; 0; 8]%nat.
Proof.
  intros this.
  assert (wf 4 this) as Hwf by (constructor; by vm_compute).
  split; [by repeat (split; [by vm_compute|])|]. split; [|by vm_compute].
  apply (StaticVector_Clear 4 false this); (done || by vm_compute).
Defined.

(** X18 on capacity 4: assignment from a vector of capacity 6 that holds
    five elements, and from a vector of capacity 4 that holds two. *)
Lemma StaticVector_assignment_witness :
  let this := mkStaticVector 3 [1; 2; 3; 8]%nat in
  let other := mkStaticVector 5 [11; 12; 13; 14; 15; 0]%nat in
  let same := mkStaticVector 2 [21; 22; 0; 0]%nat in
  (0 < 4 ∧ 4 < SIZE_MODULUS ∧ wf 4 this ∧ wf 6 other ∧ wf 4 same)
  ∧ (let r := (assign_from 4 other this).2 in
     let q := (assign same this).2 in
     wf 4 r ∧ wf 4 q
     ∧ elements q = elements same
     ∧ elements r = take (Z.to_nat 4) (elements other)
     ∧ (GetSize r).1 = Z.min 4 (GetSize other).1
     ∧ (∀ i, (Z.to_nat (GetSize r).1 ≤ i)%nat →
          m_buffer r !!! i = m_buffer this !!! i))
  ∧ (elements (assign_from 4 other this).2, m_buffer (assign same this).2)
    = ([11; 12; 13; 14]%nat, [21; 22; 3; 8]%nat).
Proof.
  intros this other same.
  assert (wf 4 this) as Hwf by (constructor; by vm_compute).
  assert (wf 6 other) as Hwo by (constructor; by vm_compute).
  assert (wf 4 same) as Hws by (constructor; by vm_compute).
  split; [by repeat (split; [by vm_compute|])|]. split; [|by vm_compute].
  apply (StaticVector_assignment 4 6 this other same); (done || by vm_compute).
Defined.


End StaticVectorConcrete.

Section VectorToBufferConcrete.
Import Example.

(** X19: a vector holding [8; 9] pushed into [wrapped4] after one [Pop],
    where there is room for one element. *)
Lemma PushMany_from_StaticVector_witness :
  let v := StaticVector.mkStaticVector 2 [8; 9; 0; 0]%nat in
  let this := (exec 4 CallPop wrapped4).2 in
  (0 < 4 ∧ 2 * 4 < SIZE_MODULUS ∧ 0 < 4 ∧ 4 < SIZE_MODULUS
   ∧ StaticVector.wf 4 v ∧ invariant 4 this)
  ∧ (let b := (StaticVector.begin v).1 in
     let e := (StaticVector.end_ v).1 in
     let n := Z.min (StaticVector.GetSize v).1
                    ((GetCapacity 4 this).1 - (GetCurrentSize this).1) in
     (PushMany 4 b e this).1 = n
     ∧ contents 4 (PushMany 4 b e this).2
       = contents 4 this ++ take (Z.to_nat n) (StaticVector.elements v)
     ∧ invariant 4 (PushMany 4 b e this).2)
  ∧ contents 4 (PushMany 4 (StaticVector.begin v).1 (StaticVector.end_ v).1 this).2
    = [5; 6; 7; 8]%nat.
Proof.
  intros v this.
  assert (StaticVector.wf 4 v) as Hwf by (constructor; by vm_compute).
  assert (invariant 4 this) as Hi by (apply invariant_b_spec; by vm_compute).
  split; [by repeat (split; [by vm_compute|])|]. split; [|by vm_compute].
  apply (PushMany_from_StaticVector 4 4); (done || by vm_compute).
Defined.

End VectorToBufferConcrete.

(** * Properties of [StaticString] *)

Section CopyFacts.
Context {T : Type} `{!Inhabited T}.


End CopyFacts.

Section StaticStringBasics.
Import StaticString.
Variable maxSize : Z.
Hypothesis maxSize_pos : 0 < maxSize.
Hypothesis maxSize_fits : maxSize + 1 < SIZE_MODULUS.

Implicit Types (this other : StaticString) (l buffer initial : list ascii) (ch : ascii).

Lemma string_contents_middle l1 l2 c :
  c = Z.of_nat (length l1) → contents (mkStaticString c (l1 ++ l2)) = l1.
Proof. intros ->. unfold contents. cbn. by rewrite Nat2Z.id, take_app_length. Qed.

Lemma string_contents_length this :
  wf maxSize this → length (contents this) = Z.to_nat (m_currentSize this).
Proof. intros [Hlen Hc]. unfold contents. rewrite length_take. lia. Qed.

Lemma buffer_split this :
  wf maxSize this →
  m_buffer this = contents this ++ drop (Z.to_nat (m_currentSize this)) (m_buffer this).
Proof. intros _. unfold contents. by rewrite take_drop. Qed.

(** The characters a pointer to [l ++ zero :: rest] points to are those of
    [l] up to its first terminator. *)
Lemma c_str_app_zero l rest : c_str (l ++ zero :: rest) = c_str l.
Proof.
  induction l as [|c l IH]; cbn; [done|].
  case_bool_decide; [done|]. by rewrite IH.
Qed.

Lemma c_str_no_zero l : zero ∉ l → c_str l = l.
Proof.
  induction l as [|c l IH]; [done|]. intros [Hne Hnot]%not_elem_of_cons. cbn.
  case_bool_decide as Hc; [by subst|]. by rewrite IH.
Qed.

Lemma c_str_no_zero_inside l : zero ∉ c_str l.
Proof.
  induction l as [|c l IH]; cbn; [apply not_elem_of_nil|].
  case_bool_decide; [apply not_elem_of_nil|].
  apply not_elem_of_cons. split; [congruence|done].
Qed.

Lemma c_str_prefix l : c_str l `prefix_of` l.
Proof.
  induction l as [|c l IH]; cbn; [done|].
  case_bool_decide; [apply prefix_nil|by apply prefix_cons].
Qed.


(** *** Assignment and construction from characters *)






(** *** The [operator+=] overloads *)








(** *** Comparisons *)

Lemma string_contents_lookup this (i : nat) :
  wf maxSize this → (i < Z.to_nat (m_currentSize this))%nat →
  contents this !!! i = m_buffer this !!! i.
Proof.
  intros [Hlen Hc] Hi. unfold contents.
  apply list_lookup_total_correct. rewrite lookup_take_lt by done.
  apply list_lookup_lookup_total_lt. lia.
Qed.

Lemma drop_lookup_total (l : list ascii) (i : nat) :
  (i < length l)%nat → drop i l = l !!! i :: drop (S i) l.
Proof.
  intros Hi. destruct (lookup_lt_is_Some_2 l i Hi) as [x Hx].
  by rewrite (drop_S _ _ _ Hx), (list_lookup_total_correct _ _ _ Hx).
Qed.

Lemma take_S_lookup_total (l : list ascii) (i : nat) :
  (i < length l)%nat → take (S i) l = take i l ++ [l !!! i].
Proof.
  intros Hi. destruct (lookup_lt_is_Some_2 l i Hi) as [x Hx].
  by rewrite (take_S_r _ _ _ Hx), (list_lookup_total_correct _ _ _ Hx).
Qed.

Lemma operator_eq_loop_S fuel i other this :
  operator_eq_loop (S fuel) i other this =
    if i <? m_currentSize this then
      if negb (bool_decide (m_buffer this !!! Z.to_nat i
                            = m_buffer other !!! Z.to_nat i))
      then (false, this)
      else operator_eq_loop fuel (size_t (i + 1)) other this
    else (true, this).
Proof.
  cbn [operator_eq_loop]. unfold bind, gets, ret.
  destruct (_ <? _); [|done]. by destruct (negb _).
Qed.

Lemma operator_eq_loop_decides otherSize fuel i other this :
  wf maxSize this → wf otherSize other →
  m_currentSize this = m_currentSize other →
  0 ≤ i → Z.of_nat fuel = m_currentSize this - i →
  operator_eq_loop fuel i other this
  = (bool_decide (drop (Z.to_nat i) (contents this)
                  = drop (Z.to_nat i) (contents other)), this).
Proof.
  intros Hwf Hwo Hsz. pose proof Hwf as [Hlen Hc]. pose proof Hwo as [Hleno Hco].
  pose proof (string_contents_length this Hwf) as Hl.
  assert (length (contents other) = Z.to_nat (m_currentSize other)) as Hlo
    by (unfold contents; rewrite length_take; lia).
  revert i. induction fuel as [|fuel IH]; intros i Hi Hf.
  - cbn. rewrite !drop_ge by lia. by rewrite bool_decide_eq_true_2.
  - rewrite operator_eq_loop_S.
    destruct (Z.ltb_spec i (m_currentSize this)); [|lia].
    rewrite (drop_lookup_total (contents this)) by lia.
    rewrite (drop_lookup_total (contents other)) by lia.
    rewrite string_contents_lookup by (done || lia).
    assert (contents other !!! Z.to_nat i = m_buffer other !!! Z.to_nat i) as ->.
    { unfold contents. apply list_lookup_total_correct.
      rewrite lookup_take_lt by lia. apply list_lookup_lookup_total_lt. lia. }
    case_bool_decide as Heq; cbn [negb].
    + rewrite size_t_small by lia. rewrite IH by lia.
      replace (Z.to_nat (i + 1)) with (S (Z.to_nat i)) by lia.
      f_equal. apply bool_decide_ext. rewrite Heq. split; [by intros ->|].
      by intros [= ?].
    + f_equal. symmetry. apply bool_decide_eq_false_2. by intros [= ? ?].
Qed.

Lemma operator_eq_decides otherSize other this :
  wf maxSize this → wf otherSize other →
  operator_eq other this = (bool_decide (contents this = contents other), this).
Proof.
  intros Hwf Hwo. pose proof Hwf as [Hlen Hc]. pose proof Hwo as [Hleno Hco].
  unfold operator_eq, bind, gets. cbn [fst snd].
  destruct (Z.eqb_spec (m_currentSize this) (m_currentSize other)) as [Heq|Hne];
    cbn [negb].
  - rewrite (operator_eq_loop_decides otherSize) by (done || lia).
    change (Z.to_nat 0) with 0%nat. by rewrite !drop_0.
  - unfold ret. f_equal. symmetry. apply bool_decide_eq_false_2. intros Hcont.
    apply (f_equal length) in Hcont. unfold contents in Hcont.
    rewrite !length_take in Hcont. lia.
Qed.

Lemma StartsWith_loop_S fuel i other this :
  StartsWith_loop (S fuel) i other this =
    if i <? m_currentSize other then
      if negb (bool_decide (m_buffer this !!! Z.to_nat i
                            = m_buffer other !!! Z.to_nat i))
      then (false, this)
      else StartsWith_loop fuel (size_t (i + 1)) other this
    else (true, this).
Proof.
  cbn [StartsWith_loop]. unfold bind, gets, ret.
  destruct (_ <? _); [|done]. by destruct (negb _).
Qed.

Lemma StartsWith_loop_decides otherSize fuel i other this :
  wf maxSize this → wf otherSize other →
  m_currentSize other ≤ m_currentSize this →
  0 ≤ i → Z.of_nat fuel = m_currentSize other - i →
  StartsWith_loop fuel i other this
  = (bool_decide (drop (Z.to_nat i) (take (Z.to_nat (m_currentSize other))
                                       (contents this))
                  = drop (Z.to_nat i) (contents other)), this).
Proof.
  intros Hwf Hwo Hsz. pose proof Hwf as [Hlen Hc]. pose proof Hwo as [Hleno Hco].
  pose proof (string_contents_length this Hwf) as Hl.
  assert (length (contents other) = Z.to_nat (m_currentSize other)) as Hlo
    by (unfold contents; rewrite length_take; lia).
  set (front := take (Z.to_nat (m_currentSize other)) (contents this)).
  assert (length front = Z.to_nat (m_currentSize other)) as Hlf
    by (unfold front; rewrite length_take; lia).
  revert i. induction fuel as [|fuel IH]; intros i Hi Hf.
  - cbn. rewrite !drop_ge by lia. by rewrite bool_decide_eq_true_2.
  - rewrite StartsWith_loop_S.
    destruct (Z.ltb_spec i (m_currentSize other)); [|lia].
    rewrite (drop_lookup_total front) by lia.
    rewrite (drop_lookup_total (contents other)) by lia.
    assert (front !!! Z.to_nat i = m_buffer this !!! Z.to_nat i) as ->.
    { unfold front, contents. rewrite take_take.
      apply list_lookup_total_correct.
      rewrite lookup_take_lt by lia. apply list_lookup_lookup_total_lt. lia. }
    assert (contents other !!! Z.to_nat i = m_buffer other !!! Z.to_nat i) as ->.
    { unfold contents. apply list_lookup_total_correct.
      rewrite lookup_take_lt by lia. apply list_lookup_lookup_total_lt. lia. }
    case_bool_decide as Heq; cbn [negb].
    + rewrite size_t_small by lia. rewrite IH by lia.
      replace (Z.to_nat (i + 1)) with (S (Z.to_nat i)) by lia.
      f_equal. apply bool_decide_ext. rewrite Heq. split; [by intros ->|].
      by intros [= ?].
    + f_equal. symmetry. apply bool_decide_eq_false_2. by intros [= ? ?].
Qed.

Lemma prefix_take (l1 l2 : list ascii) :
  l1 `prefix_of` l2 ↔ take (length l1) l2 = l1.
Proof.
  split.
  - intros [k ->]. by rewrite take_app_length.
  - intros <-. apply prefix_take.
Qed.

Lemma suffix_drop (l1 l2 : list ascii) :
  l1 `suffix_of` l2 ↔
  (length l1 ≤ length l2)%nat ∧ drop (length l2 - length l1) l2 = l1.
Proof.
  split.
  - intros [k ->]. rewrite length_app. split; [lia|].
    replace (length k + length l1 - length l1)%nat with (length k) by lia.
    by rewrite drop_app_length.
  - intros [_ <-]. apply suffix_drop.
Qed.

Lemma StartsWith_decides otherSize other this :
  wf maxSize this → wf otherSize other →
  StartsWith other this
  = (bool_decide (contents other `prefix_of` contents this), this).
Proof.
  intros Hwf Hwo. pose proof Hwf as [Hlen Hc]. pose proof Hwo as [Hleno Hco].
  pose proof (string_contents_length this Hwf) as Hl.
  assert (length (contents other) = Z.to_nat (m_currentSize other)) as Hlo
    by (unfold contents; rewrite length_take; lia).
  unfold StartsWith, bind, gets. cbn [fst snd].
  destruct (Z.gtb_spec (m_currentSize other) (m_currentSize this)) as [Hgt|Hle].
  - unfold ret. f_equal. symmetry. apply bool_decide_eq_false_2.
    intros Hp%prefix_length. lia.
  - rewrite (StartsWith_loop_decides otherSize) by (done || lia).
    f_equal. apply bool_decide_ext. change (Z.to_nat 0) with 0%nat.
    rewrite !drop_0, prefix_take, Hlo. done.
Qed.


Lemma to_int_small x : - 2 ^ 31 ≤ x < 2 ^ 31 → to_int x = x.
Proof.
  intros Hx. unfold to_int, to_T, INT_WIDTH. cbn [int_signed int_bits].
  change (32 - 1) with 31. rewrite Z.mod_small; lia.
Qed.

Lemma to_int_pred c : 0 ≤ c < 2 ^ 31 → to_int (size_t (c - 1)) = c - 1.
Proof.
  intros Hc. destruct (decide (c = 0)) as [->|Hne]; [by vm_compute|].
  rewrite size_t_small by (unfold SIZE_MODULUS, SIZE_WIDTH; lia).
  apply to_int_small. lia.
Qed.

Lemma EndsWith_loop_S fuel i j other this :
  EndsWith_loop (S fuel) i j other this =
    if j >=? 0 then
      if negb (bool_decide (m_buffer this !!! Z.to_nat (size_t i)
                            = m_buffer other !!! Z.to_nat (size_t j)))
      then (false, this)
      else EndsWith_loop fuel (to_int (i - 1)) (to_int (j - 1)) other this
    else (true, this).
Proof.
  cbn [EndsWith_loop]. unfold bind, gets, ret.
  destruct (_ >=? _); [|done]. by destruct (negb _).
Qed.

Lemma EndsWith_loop_decides otherSize fuel i j other this :
  wf maxSize this → wf otherSize other → maxSize < 2 ^ 31 →
  m_currentSize other ≤ m_currentSize this →
  -1 ≤ j < m_currentSize other → Z.of_nat fuel = j + 1 →
  i = j + (m_currentSize this - m_currentSize other) →
  EndsWith_loop fuel i j other this
  = (bool_decide
       (take fuel (drop (Z.to_nat (m_currentSize this - m_currentSize other))
                     (contents this))
        = take fuel (contents other)), this).
Proof.
  intros Hwf Hwo Hint Hsz. pose proof Hwf as [Hlen Hc]. pose proof Hwo as [Hleno Hco].
  pose proof (string_contents_length this Hwf) as Hl.
  assert (length (contents other) = Z.to_nat (m_currentSize other)) as Hlo
    by (unfold contents; rewrite length_take; lia).
  set (d := Z.to_nat (m_currentSize this - m_currentSize other)).
  assert (length (drop d (contents this)) = Z.to_nat (m_currentSize other)) as Hld
    by (rewrite length_drop; lia).
  revert i j. induction fuel as [|fuel IH]; intros i j Hj Hf Hi.
  - cbn. by rewrite bool_decide_eq_true_2.
  - rewrite EndsWith_loop_S. destruct (Z.geb_spec j 0); [|lia].
    rewrite !size_t_small by (unfold SIZE_MODULUS, SIZE_WIDTH; lia).
    rewrite !to_int_small by lia.
    rewrite (take_S_lookup_total (drop d (contents this))) by lia.
    rewrite (take_S_lookup_total (contents other)) by lia.
    assert (drop d (contents this) !!! fuel = m_buffer this !!! Z.to_nat i) as ->.
    { rewrite lookup_total_drop. replace (d + fuel)%nat with (Z.to_nat i) by lia.
      apply string_contents_lookup; [done|lia]. }
    assert (contents other !!! fuel = m_buffer other !!! Z.to_nat j) as ->.
    { replace fuel with (Z.to_nat j) by lia. unfold contents.
      apply list_lookup_total_correct.
      rewrite lookup_take_lt by lia. apply list_lookup_lookup_total_lt. lia. }
    destruct (decide (m_buffer this !!! Z.to_nat i = m_buffer other !!! Z.to_nat j))
      as [Heq|Hne].
    + rewrite (bool_decide_eq_true_2 _ Heq). cbn [negb].
      rewrite IH by lia. f_equal. apply bool_decide_ext. rewrite Heq.
      split; [by intros ->|]. by intros [? _]%app_inj_tail.
    + rewrite (bool_decide_eq_false_2 _ Hne). cbn [negb].
      f_equal. symmetry. apply bool_decide_eq_false_2.
      by intros [_ ?]%app_inj_tail.
Qed.

Lemma EndsWith_decides otherSize other this :
  wf maxSize this → wf otherSize other → maxSize < 2 ^ 31 →
  EndsWith other this
  = (bool_decide (contents other `suffix_of` contents this), this).
Proof.
  intros Hwf Hwo Hint. pose proof Hwf as [Hlen Hc]. pose proof Hwo as [Hleno Hco].
  pose proof (string_contents_length this Hwf) as Hl.
  assert (length (contents other) = Z.to_nat (m_currentSize other)) as Hlo
    by (unfold contents; rewrite length_take; lia).
  unfold EndsWith, bind, gets. cbn [fst snd].
  destruct (Z.gtb_spec (m_currentSize other) (m_currentSize this)) as [Hgt|Hle].
  - unfold ret. f_equal. symmetry. apply bool_decide_eq_false_2.
    intros Hp%suffix_length. lia.
  - rewrite !to_int_pred by lia.
    rewrite (EndsWith_loop_decides otherSize) by (done || lia).
    f_equal. apply bool_decide_ext.
    replace (Z.to_nat (m_currentSize other - 1 + 1)) with (length (contents other))
      by lia.
    rewrite firstn_all.
    rewrite take_ge by (rewrite length_drop; lia).
    rewrite suffix_drop.
    replace (length (contents this) - length (contents other))%nat
      with (Z.to_nat (m_currentSize this - m_currentSize other)) by lia.
    split; [intros ->; split; [lia|done]|by intros [_ ?]].
Qed.


(** *** [Skip], [Truncate] and [ToCStr] *)

Lemma Skip_loop_S fuel i characters this :
  Skip_loop (S fuel) i characters this =
    if i <=? size_t (m_currentSize this - characters) then
      Skip_loop fuel (size_t (i + 1)) characters
        (set_buffer
           (λ b, <[Z.to_nat i := b !!! Z.to_nat (size_t (i + characters))]> b) this)
    else (tt, this).
Proof.
  cbn [Skip_loop]. unfold bind, gets, modify, ret. by destruct (_ <=? _).
Qed.

(** The loop of [Skip] moves the characters to the front one by one: with
    [done] the part already moved and [rest] the part from [i] on, it leaves
    [done], then the [fuel] characters of [rest] from offset [characters]
    on, then [rest] from offset [fuel] on. *)
Lemma Skip_loop_shifts fuel i (characters : nat) done rest c :
  i = Z.of_nat (length done) → (0 < characters)%nat →
  Z.of_nat fuel = c - Z.of_nat characters + 1 - i →
  Z.of_nat characters ≤ c ≤ maxSize →
  (characters + fuel ≤ length rest)%nat →
  Skip_loop fuel i (Z.of_nat characters) (mkStaticString c (done ++ rest))
  = (tt, mkStaticString c
           (done ++ take fuel (drop characters rest) ++ drop fuel rest)).
Proof.
  revert i done rest.
  induction fuel as [|fuel IH]; intros i done rest Hi Hk Hf Hc Hlen.
  - cbn. by rewrite take_0, drop_0.
  - rewrite Skip_loop_S. cbn [m_currentSize].
    rewrite !size_t_small by lia.
    destruct (Z.leb_spec i (c - Z.of_nat characters)); [|lia].
    unfold set_buffer. cbn [m_currentSize m_buffer].
    destruct rest as [|y rest]; [cbn in Hlen; lia|].
    replace (Z.to_nat i) with (length done) by lia.
    rewrite (insert_middle done rest y) by done.
    replace (Z.to_nat (i + Z.of_nat characters))
      with (length done + characters)%nat by lia.
    rewrite lookup_total_app_r by lia.
    replace (length done + characters - length done)%nat with characters by lia.
    destruct characters as [|k]; [lia|]. cbn [lookup_total list_lookup_total drop].
    cbn [length] in Hlen.
    set (x := rest !!! k).
    replace (done ++ x :: rest) with ((done ++ [x]) ++ rest)
      by (by rewrite <- app_assoc).
    rewrite (IH (i + 1) (done ++ [x]) rest);
      [|rewrite length_app; cbn; lia|lia|lia|lia|lia].
    do 2 f_equal. rewrite <- app_assoc. cbn [app]. do 2 f_equal.
    rewrite (drop_lookup_total rest k) by lia. fold x. done.
Qed.

Lemma Skip_unfold characters this :
  Skip characters this =
    if characters >? m_currentSize this then (false, this)
    else if characters =? m_currentSize this then (true, set_currentSize 0 this)
    else
      (true,
       set_currentSize (size_t (m_currentSize this - characters))
         (Skip_loop (Z.to_nat (m_currentSize this - characters + 1)) 0 characters
            this).2).
Proof.
  unfold Skip, Clear, bind, gets, modify, ret. cbn [fst snd].
  destruct (_ >? _); [done|]. destruct (_ =? _); [done|].
  by destruct (Skip_loop _ _ _ _) as [[] ?].
Qed.

Lemma Skip_loop_zero fuel i this :
  0 ≤ i → i + Z.of_nat fuel < SIZE_MODULUS →
  Skip_loop fuel i 0 this = (tt, this).
Proof.
  revert i. induction fuel as [|fuel IH]; intros i Hi Hf; [done|].
  rewrite Skip_loop_S. destruct (_ <=? _); [|done].
  rewrite Z.add_0_r, !size_t_small by lia. unfold set_buffer.
  rewrite list_insert_id'
    by (intros ?; by apply list_lookup_lookup_total_lt).
  destruct this as [c buf]. cbn [m_currentSize m_buffer]. apply IH; lia.
Qed.

Lemma Skip_contents characters this :
  wf maxSize this → 0 ≤ characters ≤ m_currentSize this →
  (Skip characters this).1 = true
  ∧ contents (Skip characters this).2
    = drop (Z.to_nat characters) (contents this)
  ∧ wf maxSize (Skip characters this).2.
Proof.
  intros Hwf Hk. pose proof Hwf as [Hlen Hc].
  pose proof (string_contents_length this Hwf) as Hl.
  rewrite Skip_unfold.
  destruct (Z.gtb_spec characters (m_currentSize this)); [lia|].
  destruct (Z.eqb_spec characters (m_currentSize this)) as [Heq|Hne].
  - cbn [fst snd]. split; [done|]. split.
    + rewrite drop_ge by lia. done.
    + constructor; cbn; [done|lia].
  - cbn [fst snd]. split; [done|].
    rewrite size_t_small by lia.
    destruct (decide (characters = 0)) as [->|Hpos].
    + rewrite Skip_loop_zero by lia. cbn [snd]. rewrite Z.sub_0_r. split.
      * by destruct this.
      * constructor; cbn; [done|lia].
    + destruct this as [c buf]. cbn [m_currentSize m_buffer] in *.
      pose proof (Skip_loop_shifts (Z.to_nat (c - characters + 1)) 0
                    (Z.to_nat characters) [] buf c) as Hloop.
      rewrite !Z2Nat.id in Hloop by lia. cbn [app] in Hloop.
      rewrite Hloop; [|done|lia|lia|lia|lia]. cbn [snd]. unfold set_currentSize.
      cbn [m_buffer].
      set (m := Z.to_nat (c - characters + 1)).
      assert (length (take m (drop (Z.to_nat characters) buf)) = m) as Hm
        by (rewrite length_take, length_drop; lia).
      split.
      * unfold contents. cbn [m_currentSize m_buffer].
        rewrite take_app_le by lia. rewrite take_take.
        replace (Nat.min (Z.to_nat (c - characters)) m)
          with (Z.to_nat (c - characters)) by lia.
        rewrite take_drop_commute. do 2 f_equal. lia.
      * constructor; cbn; [|lia].
        rewrite length_app, Hm, length_drop. lia.
Qed.

Lemma Skip_rejected characters this :
  m_currentSize this < characters → Skip characters this = (false, this).
Proof.
  intros Hgt. rewrite Skip_unfold.
  by destruct (Z.gtb_spec characters (m_currentSize this)); [|lia].
Qed.

(** The loop of [Skip] reads and writes within the array: checked, it
    returns what it returns unchecked. *)
Lemma Skip_loop_checked_agrees fuel i characters this :
  0 ≤ i → 0 ≤ characters →
  i + Z.of_nat fuel + characters ≤ Z.of_nat (length (m_buffer this)) →
  Z.of_nat (length (m_buffer this)) < SIZE_MODULUS →
  Skip_loop_checked fuel i characters this
  = Some (Skip_loop fuel i characters this).2.
Proof.
  revert i this. induction fuel as [|fuel IH]; intros i this Hi Hk Hfit Hlen; [done|].
  rewrite Skip_loop_S. cbn [Skip_loop_checked].
  destruct (i <=? size_t (m_currentSize this - characters)); [|done].
  rewrite !size_t_small by lia.
  rewrite (list_lookup_lookup_total_lt (m_buffer this) (Z.to_nat (i + characters)))
    by lia.
  rewrite (list_lookup_lookup_total_lt (m_buffer this) (Z.to_nat i)) by lia.
  unfold set_buffer. apply IH; cbn [m_buffer]; rewrite ?length_insert; lia.
Qed.

Lemma Skip_checked_agrees characters this :
  wf maxSize this → 0 ≤ characters →
  Skip_checked characters this = Some (Skip characters this).
Proof.
  intros [Hlen Hc] Hk. unfold Skip_checked. rewrite Skip_unfold.
  destruct (Z.gtb_spec characters (m_currentSize this)); [done|].
  destruct (Z.eqb_spec characters (m_currentSize this)); [done|].
  by rewrite Skip_loop_checked_agrees by lia.
Qed.

Lemma Truncate_unfold length_ this :
  Truncate length_ this =
    if length_ >=? m_currentSize this then (false, this)
    else (true, set_currentSize length_ this).
Proof. unfold Truncate, bind, gets, modify, ret. by destruct (_ >=? _). Qed.

Lemma ToCStr_unfold this :
  ToCStr this =
    let b := <[Z.to_nat (m_currentSize this) := zero]> (m_buffer this) in
    (b, mkStaticString (m_currentSize this) b).
Proof. done. Qed.

End StaticStringBasics.

Section Numerals.
Import StaticString.

Implicit Types (T : int_type) (l cs : list ascii).

Lemma to_T_small T x : 0 < int_bits T → T_min T ≤ x ≤ T_max T → to_T T x = x.
Proof.
  unfold T_min, T_max, to_T. intros Hb Hx.
  assert (2 ^ int_bits T = 2 * 2 ^ (int_bits T - 1)) as Hpow.
  { rewrite <- Z.pow_succ_r by lia. f_equal. lia. }
  assert (0 < 2 ^ (int_bits T - 1)) by (apply Z.pow_pos_nonneg; lia).
  destruct (int_signed T).
  - rewrite Z.mod_small by lia. lia.
  - apply Z.mod_small. lia.
Qed.

Lemma to_unsigned_small T x : 0 ≤ x < 2 ^ int_bits T → to_unsigned T x = x.
Proof. apply Z.mod_small. Qed.

Lemma T_max_lt T : 0 < int_bits T → 0 ≤ T_max T < 2 ^ int_bits T.
Proof.
  unfold T_max. intros Hb.
  assert (2 ^ int_bits T = 2 * 2 ^ (int_bits T - 1)) as Hpow.
  { rewrite <- Z.pow_succ_r by lia. f_equal. lia. }
  assert (0 < 2 ^ (int_bits T - 1)) by (apply Z.pow_pos_nonneg; lia).
  destruct (int_signed T); lia.
Qed.

(** The ten digits. *)
Lemma digit_cases d :
  0 ≤ d < 10 →
  d = 0 ∨ d = 1 ∨ d = 2 ∨ d = 3 ∨ d = 4 ∨ d = 5 ∨ d = 6 ∨ d = 7 ∨ d = 8 ∨ d = 9.
Proof. lia. Qed.

Lemma isdigit_digit d : 0 ≤ d < 10 → isdigit (digit d) = true.
Proof.
  intros Hd. destruct (digit_cases d Hd) as [->|[->|[->|[->|[->|[->|[->|[->|[->| ->]]]]]]]]];
    by vm_compute.
Qed.

Lemma code_digit d : 0 ≤ d < 10 → code (digit d) - code "0" = d.
Proof.
  intros Hd. destruct (digit_cases d Hd) as [->|[->|[->|[->|[->|[->|[->|[->|[->| ->]]]]]]]]];
    by vm_compute.
Qed.

Lemma digit_not_minus d : 0 ≤ d < 10 → digit d ≠ "-"%char.
Proof.
  intros Hd. destruct (digit_cases d Hd) as [->|[->|[->|[->|[->|[->|[->|[->|[->| ->]]]]]]]]];
    by vm_compute.
Qed.

Lemma isdigit_minus : isdigit "-" = false.
Proof. by vm_compute. Qed.

(** The table [DIGITS] holds, for every [p] below 100, the tens digit of
    [p] at [2 * p] and its units digit at [2 * p + 1]. *)
Lemma DIGITS_table p :
  0 ≤ p < 100 →
  DIGITS !!! Z.to_nat (p * 2) = digit (p / 10)
  ∧ DIGITS !!! Z.to_nat (p * 2 + 1) = digit (p mod 10).
Proof.
  intros Hp.
  assert (Forall (λ p, DIGITS !!! Z.to_nat (p * 2) = digit (p / 10)
                       ∧ DIGITS !!! Z.to_nat (p * 2 + 1) = digit (p mod 10))
            (seqZ 0 100)) as Hall.
  { apply (bool_decide_unpack _). by vm_compute. }
  rewrite Forall_forall in Hall. apply Hall, elem_of_seqZ. lia.
Qed.

(** *** The decimal digits of a number *)

Lemma decimal_digits_S fuel n :
  decimal_digits (S fuel) n =
    if n <? 10 then [digit n]
    else decimal_digits fuel (n / 10) ++ [digit (n mod 10)].
Proof. done. Qed.

Lemma decimal_digits_enough f1 f2 n :
  0 ≤ n < 2 ^ Z.of_nat (S f1) → n < 2 ^ Z.of_nat (S f2) →
  decimal_digits (S f1) n = decimal_digits (S f2) n.
Proof.
  revert f2 n. induction f1 as [|f1 IH]; intros f2 n Hn1 Hn2.
  - rewrite !decimal_digits_S. destruct (Z.ltb_spec n 10); [done|].
    change (2 ^ Z.of_nat 1) with 2 in Hn1. lia.
  - rewrite (decimal_digits_S (S f1)), (decimal_digits_S f2).
    destruct (Z.ltb_spec n 10); [done|]. f_equal.
    destruct f2 as [|f2]; [change (2 ^ Z.of_nat 1) with 2 in Hn2; lia|].
    rewrite Nat2Z.inj_succ, Z.pow_succ_r in Hn1, Hn2 by lia.
    apply IH.
    + split; [apply Z.div_pos; lia|]. apply Z.div_lt_upper_bound; lia.
    + apply Z.div_lt_upper_bound; lia.
Qed.

Lemma log2_fuel n : 0 ≤ n → n < 2 ^ Z.of_nat (S (Z.to_nat (Z.log2 n))).
Proof.
  intros Hn. destruct (decide (n = 0)) as [->|Hne]; [by vm_compute|].
  pose proof (Z.log2_nonneg n). rewrite Nat2Z.inj_succ, Z2Nat.id by done.
  apply Z.log2_spec. lia.
Qed.

(** The digits of [n]: the digits of [n / 10], then the last digit. *)
Lemma decimal_digits_unfold n :
  0 ≤ n →
  decimal_digits (S (Z.to_nat (Z.log2 n))) n
  = if n <? 10 then [digit n]
    else decimal_digits (S (Z.to_nat (Z.log2 (n / 10)))) (n / 10)
         ++ [digit (n mod 10)].
Proof.
  intros Hn. rewrite decimal_digits_S. destruct (Z.ltb_spec n 10); [done|].
  f_equal. pose proof (log2_fuel n Hn) as Hf.
  assert (0 ≤ n / 10) as Hq by (apply Z.div_pos; lia).
  pose proof (log2_fuel (n / 10) Hq) as Hfq.
  assert (3 ≤ Z.log2 n) as Hl by (apply Z.log2_le_pow2; lia).
  destruct (Z.to_nat (Z.log2 n)) as [|f] eqn:Hlog; [lia|].
  apply decimal_digits_enough; [|done].
  split; [done|]. rewrite Nat2Z.inj_succ, Z.pow_succ_r in Hf by lia.
  apply Z.div_lt_upper_bound; lia.
Qed.

Lemma decimal_digits_nonempty n :
  (0 < length (decimal_digits (S (Z.to_nat (Z.log2 n))) n))%nat.
Proof.
  rewrite decimal_digits_S. destruct (_ <? _); [cbn; lia|].
  rewrite length_app. cbn. lia.
Qed.

(** Induction on a natural number by its decimal digits. *)
Lemma decimal_ind (P : Z → Prop) :
  (∀ n, 0 ≤ n < 10 → P n) →
  (∀ n, 10 ≤ n → P (n / 10) → P n) →
  ∀ n, 0 ≤ n → P n.
Proof.
  intros Hbase Hstep. apply Zlt_0_ind. intros n IH Hn.
  destruct (Z.lt_ge_cases n 10) as [Hlt|Hge].
  - apply Hbase. lia.
  - apply Hstep; [done|]. apply IH.
    split; [apply Z.div_pos; lia|apply Z.div_lt; lia].
Qed.


Lemma decimal_digits_all_digits n :
  0 ≤ n →
  Forall (λ c, isdigit c = true) (decimal_digits (S (Z.to_nat (Z.log2 n))) n).
Proof.
  revert n. apply decimal_ind.
  - intros n Hn. rewrite decimal_digits_unfold by lia.
    destruct (Z.ltb_spec n 10); [|lia].
    apply Forall_singleton, isdigit_digit. lia.
  - intros n Hn IH. rewrite decimal_digits_unfold by lia.
    destruct (Z.ltb_spec n 10); [lia|].
    apply Forall_app. split; [done|].
    apply Forall_singleton, isdigit_digit. apply Z.mod_pos_bound. lia.
Qed.

(** *** [ToInteger] *)

Lemma ToInteger_loop_S T fuel (it e : Ptr ascii) value negative first :
  ToInteger_loop T (S fuel) it e value negative first =
    if negb (it_eq it e) then
      if isdigit (deref it) then
        ToInteger_loop T fuel (incr it) e
          (to_T T (to_T T (value * 10) + (code (deref it) - code "0")))
          negative false
      else if first && bool_decide (deref it = "-"%char) then
        ToInteger_loop T fuel (incr it) e value true false
      else 0
    else to_T T (value * (if negative then -1 else 1)).
Proof. done. Qed.

(** Over a range of digits the loop accumulates their value. *)
Lemma ToInteger_loop_digits T cs pre post value negative first :
  Forall (λ c, isdigit c = true) cs →
  ToInteger_loop T (length cs)
    (mkPtr (pre ++ cs ++ post) (Z.of_nat (length pre)))
    (mkPtr (pre ++ cs ++ post) (Z.of_nat (length pre + length cs)))
    value negative first
  = to_T T (foldl (λ v c, to_T T (to_T T (v * 10) + (code c - code "0"))) value cs
            * (if negative then -1 else 1)).
Proof.
  revert pre value first.
  induction cs as [|c cs IH]; intros pre value first Hcs; [done|].
  apply Forall_cons in Hcs as [Hc Hcs].
  cbn [length]. rewrite ToInteger_loop_S.
  cbn [it_eq deref incr Ptr_InputIt ptr_array ptr_offset].
  destruct (Z.eqb_spec (Z.of_nat (length pre))
              (Z.of_nat (length pre + S (length cs)))); [lia|].
  cbn [negb]. rewrite Nat2Z.id.
  change (pre ++ (c :: cs) ++ post) with (pre ++ c :: cs ++ post).
  rewrite list_lookup_total_middle by done. rewrite Hc.
  replace (pre ++ c :: cs ++ post) with ((pre ++ [c]) ++ cs ++ post)
    by (by rewrite <- app_assoc).
  replace (Z.of_nat (length pre) + 1) with (Z.of_nat (length (pre ++ [c])))
    by (rewrite length_app; cbn; lia).
  replace (length pre + S (length cs))%nat with (length (pre ++ [c]) + length cs)%nat
    by (rewrite length_app; cbn; lia).
  by rewrite IH.
Qed.

(** The digits of [n] have the value [n]. *)
Lemma foldl_decimal_digits T n :
  0 < int_bits T → 0 ≤ n ≤ T_max T →
  foldl (λ v c, to_T T (to_T T (v * 10) + (code c - code "0"))) 0
    (decimal_digits (S (Z.to_nat (Z.log2 n))) n) = n.
Proof.
  intros Hb [Hn Hmax]. revert n Hn Hmax.
  assert (T_min T ≤ 0) as Hmin.
  { unfold T_min. destruct (int_signed T); [|done].
    assert (0 < 2 ^ (int_bits T - 1)) by (apply Z.pow_pos_nonneg; lia). lia. }
  apply (decimal_ind (λ n, n ≤ T_max T → _)).
  - intros n Hn Hmax. rewrite decimal_digits_unfold by lia.
    destruct (Z.ltb_spec n 10); [|lia]. cbn [foldl].
    rewrite code_digit by lia. rewrite Z.mul_0_l.
    rewrite (to_T_small T 0) by lia. rewrite to_T_small; lia.
  - intros n Hn IH Hmax. rewrite decimal_digits_unfold by lia.
    destruct (Z.ltb_spec n 10); [lia|].
    pose proof (Z.div_mod n 10 ltac:(lia)) as Hdm.
    pose proof (Z.mod_pos_bound n 10 ltac:(lia)) as Hm.
    assert (0 ≤ n / 10) by (apply Z.div_pos; lia).
    rewrite foldl_app. cbn [foldl]. rewrite IH by lia.
    rewrite code_digit by lia.
    rewrite (to_T_small T (n / 10 * 10)) by lia. rewrite to_T_small; lia.
Qed.

(** A character that is neither a digit nor a minus sign in front makes
    the loop return 0, wherever it stands. *)
Lemma ToInteger_loop_rejects T buf (k : nat) ch fuel p c value negative first :
  buf !! k = Some ch → isdigit ch = false → (k ≠ 0%nat ∨ ch ≠ "-"%char) →
  0 ≤ p ≤ Z.of_nat k → Z.of_nat k < c → Z.of_nat fuel = c - p →
  (first = true → p = 0) →
  ToInteger_loop T fuel (mkPtr buf p) (mkPtr buf c) value negative first = 0.
Proof.
  intros Hk Hch Hbad. revert p value negative first.
  induction fuel as [|fuel IH]; intros p value negative first Hp Hc Hf Hfirst; [lia|].
  rewrite ToInteger_loop_S.
  cbn [it_eq deref incr Ptr_InputIt ptr_array ptr_offset].
  destruct (Z.eqb_spec p c); [lia|]. cbn [negb].
  destruct (decide (p = Z.of_nat k)) as [->|Hne].
  - rewrite Nat2Z.id, (list_lookup_total_correct _ _ _ Hk), Hch.
    destruct first; [|done]. cbn [andb].
    case_bool_decide as Hm; [|done].
    destruct Hbad as [Hbad|Hbad]; [|done]. specialize (Hfirst eq_refl). lia.
  - destruct (isdigit (buf !!! Z.to_nat p)); [apply IH; (lia || done)|].
    destruct (first && bool_decide (buf !!! Z.to_nat p = "-"%char));
      [apply IH; (lia || done)|done].
Qed.

Lemma ToInteger_unfold T this :
  ToInteger T this =
    (ToInteger_loop T (Z.to_nat (m_currentSize this)) (mkPtr (m_buffer this) 0)
       (mkPtr (m_buffer this) (m_currentSize this)) 0 false true, this).
Proof. done. Qed.

Lemma ToInteger_decimal maxSize T value this :
  wf maxSize this → contents this = decimal value →
  0 < int_bits T → T_min T ≤ value → Z.abs value ≤ T_max T →
  ToInteger T this = (value, this).
Proof.
  intros [Hlen Hc] Hcont Hb Hmin Hmax. rewrite ToInteger_unfold. f_equal.
  assert (length (contents this) = Z.to_nat (m_currentSize this)) as Hl
    by (unfold contents; rewrite length_take; lia).
  assert (m_buffer this
          = contents this ++ drop (Z.to_nat (m_currentSize this)) (m_buffer this))
    as Hbuf by (unfold contents; by rewrite take_drop).
  set (post := drop (Z.to_nat (m_currentSize this)) (m_buffer this)) in *.
  set (ds := decimal_digits (S (Z.to_nat (Z.log2 (Z.abs value)))) (Z.abs value)).
  assert (Forall (λ c, isdigit c = true) ds) as Hds
    by (apply decimal_digits_all_digits; lia).
  assert (foldl (λ v c, to_T T (to_T T (v * 10) + (code c - code "0"))) 0 ds
          = Z.abs value) as Hval by (apply foldl_decimal_digits; lia).
  rewrite Hbuf, Hcont. rewrite Hcont in Hl. unfold decimal in *. fold ds in Hl |- *.
  replace (m_currentSize this)
    with (Z.of_nat (length ((if value <? 0 then ["-"%char] else []) ++ ds)))
    by lia.
  rewrite Nat2Z.id.
  destruct (Z.ltb_spec value 0) as [Hneg|Hpos].
  - cbn [app length]. rewrite ToInteger_loop_S.
    cbn [it_eq deref incr Ptr_InputIt ptr_array ptr_offset].
    destruct (Z.eqb_spec 0 (Z.of_nat (S (length ds)))); [lia|]. cbn [negb].
    change (Z.to_nat 0) with 0%nat. cbn [lookup_total list_lookup_total].
    rewrite isdigit_minus. cbn [andb]. rewrite bool_decide_eq_true_2 by done.
    pose proof (ToInteger_loop_digits T ds ["-"%char] post 0 true false Hds) as Hloop.
    cbn [app length Nat.add] in Hloop.
    replace (0 + 1) with (Z.of_nat 1) by done.
    rewrite Hloop, Hval. rewrite to_T_small; lia.
  - cbn [app].
    pose proof (ToInteger_loop_digits T ds [] post 0 false true Hds) as Hloop.
    cbn [app length Nat.add] in Hloop. change (Z.of_nat 0) with 0 in Hloop.
    rewrite Hloop, Hval. rewrite to_T_small; lia.
Qed.

Lemma ToInteger_rejects maxSize T this (k : nat) ch :
  wf maxSize this → contents this !! k = Some ch →
  isdigit ch = false → (k ≠ 0%nat ∨ ch ≠ "-"%char) →
  ToInteger T this = (0, this).
Proof.
  intros [Hlen Hc] Hk Hch Hbad. rewrite ToInteger_unfold. f_equal.
  unfold contents in Hk. apply lookup_take_Some in Hk as [Hk Hlt].
  apply (ToInteger_loop_rejects T _ k ch); (done || lia).
Qed.


(** *** [Of] *)

Local Abbreviation digits n := (decimal_digits (S (Z.to_nat (Z.log2 n))) n).

Lemma digits_length_small n : 0 ≤ n < 10 → length (digits n) = 1%nat.
Proof.
  intros Hn. rewrite decimal_digits_unfold by lia.
  by destruct (Z.ltb_spec n 10); [|lia].
Qed.

Lemma digits_length_step n :
  10 ≤ n → length (digits n) = S (length (digits (n / 10))).
Proof.
  intros Hn. rewrite decimal_digits_unfold by lia.
  destruct (Z.ltb_spec n 10); [lia|]. rewrite length_app. cbn. lia.
Qed.

Lemma decimal_digits_length_le fuel n : (length (decimal_digits fuel n) ≤ fuel)%nat.
Proof.
  revert n. induction fuel as [|fuel IH]; intros n; [done|].
  rewrite decimal_digits_S. destruct (_ <? _); [cbn; lia|].
  rewrite length_app. cbn. specialize (IH (n / 10)). lia.
Qed.

Lemma digits_length_bound n (bits : Z) :
  0 ≤ n < 2 ^ bits → 0 < bits → Z.of_nat (length (digits n)) ≤ bits.
Proof.
  intros Hn Hb. pose proof (decimal_digits_length_le (S (Z.to_nat (Z.log2 n))) n).
  destruct (decide (n = 0)) as [->|Hne]; [cbn in *; lia|].
  assert (Z.log2 n < bits) by (apply Z.log2_lt_pow2; lia).
  pose proof (Z.log2_nonneg n). lia.
Qed.

Lemma Of_length_loop_S T fuel absoluteCopy outputLength :
  Of_length_loop T (S fuel) absoluteCopy outputLength =
    if absoluteCopy <? BASE then size_t (outputLength + 1)
    else if absoluteCopy <? BASE_2 then size_t (outputLength + 2)
    else if absoluteCopy <? BASE_3 then size_t (outputLength + 3)
    else if absoluteCopy <? BASE_4 then size_t (outputLength + 4)
    else
      Of_length_loop T fuel (to_unsigned T (absoluteCopy / BASE_4))
        (size_t (outputLength + 4)).
Proof. done. Qed.

(** The first loop of [Of] adds the number of decimal digits. *)
Lemma Of_length_loop_counts T fuel n outputLength :
  0 ≤ n < 2 ^ int_bits T → n < 2 ^ Z.of_nat fuel → 0 ≤ outputLength →
  outputLength + Z.of_nat (length (digits n)) < SIZE_MODULUS →
  Of_length_loop T (S fuel) n outputLength
  = outputLength + Z.of_nat (length (digits n)).
Proof.
  revert n outputLength.
  induction fuel as [|fuel IH]; intros n len Hn Hf Hlen Hfit.
  - change (2 ^ Z.of_nat 0) with 1 in Hf. assert (n = 0) as -> by lia.
    rewrite Of_length_loop_S. cbn [Z.ltb Z.compare BASE].
    rewrite digits_length_small in * by lia. apply size_t_small. lia.
  - rewrite Of_length_loop_S. unfold BASE, BASE_2, BASE_3, BASE_4.
    assert (∀ m, 0 ≤ m → 0 ≤ m / 10) as Hdiv by (intros; apply Z.div_pos; lia).
    assert (∀ m k, 0 < k → 10 * k ≤ m → k ≤ m / 10) as Hlow
      by (intros; apply Z.div_le_lower_bound; lia).
    assert (∀ m k, 0 ≤ m < 10 * k → m / 10 < k) as Hhigh
      by (intros; apply Z.div_lt_upper_bound; lia).
    destruct (Z.ltb_spec n 10).
    { rewrite digits_length_small in * by lia. apply size_t_small. lia. }
    rewrite (digits_length_step n) in * by lia.
    destruct (Z.ltb_spec n 100).
    { rewrite digits_length_small in * by (split; [apply Hdiv|apply Hhigh]; lia).
      apply size_t_small. lia. }
    rewrite (digits_length_step (n / 10)) in * by (apply Hlow; lia).
    destruct (Z.ltb_spec n 1000).
    { rewrite digits_length_small in *
        by (split; [apply Hdiv, Hdiv|apply Hhigh; split; [apply Hdiv|apply Hhigh]]; lia).
      apply size_t_small. lia. }
    rewrite (digits_length_step (n / 10 / 10)) in *
      by (apply Hlow; [lia|]; apply Hlow; lia).
    destruct (Z.ltb_spec n 10000).
    { rewrite digits_length_small in *
        by (split; [apply Hdiv, Hdiv, Hdiv; lia|];
            apply Hhigh; split; [apply Hdiv, Hdiv; lia|];
            apply Hhigh; split; [apply Hdiv; lia|]; apply Hhigh; lia).
      apply size_t_small. lia. }
    assert (n / 10 / 10 / 10 / 10 = n / 10000) as Hq
      by (rewrite !Z.div_div by lia; done).
    assert (0 ≤ n / 10000) as Hq0 by (apply Z.div_pos; lia).
    assert (n / 10000 < 2 ^ Z.of_nat fuel) as Hqf.
    { rewrite Nat2Z.inj_succ, Z.pow_succ_r in Hf by lia.
      apply Z.div_lt_upper_bound; lia. }
    assert (n / 10000 < 2 ^ int_bits T) as Hqb
      by (apply Z.div_lt_upper_bound; lia).
    rewrite to_unsigned_small by lia.
    rewrite (digits_length_step (n / 10 / 10 / 10)) in *
      by (apply Hlow; [lia|]; apply Hlow; [lia|]; apply Hlow; lia).
    rewrite Hq in *.
    rewrite (size_t_small (len + 4)) by lia.
    destruct fuel as [|fuel'].
    { change (2 ^ Z.of_nat 0) with 1 in Hqf.
      assert (1 ≤ n / 10000) by (apply Z.div_le_lower_bound; lia). lia. }
    rewrite IH by lia. lia.
Qed.


Lemma Of_digits_loop_S T fuel absolute bufferPosition buffer :
  Of_digits_loop T (S fuel) absolute bufferPosition buffer =
    if absolute >=? BASE_2 then
      let part := to_unsigned T (absolute mod BASE_2) in
      let buffer :=
        <[Z.to_nat bufferPosition := DIGITS !!! Z.to_nat (part * 2 + 1)]> buffer in
      let bufferPosition := size_t (bufferPosition - 1) in
      let buffer :=
        <[Z.to_nat bufferPosition := DIGITS !!! Z.to_nat (part * 2)]> buffer in
      let bufferPosition := size_t (bufferPosition - 1) in
      Of_digits_loop T fuel (to_unsigned T (absolute / BASE_2)) bufferPosition buffer
    else (absolute, bufferPosition, buffer).
Proof. done. Qed.

Lemma split_last_two (slots : list ascii) :
  (2 ≤ length slots)%nat →
  ∃ a b, slots = take (length slots - 2) slots ++ [a; b].
Proof.
  intros Hlen.
  assert (length (drop (length slots - 2) slots) = 2%nat) as Hd
    by (rewrite length_drop; lia).
  destruct (drop (length slots - 2) slots) as [|a [|b [|]]] eqn:Hdrop;
    try (cbn in Hd; lia).
  exists a, b. by rewrite <- Hdrop, take_drop.
Qed.

Lemma split_last_one (slots : list ascii) :
  (1 ≤ length slots)%nat →
  ∃ a, slots = take (length slots - 1) slots ++ [a].
Proof.
  intros Hlen.
  assert (length (drop (length slots - 1) slots) = 1%nat) as Hd
    by (rewrite length_drop; lia).
  destruct (drop (length slots - 1) slots) as [|a [|]] eqn:Hdrop;
    try (cbn in Hd; lia).
  exists a. by rewrite <- Hdrop, take_drop.
Qed.

(** Two slots at the end of [slots] are overwritten by two characters. *)
Lemma insert_last_two front slots back (x y : ascii) (pos : Z) :
  (2 ≤ length slots)%nat →
  pos = Z.of_nat (length front + length slots) - 1 →
  <[Z.to_nat (pos - 1) := x]> (<[Z.to_nat pos := y]> (front ++ slots ++ back))
  = front ++ take (length slots - 2) slots ++ [x; y] ++ back.
Proof.
  intros Hlen ->. destruct (split_last_two slots Hlen) as (a & b & Hs).
  set (keep := take (length slots - 2) slots) in *.
  assert (length keep = (length slots - 2)%nat) as Hk
    by (unfold keep; rewrite length_take; lia).
  replace (front ++ slots ++ back) with ((front ++ keep ++ [a]) ++ b :: back)
    by (rewrite Hs at 1; by rewrite <- !app_assoc).
  rewrite (insert_middle (front ++ keep ++ [a]) back b y)
    by (rewrite !length_app; cbn; lia).
  replace ((front ++ keep ++ [a]) ++ y :: back)
    with ((front ++ keep) ++ a :: y :: back)
    by (by rewrite <- !app_assoc).
  rewrite (insert_middle (front ++ keep) (y :: back) a x)
    by (rewrite !length_app; lia).
  by rewrite <- !app_assoc.
Qed.

Lemma insert_last_one front slots back (y : ascii) (pos : Z) :
  (1 ≤ length slots)%nat →
  pos = Z.of_nat (length front + length slots) - 1 →
  <[Z.to_nat pos := y]> (front ++ slots ++ back)
  = front ++ take (length slots - 1) slots ++ [y] ++ back.
Proof.
  intros Hlen ->. destruct (split_last_one slots Hlen) as (a & Hs).
  set (keep := take (length slots - 1) slots) in *.
  assert (length keep = (length slots - 1)%nat) as Hk
    by (unfold keep; rewrite length_take; lia).
  replace (front ++ slots ++ back) with ((front ++ keep) ++ a :: back)
    by (rewrite Hs at 1; by rewrite <- !app_assoc).
  rewrite (insert_middle (front ++ keep) back a y)
    by (rewrite !length_app; lia).
  by rewrite <- !app_assoc.
Qed.

Lemma digits_two n :
  100 ≤ n →
  digits n = digits (n / 100) ++ [digit (n mod 100 / 10); digit (n mod 100 mod 10)].
Proof.
  intros Hn. rewrite (decimal_digits_unfold n) by lia.
  destruct (Z.ltb_spec n 10); [lia|].
  assert (10 ≤ n / 10) by (apply Z.div_le_lower_bound; lia).
  rewrite (decimal_digits_unfold (n / 10)) by lia.
  destruct (Z.ltb_spec (n / 10) 10); [lia|].
  rewrite Z.div_div by lia. rewrite <- app_assoc. cbn [app Z.mul Pos.mul].
  assert (n mod 100 / 10 = n / 10 mod 10 ∧ n mod 100 mod 10 = n mod 10) as [-> ->]
    by (Z.to_euclidean_division_equations; lia).
  done.
Qed.

Lemma digits_two_small n :
  10 ≤ n < 100 → digits n = [digit (n / 10); digit (n mod 10)].
Proof.
  intros Hn. rewrite (decimal_digits_unfold n) by lia.
  destruct (Z.ltb_spec n 10); [lia|].
  assert (0 ≤ n / 10 < 10) by (Z.to_euclidean_division_equations; lia).
  rewrite (decimal_digits_unfold (n / 10)) by lia.
  by destruct (Z.ltb_spec (n / 10) 10); [|lia].
Qed.

Lemma digits_one n : 0 ≤ n < 10 → digits n = [digit (n mod 10)].
Proof.
  intros Hn. rewrite (decimal_digits_unfold n) by lia.
  destruct (Z.ltb_spec n 10); [|lia]. by rewrite Z.mod_small by lia.
Qed.

(** The second loop of [Of] and the statement behind it store the digits
    of [n] in the slots that end at [bufferPosition]. *)
Lemma Of_digits_loop_stores T fuel n pos front slots back :
  8 ≤ int_bits T → 0 ≤ n < 2 ^ int_bits T → n < 2 ^ Z.of_nat fuel →
  length slots = length (digits n) →
  pos = Z.of_nat (length front + length slots) - 1 → pos < SIZE_MODULUS →
  ∃ n' pos' slots' stored,
    Of_digits_loop T fuel n pos (front ++ slots ++ back)
    = (n', pos', front ++ slots' ++ stored ++ back)
    ∧ 0 ≤ n' < 100
    ∧ digits n = digits n' ++ stored
    ∧ length slots' = length (digits n')
    ∧ pos' = Z.of_nat (length front + length slots') - 1.
Proof.
  intros Hb. revert n pos slots back.
  induction fuel as [|fuel IH]; intros n pos slots back Hn Hf Hlen Hpos Hfit.
  - change (2 ^ Z.of_nat 0) with 1 in Hf.
    exists n, pos, slots, []. cbn [Of_digits_loop app].
    rewrite app_nil_r. repeat split; (done || lia).
  - rewrite Of_digits_loop_S. unfold BASE_2.
    destruct (Z.geb_spec n 100) as [Hge|Hlt].
    + cbn zeta.
      assert (2 ^ 8 ≤ 2 ^ int_bits T) as Hpow by (apply Z.pow_le_mono_r; lia).
      change (2 ^ 8) with 256 in Hpow.
      pose proof (Z.mod_pos_bound n 100 ltac:(lia)) as Hm.
      assert (0 ≤ n / 100 < 2 ^ int_bits T) as Hq
        by (split; [apply Z.div_pos; lia|apply Z.div_lt_upper_bound; lia]).
      rewrite !to_unsigned_small by lia.
      destruct (DIGITS_table (n mod 100) Hm) as [-> ->].
      pose proof (digits_two n Hge) as Hd.
      assert (length (digits n) = (length (digits (n / 100)) + 2)%nat) as Hl
        by (rewrite Hd, length_app; done).
      pose proof (decimal_digits_nonempty (n / 100)) as Hne.
      rewrite (size_t_small (pos - 1)) by lia.
      rewrite (size_t_small (pos - 1 - 1)) by lia.
      rewrite (insert_last_two front slots back) by lia.
      set (keep := take (length slots - 2) slots).
      assert (length keep = length (digits (n / 100))) as Hk
        by (unfold keep; rewrite length_take; lia).
      destruct (IH (n / 100) (pos - 1 - 1) keep
                  ([digit (n mod 100 / 10); digit (n mod 100 mod 10)] ++ back))
        as (n' & pos' & slots' & stored & Hloop & Hn' & Hds & Hls & Hp').
      * done.
      * rewrite Nat2Z.inj_succ, Z.pow_succ_r in Hf by lia.
        apply Z.div_lt_upper_bound; lia.
      * done.
      * lia.
      * lia.
      * exists n', pos', slots',
          (stored ++ [digit (n mod 100 / 10); digit (n mod 100 mod 10)]).
        rewrite Hloop. rewrite <- !app_assoc. split; [done|]. split; [done|].
        split; [|done]. by rewrite Hd, Hds, <- app_assoc.
    + exists n, pos, slots, []. cbn [app]. rewrite app_nil_r.
      repeat split; (done || lia).
Qed.


Lemma decimal_length value :
  Z.of_nat (length (decimal value))
  = (if value <? 0 then 1 else 0) + Z.of_nat (length (digits (Z.abs value))).
Proof. unfold decimal. rewrite length_app. destruct (_ <? _); cbn [length]; lia. Qed.

(** [Of] stores the digits found by its second loop behind [front]. *)
Lemma Of_stores maxSize T n front slots back :
  8 ≤ int_bits T → 0 ≤ n < 2 ^ int_bits T →
  length slots = length (digits n) →
  Z.of_nat (length front + length slots) ≤ maxSize → maxSize < SIZE_MODULUS →
  let c := Z.of_nat (length front + length slots) in
  (let '(absolute, bufferPosition, buffer) :=
     Of_digits_loop T (Z.to_nat (int_bits T)) n (size_t (c - 1))
       (front ++ slots ++ back) in
   if absolute >=? BASE then
     let buffer :=
       <[Z.to_nat bufferPosition := DIGITS !!! Z.to_nat (absolute * 2 + 1)]> buffer in
     let bufferPosition := size_t (bufferPosition - 1) in
     let buffer :=
       <[Z.to_nat bufferPosition := DIGITS !!! Z.to_nat (absolute * 2)]> buffer in
     mkStaticString c buffer
   else
     let buffer :=
       <[Z.to_nat bufferPosition := DIGITS !!! Z.to_nat (absolute * 2 + 1)]> buffer in
     mkStaticString c buffer)
  = mkStaticString c (front ++ digits n ++ back).
Proof.
  intros Hb Hn Hlen Hfit Hmax c.
  pose proof (decimal_digits_nonempty n) as Hne.
  rewrite size_t_small by lia.
  destruct (Of_digits_loop_stores T (Z.to_nat (int_bits T)) n (c - 1) front slots back)
    as (n' & pos' & slots' & stored & Hloop & Hn' & Hds & Hls & Hp');
    [lia|done|rewrite Z2Nat.id by lia; lia|done|done|lia|].
  rewrite Hloop. unfold BASE.
  destruct (DIGITS_table n' Hn') as [Htens Hunits].
  destruct (Z.geb_spec n' 10) as [Hge|Hlt].
  - cbn zeta. rewrite Htens, Hunits.
    rewrite (digits_two_small n') in Hls, Hds by lia. cbn [length] in Hls.
    rewrite (size_t_small (pos' - 1)) by lia.
    rewrite (insert_last_two front slots' (stored ++ back)) by lia.
    rewrite Hls, Hds. cbn [Nat.sub app]. by rewrite take_0.
  - cbn zeta. rewrite Hunits.
    rewrite (digits_one n') in Hls, Hds by lia. cbn [length] in Hls.
    rewrite (insert_last_one front slots' (stored ++ back)) by lia.
    rewrite Hls, Hds. cbn [Nat.sub app]. by rewrite take_0.
Qed.

Lemma Of_decimal maxSize T value initial :
  0 < maxSize → maxSize + 1 < SIZE_MODULUS → 8 ≤ int_bits T ≤ 128 →
  T_min T ≤ value → Z.abs value ≤ T_max T →
  length initial = Z.to_nat (maxSize + 1) →
  wf maxSize (Of maxSize T value initial)
  ∧ contents (Of maxSize T value initial)
    = (if Z.of_nat (length (decimal value)) <=? maxSize then decimal value else [])
  ∧ m_currentSize (Of maxSize T value initial)
    = (if Z.of_nat (length (decimal value)) <=? maxSize
       then Z.of_nat (length (decimal value)) else 0).
Proof.
  intros Hpos Hfits Hb Hmin Hmax Hlen.
  pose proof (T_max_lt T ltac:(lia)) as Hrange.
  set (n := Z.abs value) in *.
  assert (to_unsigned T (if value <? 0 then - value else value) = n) as Habs.
  { rewrite to_unsigned_small; destruct (Z.ltb_spec value 0); lia. }
  pose proof (digits_length_bound n (int_bits T) ltac:(lia) ltac:(lia)) as HL.
  pose proof (decimal_digits_nonempty n) as Hne.
  assert (Of_length_loop T (S (Z.to_nat (int_bits T))) n (if value <? 0 then 1 else 0)
          = Z.of_nat (length (decimal value))) as Hcount.
  { rewrite Of_length_loop_counts.
    - by rewrite decimal_length.
    - lia.
    - rewrite Z2Nat.id by lia. lia.
    - destruct (value <? 0); lia.
    - unfold SIZE_MODULUS, SIZE_WIDTH. destruct (value <? 0); lia. }
  unfold Of. rewrite Habs, Hcount.
  destruct (Z.leb_spec (Z.of_nat (length (decimal value))) maxSize) as [Hle|Hgt].
  - rewrite decimal_length in Hle. fold n in Hle.
    unfold construct, set_currentSize, set_buffer. cbn [m_currentSize m_buffer].
    unfold decimal. fold n. revert Hle.
    destruct (Z.ltb_spec value 0) as [Hneg|Hnn]; intros Hle.
    + cbn [m_currentSize m_buffer app].
      destruct initial as [|x rest]; [cbn in Hlen; lia|]. cbn [length] in Hlen.
      change (<[0%nat:="-"%char]> (x :: rest)) with (["-"%char] ++ rest).
      rewrite <- (take_drop (length (digits n)) rest).
      set (slots := take (length (digits n)) rest).
      assert (length slots = length (digits n)) as Hs
        by (unfold slots; rewrite length_take; lia).
      replace (Z.of_nat (length ("-"%char :: digits n)))
        with (Z.of_nat (length ["-"%char] + length slots)) by (cbn [length]; lia).
      rewrite (Of_stores maxSize) by (done || lia || (cbn [length]; lia)).
      cbn [app].
      replace ("-"%char :: digits n ++ drop (length (digits n)) rest)
        with (("-"%char :: digits n) ++ drop (length (digits n)) rest) by done.
      split; [|split].
      * constructor; cbn [m_currentSize m_buffer length]; [|lia].
        rewrite length_app, length_drop. cbn [length]. lia.
      * unfold contents. cbn [m_currentSize m_buffer].
        rewrite Nat2Z.id. cbn [length Nat.add]. rewrite <- Hs at 1.
        replace (S (length slots)) with (length ("-"%char :: digits n))
          by (cbn [length]; lia).
        by rewrite take_app_length.
      * cbn [m_currentSize length]. lia.
    + cbn [m_currentSize m_buffer app].
      rewrite <- (take_drop (length (digits n)) initial).
      set (slots := take (length (digits n)) initial).
      assert (length slots = length (digits n)) as Hs
        by (unfold slots; rewrite length_take; lia).
      replace (Z.of_nat (length (digits n)))
        with (Z.of_nat (length (@nil ascii) + length slots)) by (cbn [length]; lia).
      change (slots ++ drop (length (digits n)) initial)
        with ([] ++ slots ++ drop (length (digits n)) initial).
      rewrite (Of_stores maxSize) by (done || lia || (cbn [length]; lia)).
      cbn [app].
      split; [|split].
      * constructor; cbn [m_currentSize m_buffer length]; [|lia].
        rewrite length_app, length_drop. lia.
      * unfold contents. cbn [m_currentSize m_buffer length Nat.add].
        rewrite Nat2Z.id, Hs. by rewrite take_app_length.
      * cbn [m_currentSize length]. lia.
  - unfold construct. split; [|split]; [|done..].
    constructor; cbn; [done|lia].
Qed.

End Numerals.

Section StaticStringTheorems.
Import StaticString.

Implicit Types (this other : StaticString) (buffer initial literal : list ascii).
Implicit Types (ch : ascii) (T : int_type).



(** X23. [operator==] between strings of any two capacities returns true
    exactly when the two hold the same characters, whatever the slots past
    their sizes hold; [operator!=] returns the opposite; neither changes the
    string. *)
Theorem StaticString_equality maxSize otherSize this other :
  0 < maxSize → maxSize + 1 < SIZE_MODULUS →
  wf maxSize this → wf otherSize other →
  operator_eq other this = (bool_decide (contents this = contents other), this)
  ∧ operator_ne other this
    = (negb (bool_decide (contents this = contents other)), this).
Proof.
  intros Hpos Hfits Hwf Hwo.
  assert (operator_eq other this
          = (bool_decide (contents this = contents other), this)) as Heq
    by (by apply (operator_eq_decides maxSize) with (otherSize := otherSize)).
  split; [done|]. unfold operator_ne, bind, ret. by rewrite Heq.
Qed.

(** X24. [StartsWith] returns true exactly when the other string's
    characters are a prefix of this string's, [EndsWith] exactly when they
    are a suffix (its counters are [int]s: for capacities below [2 ^ 31]);
    an empty string is a prefix and a suffix of every string. *)
Theorem StaticString_StartsWith_EndsWith maxSize otherSize this other :
  0 < maxSize → maxSize < 2 ^ (INT_WIDTH - 1) →
  wf maxSize this → wf otherSize other →
  StartsWith other this
  = (bool_decide (contents other `prefix_of` contents this), this)
  ∧ EndsWith other this
    = (bool_decide (contents other `suffix_of` contents this), this)
  ∧ ((IsEmpty other).1 = true →
     (StartsWith other this).1 = true ∧ (EndsWith other this).1 = true).
Proof.
  intros Hpos Hint Hwf Hwo. change (2 ^ (INT_WIDTH - 1)) with (2 ^ 31) in Hint.
  assert (maxSize + 1 < SIZE_MODULUS) as Hfits
    by (unfold SIZE_MODULUS, SIZE_WIDTH; lia).
  assert (StartsWith other this
          = (bool_decide (contents other `prefix_of` contents this), this)) as Hs
    by (by apply (StartsWith_decides maxSize) with (otherSize := otherSize)).
  assert (EndsWith other this
          = (bool_decide (contents other `suffix_of` contents this), this)) as He
    by (by apply (EndsWith_decides maxSize) with (otherSize := otherSize)).
  split; [done|]. split; [done|].
  unfold IsEmpty, gets. cbn [fst]. intros Hemp%Z.eqb_eq.
  assert (contents other = []) as Hnil by (unfold contents; by rewrite Hemp).
  rewrite Hs, He, Hnil. cbn [fst]. split; apply bool_decide_eq_true_2.
  - apply prefix_nil.
  - apply suffix_nil.
Qed.

(** X25. [Skip(characters)] with [characters] up to the size returns true
    and removes that many leading characters, the others keeping their
    order; with more than the size it returns false and changes nothing.
    The copy loop stays within the [maxSize + 1] slots: with every read and
    write of [m_buffer] checked against the array, [Skip] returns the same
    result. *)
Theorem StaticString_Skip maxSize this characters :
  0 < maxSize → maxSize + 1 < SIZE_MODULUS → wf maxSize this → 0 ≤ characters →
  let r := Skip characters this in
  wf maxSize r.2
  ∧ (characters ≤ (GetSize this).1 →
     r.1 = true
     ∧ contents r.2 = drop (Z.to_nat characters) (contents this)
     ∧ (GetSize r.2).1 = (GetSize this).1 - characters)
  ∧ ((GetSize this).1 < characters → r = (false, this))
  ∧ Skip_checked characters this = Some r.
Proof.
  intros Hpos Hfits Hwf Hk r. unfold GetSize, gets. cbn [fst].
  assert (Skip_checked characters this = Some r) as Hchecked
    by (by apply (Skip_checked_agrees maxSize)).
  destruct (Z.le_gt_cases characters (m_currentSize this)) as [Hle|Hgt].
  - assert (r.1 = true
            ∧ contents r.2 = drop (Z.to_nat characters) (contents this)
            ∧ wf maxSize r.2) as (Hr & Hc & Hw)
      by (apply (Skip_contents maxSize); (done || lia)).
    split; [done|]. split; [|split; [intros; lia|done]].
    intros _. split; [done|]. split; [done|].
    assert (length (contents this) = Z.to_nat (m_currentSize this)) as Hl
      by (by apply (string_contents_length maxSize)).
    assert (length (contents r.2) = Z.to_nat (m_currentSize r.2)) as Hl2
      by (by apply (string_contents_length maxSize)).
    rewrite Hc, length_drop in Hl2. destruct Hw as [_ ?]. lia.
  - unfold r in *. rewrite Skip_rejected in * by done.
    split; [done|]. split; [intros; lia|]. split; [done|done].
Qed.

(** X26. [Truncate(length)] with a length below the size returns true and
    keeps that many leading characters; with the size itself or more it
    returns false and changes nothing.  For every [n] up to the size, the
    characters [Truncate(n)] keeps followed by the characters [Skip(n)]
    keeps are the characters of the string.  [Clear] leaves no
    character. *)
Theorem StaticString_Truncate maxSize this (n : Z) :
  0 < maxSize → maxSize + 1 < SIZE_MODULUS → wf maxSize this → 0 ≤ n →
  let r := Truncate n this in
  wf maxSize r.2
  ∧ (n < (GetSize this).1 →
     r.1 = true ∧ contents r.2 = take (Z.to_nat n) (contents this))
  ∧ ((GetSize this).1 ≤ n → r = (false, this))
  ∧ (n ≤ (GetSize this).1 →
     contents this = contents r.2 ++ contents (Skip n this).2)
  ∧ contents (Clear this).2 = [].
Proof.
  intros Hpos Hfits Hwf Hn r. pose proof Hwf as [Hlen Hc].
  unfold GetSize, gets. cbn [fst].
  assert (length (contents this) = Z.to_nat (m_currentSize this)) as Hl
    by (by apply (string_contents_length maxSize)).
  assert (r = if n >=? m_currentSize this then (false, this)
              else (true, set_currentSize n this)) as Hr
    by apply Truncate_unfold.
  assert (n < m_currentSize this →
          r.1 = true ∧ contents r.2 = take (Z.to_nat n) (contents this)) as Hcut.
  { intros Hlt. rewrite Hr. destruct (Z.geb_spec n (m_currentSize this)); [lia|].
    split; [done|]. unfold contents. cbn [snd set_currentSize m_currentSize m_buffer].
    rewrite take_take. f_equal. lia. }
  assert (m_currentSize this ≤ n → r = (false, this)) as Hkeep.
  { intros Hge. rewrite Hr. by destruct (Z.geb_spec n (m_currentSize this)); [|lia]. }
  split; [|split; [done|split; [done|split; [|done]]]].
  - rewrite Hr. destruct (Z.geb_spec n (m_currentSize this)); [done|].
    constructor; cbn; [done|lia].
  - intros Hle.
    assert (contents (Skip n this).2 = drop (Z.to_nat n) (contents this)) as ->
      by (apply (Skip_contents maxSize); (done || lia)).
    destruct (decide (n = m_currentSize this)) as [Heq|Hne].
    + rewrite Hkeep by lia. cbn [snd]. rewrite drop_ge by lia. by rewrite app_nil_r.
    + destruct Hcut as [_ ->]; [lia|]. by rewrite take_drop.
Qed.

(** X27. [ToCStr] stores the terminator behind the last character and
    leaves the characters as they are: the C string it returns reads as the
    characters of the string up to their first terminator, and as all of
    them when none is the terminator.  [operator const char*] stores
    nothing. *)
Theorem StaticString_ToCStr maxSize this :
  0 < maxSize → wf maxSize this →
  let r := ToCStr this in
  wf maxSize r.2
  ∧ contents r.2 = contents this
  ∧ c_str r.1 = c_str (contents this)
  ∧ (zero ∉ contents this → c_str r.1 = contents this)
  ∧ operator_const_char_ptr this = (m_buffer this, this)
  ∧ (operator_const_char_ptr r.2).1 = r.1.
Proof.
  intros Hpos Hwf r. pose proof Hwf as [Hlen Hc].
  assert (r.1 = contents this
                ++ zero :: drop (S (Z.to_nat (m_currentSize this))) (m_buffer this)
          ∧ r.2 = mkStaticString (m_currentSize this) r.1) as [Hp Hs].
  { unfold r. rewrite ToCStr_unfold. cbn [fst snd].
    by rewrite insert_take_drop by lia. }
  assert (length (contents this) = Z.to_nat (m_currentSize this)) as Hl
    by (unfold contents; rewrite length_take; lia).
  assert (c_str r.1 = c_str (contents this)) as Hstr
    by (rewrite Hp; apply c_str_app_zero).
  split; [|split; [|split; [done|split; [|split; [done|]]]]].
  - rewrite Hs, Hp. constructor; cbn; [|lia].
    rewrite length_app. cbn. rewrite length_drop. lia.
  - rewrite Hs, Hp. apply string_contents_middle. lia.
  - intros Hnz. by rewrite Hstr, c_str_no_zero.
  - by rewrite Hs.
Qed.

(** X28. [Of<T>(value)], for [T] of 8 to 128 bits and a value whose
    magnitude [T] holds, is the decimal numeral of the value, a minus sign
    in front of a negative one and no leading zero, when the numeral fits
    into [maxSize] characters, and the empty string when it does not. *)
Theorem StaticString_Of maxSize T value initial :
  0 < maxSize → maxSize + 1 < SIZE_MODULUS → 8 ≤ int_bits T ≤ 128 →
  T_min T ≤ value → Z.abs value ≤ T_max T →
  length initial = Z.to_nat (maxSize + 1) →
  let r := Of maxSize T value initial in
  let fits := Z.of_nat (length (decimal value)) <=? maxSize in
  wf maxSize r
  ∧ contents r = (if fits then decimal value else [])
  ∧ (GetLength r).1 = (if fits then Z.of_nat (length (decimal value)) else 0)
  ∧ (IsEmpty r).1 = negb fits.
Proof.
  intros Hpos Hfits Hb Hmin Hmax Hlen r fits.
  destruct (Of_decimal maxSize T value initial Hpos Hfits Hb Hmin Hmax Hlen)
    as (Hwf & Hc & Hs).
  fold r fits in Hwf, Hc, Hs. unfold GetLength, IsEmpty, gets. cbn [fst].
  split; [done|]. split; [done|]. split; [done|]. rewrite Hs.
  destruct fits; [|done]. apply Z.eqb_neq. rewrite decimal_length.
  pose proof (decimal_digits_nonempty (Z.abs value)). destruct (value <? 0); lia.
Qed.

(** X29. [ToInteger<T>] on a string that holds the decimal numeral of a
    value whose magnitude [T] holds returns that value; on any string that
    holds, anywhere, a character that is neither a digit nor a minus sign in
    front, it returns 0.  It does not change the string. *)
Theorem StaticString_ToInteger maxSize T this value :
  wf maxSize this → 0 < int_bits T →
  contents this = decimal value → T_min T ≤ value → Z.abs value ≤ T_max T →
  ToInteger T this = (value, this)
  ∧ (∀ other (k : nat) ch,
       wf maxSize other → contents other !! k = Some ch → isdigit ch = false →
       k ≠ 0%nat ∨ ch ≠ "-"%char →
       ToInteger T other = (0, other)).
Proof.
  intros Hwf Hb Hc Hmin Hmax. split.
  - by apply (ToInteger_decimal maxSize).
  - intros other k ch Hwo Hk Hch Hbad.
    by apply (ToInteger_rejects maxSize T other k ch).
Qed.

(** X30. [ToInteger<T>] undoes [Of<T>]: for [T] of 8 to 128 bits and a
    value whose magnitude [T] holds, the string [Of<T>(value)] converts back
    to the value when its numeral fits into [maxSize] characters, and to 0
    when it does not. *)
Theorem StaticString_Of_ToInteger maxSize T value initial :
  0 < maxSize → maxSize + 1 < SIZE_MODULUS → 8 ≤ int_bits T ≤ 128 →
  T_min T ≤ value → Z.abs value ≤ T_max T →
  length initial = Z.to_nat (maxSize + 1) →
  (ToInteger T (Of maxSize T value initial)).1
  = if Z.of_nat (length (decimal value)) <=? maxSize then value else 0.
Proof.
  intros Hpos Hfits Hb Hmin Hmax Hlen.
  destruct (Of_decimal maxSize T value initial Hpos Hfits Hb Hmin Hmax Hlen)
    as (Hwf & Hc & Hs).
  destruct (Z.of_nat (length (decimal value)) <=? maxSize).
  - by rewrite (ToInteger_decimal maxSize T value) by (done || lia).
  - rewrite ToInteger_unfold, Hs. cbn [fst Z.to_nat ToInteger_loop].
    rewrite ?Z.mul_0_l. apply to_T_small; [lia|].
    pose proof (T_max_lt T ltac:(lia)). unfold T_min.
    assert (0 < 2 ^ (int_bits T - 1)) by (apply Z.pow_pos_nonneg; lia).
    destruct (int_signed T); lia.
Qed.

End StaticStringTheorems.

(** * The properties of [StaticString] on concrete strings *)

Section StaticStringConcrete.
Import StaticString.

Local Abbreviation hello :=
  (mkStaticString 5 ["h"; "e"; "l"; "l"; "o"; "?"; "?"; "?"; "?"]%char).
Local Abbreviation int32 := (mkIntType 32 true).



(** X23: [hel] in a string of capacity 3 against [hello] cut to three
    characters. *)
Lemma StaticString_equality_witness :
  let this := (Truncate 3 hello).2 in
  let other := mkStaticString 3 ["h"; "e"; "l"; zero]%char in
  (0 < 8 ∧ 8 + 1 < SIZE_MODULUS ∧ wf 8 this ∧ wf 3 other)
  ∧ (operator_eq other this = (bool_decide (contents this = contents other), this)
     ∧ operator_ne other this
       = (negb (bool_decide (contents this = contents other)), this))
  ∧ ((operator_eq other this).1, (operator_eq other hello).1) = (true, false).
Proof.
  intros this other.
  assert (wf 8 this) as Hwf by (constructor; by vm_compute).
  assert (wf 3 other) as Hwo by (constructor; by vm_compute).
  split; [by repeat (split; [by vm_compute|])|]. split; [|by vm_compute].
  apply (StaticString_equality 8 3 this other); (done || by vm_compute).
Defined.

(** X24: [llo] is a suffix and no prefix of [hello]. *)
Lemma StaticString_StartsWith_EndsWith_witness :
  let other := mkStaticString 3 ["l"; "l"; "o"; zero]%char in
  (0 < 8 ∧ 8 < 2 ^ (INT_WIDTH - 1) ∧ wf 8 hello ∧ wf 3 other)
  ∧ (StartsWith other hello
     = (bool_decide (contents other `prefix_of` contents hello), hello)
     ∧ EndsWith other hello
       = (bool_decide (contents other `suffix_of` contents hello), hello)
     ∧ ((IsEmpty other).1 = true →
        (StartsWith other hello).1 = true ∧ (EndsWith other hello).1 = true))
  ∧ ((StartsWith other hello).1, (EndsWith other hello).1) = (false, true).
Proof.
  intros other.
  assert (wf 8 hello) as Hwf by (constructor; by vm_compute).
  assert (wf 3 other) as Hwo by (constructor; by vm_compute).
  split; [by repeat (split; [by vm_compute|])|]. split; [|by vm_compute].
  apply (StaticString_StartsWith_EndsWith 8 3 hello other); (done || by vm_compute).
Defined.

(** X25: two characters skipped from [hello]; on an array that lacks the
    slot behind the last character the checked loop fails. *)
Lemma StaticString_Skip_witness :
  (0 < 8 ∧ 8 + 1 < SIZE_MODULUS ∧ wf 8 hello ∧ 0 ≤ 2)
  ∧ (let r := Skip 2 hello in
     wf 8 r.2
     ∧ (2 ≤ (GetSize hello).1 →
        r.1 = true
        ∧ contents r.2 = drop (Z.to_nat 2) (contents hello)
        ∧ (GetSize r.2).1 = (GetSize hello).1 - 2)
     ∧ ((GetSize hello).1 < 2 → r = (false, hello))
     ∧ Skip_checked 2 hello = Some r)
  ∧ (contents (Skip 2 hello).2, (Skip 6 hello).1,
     Skip_checked 2 (mkStaticString 5 ["h"; "e"; "l"; "l"; "o"]%char))
    = (["l"; "l"; "o"]%char, false, None).
Proof.
  assert (wf 8 hello) as Hwf by (constructor; by vm_compute).
  split; [by repeat (split; [by vm_compute|])|]. split; [|by vm_compute].
  apply (StaticString_Skip 8 hello 2); (done || by vm_compute).
Defined.

(** X26: [hello] cut to two characters, and cut at its size. *)
Lemma StaticString_Truncate_witness :
  (0 < 8 ∧ 8 + 1 < SIZE_MODULUS ∧ wf 8 hello ∧ 0 ≤ 2)
  ∧ (let r := Truncate 2 hello in
     wf 8 r.2
     ∧ (2 < (GetSize hello).1 →
        r.1 = true ∧ contents r.2 = take (Z.to_nat 2) (contents hello))
     ∧ ((GetSize hello).1 ≤ 2 → r = (false, hello))
     ∧ (2 ≤ (GetSize hello).1 →
        contents hello = contents r.2 ++ contents (Skip 2 hello).2)
     ∧ contents (Clear hello).2 = [])
  ∧ (contents (Truncate 2 hello).2, (Truncate 5 hello).1) = (["h"; "e"]%char, false).
Proof.
  assert (wf 8 hello) as Hwf by (constructor; by vm_compute).
  split; [by repeat (split; [by vm_compute|])|]. split; [|by vm_compute].
  apply (StaticString_Truncate 8 hello 2); (done || by vm_compute).
Defined.

(** X27 on [hello]: the terminator goes into the sixth slot. *)
Lemma StaticString_ToCStr_witness :
  (0 < 8 ∧ wf 8 hello)
  ∧ (let r := ToCStr hello in
     wf 8 r.2
     ∧ contents r.2 = contents hello
     ∧ c_str r.1 = c_str (contents hello)
     ∧ (zero ∉ contents hello → c_str r.1 = contents hello)
     ∧ operator_const_char_ptr hello = (m_buffer hello, hello)
     ∧ (operator_const_char_ptr r.2).1 = r.1)
  ∧ (c_str (ToCStr hello).1, c_str (operator_const_char_ptr hello).1)
    = (["h"; "e"; "l"; "l"; "o"]%char,
       ["h"; "e"; "l"; "l"; "o"; "?"; "?"; "?"; "?"]%char).
Proof.
  assert (wf 8 hello) as Hwf by (constructor; by vm_compute).
  split; [split; [done|done]|]. split; [|by vm_compute].
  apply (StaticString_ToCStr 8 hello); done.
Defined.

(** X28 on capacity 8 and a signed type of 32 bits: [-1234], and a number
    of nine digits, which does not fit. *)
Lemma StaticString_Of_witness :
  let initial := replicate 9 "?"%char in
  (0 < 8 ∧ 8 + 1 < SIZE_MODULUS ∧ 8 ≤ int_bits int32 ≤ 128
   ∧ T_min int32 ≤ -1234 ∧ Z.abs (-1234) ≤ T_max int32
   ∧ length initial = Z.to_nat (8 + 1))
  ∧ (let r := Of 8 int32 (-1234) initial in
     let fits := Z.of_nat (length (decimal (-1234))) <=? 8 in
     wf 8 r
     ∧ contents r = (if fits then decimal (-1234) else [])
     ∧ (GetLength r).1 = (if fits then Z.of_nat (length (decimal (-1234))) else 0)
     ∧ (IsEmpty r).1 = negb fits)
  ∧ (contents (Of 8 int32 (-1234) initial), contents (Of 8 int32 123456789 initial))
    = (["-"; "1"; "2"; "3"; "4"]%char, []).
Proof.
  intros initial.
  split; [by repeat (split; [by vm_compute|])|]. split; [|by vm_compute].
  apply (StaticString_Of 8 int32 (-1234) initial); by vm_compute.
Defined.

(** X29 on a signed type of 32 bits: the strings [-12] and [hello]. *)
Lemma StaticString_ToInteger_witness :
  let this := mkStaticString 3 ["-"; "1"; "2"; "?"; "?"; "?"; "?"; "?"; "?"]%char in
  (wf 8 this ∧ 0 < int_bits int32 ∧ contents this = decimal (-12)
   ∧ T_min int32 ≤ -12 ∧ Z.abs (-12) ≤ T_max int32)
  ∧ (ToInteger int32 this = (-12, this)
     ∧ (∀ other (k : nat) ch,
          wf 8 other → contents other !! k = Some ch → isdigit ch = false →
          k ≠ 0%nat ∨ ch ≠ "-"%char →
          ToInteger int32 other = (0, other)))
  ∧ ((ToInteger int32 this).1, (ToInteger int32 hello).1) = (-12, 0).
Proof.
  intros this.
  assert (wf 8 this) as Hwf by (constructor; by vm_compute).
  split; [by repeat (split; [by vm_compute|])|]. split; [|by vm_compute].
  apply (StaticString_ToInteger 8 int32 this (-12)); (done || by vm_compute).
Defined.

(** X30 on capacity 8 and a signed type of 32 bits. *)
Lemma StaticString_Of_ToInteger_witness :
  let initial := replicate 9 "?"%char in
  (0 < 8 ∧ 8 + 1 < SIZE_MODULUS ∧ 8 ≤ int_bits int32 ≤ 128
   ∧ T_min int32 ≤ -1234 ∧ Z.abs (-1234) ≤ T_max int32
   ∧ length initial = Z.to_nat (8 + 1))
  ∧ (ToInteger int32 (Of 8 int32 (-1234) initial)).1
    = (if Z.of_nat (length (decimal (-1234))) <=? 8 then -1234 else 0)
  ∧ (ToInteger int32 (Of 8 int32 (-1234) initial)).1 = -1234.
Proof.
  intros initial.
  split; [by repeat (split; [by vm_compute|])|]. split; [|by vm_compute].
  apply (StaticString_Of_ToInteger 8 int32 (-1234) initial); by vm_compute.
Defined.

End StaticStringConcrete.
